(** * Image-usage analysis and rename mapping of markdown-to-wordpress

    A shallow embedding of [etl/0-image-processing/main.py] (class
    [ImageProcessor]) together with the properties its specification states
    about it.

    Layout: Python text and the Unicode tables, the regular expressions of
    the module [re] that the code uses, [pathlib] paths, the file system as
    an oracle, the console/exception monad, the methods of [ImageProcessor],
    a reference file system for concrete runs, and then the theorems: first
    those that settle the statements of the specification, then further
    properties of the code. *)

From Stdlib Require Import NArith String Ascii Decimal DecimalNat.
From stdpp Require Import gmap list.

#[local] Open Scope string_scope.
#[local] Open Scope N_scope.
#[local] Open Scope list_scope.

(** ** Python text *)

(** A Python [str] is a sequence of Unicode code points. *)
Abbreviation str := (list N).

(** A literal of the source, character by character (ASCII literals only). *)
Definition lit (s : string) : str := map N_of_ascii (list_ascii_of_string s).
Coercion lit : string >-> list.

Definition chr (a : ascii) : N := N_of_ascii a.

Definition is_ascii (c : N) : bool := c <? 128.

Definition ascii_upper_letter (c : N) : bool := (65 <=? c) && (c <=? 90).
Definition ascii_lower_letter (c : N) : bool := (97 <=? c) && (c <=? 122).
Definition ascii_digit (c : N) : bool := (48 <=? c) && (c <=? 57).
Definition ascii_alnum (c : N) : bool :=
  ascii_upper_letter c || ascii_lower_letter c || ascii_digit c.
Definition ascii_lower (c : N) : N := if ascii_upper_letter c then c + 32 else c.

(** [str.isspace] for one code point; the list is the one CPython uses
    (Unicode 14), and [\s] of a [str] pattern is the same class. *)
Definition isspace (c : N) : bool :=
  ((9 <=? c) && (c <=? 13)) || ((28 <=? c) && (c <=? 32))
  || (c =? 133) || (c =? 160) || (c =? 5760)
  || ((8192 <=? c) && (c <=? 8202))
  || (c =? 8232) || (c =? 8233) || (c =? 8239) || (c =? 8287) || (c =? 12288).

(** The Unicode Character Database as far as the code consults it. The
    tables themselves belong to the Python runtime; what is fixed here is
    how they act on Basic Latin.

    [ucd_lower c] is the lower-case mapping of one code point ([str.lower]
    maps code point by code point; its only context rule chooses between the
    two lower-case sigmas). [ucd_decomp c] is the full compatibility
    decomposition of [c] (the canonical reordering that NFKD adds permutes
    combining marks only). *)
Class UnicodeData := {
  ucd_lower : N → str;
  ucd_decomp : N → str;
  ucd_alnum : N → bool;
  ucd_decimal : N → bool;
  ucd_lower_ascii : ∀ c, c < 128 → ucd_lower c = [ascii_lower c];
  ucd_decomp_ascii : ∀ c, c < 128 → ucd_decomp c = [c];
  ucd_alnum_ascii : ∀ c, c < 128 → ucd_alnum c = ascii_alnum c;
  ucd_decimal_ascii : ∀ c, c < 128 → ucd_decimal c = ascii_digit c
}.

Section Text.
Context `{!UnicodeData}.

(** [s.lower()] *)
Definition lower (s : str) : str := flat_map ucd_lower s.

Fixpoint drop_while (p : N → bool) (s : str) : str :=
  match s with
  | c :: s' => if p c then drop_while p s' else s
  | [] => []
  end.

(** [s.lstrip(chars)], [s.rstrip(chars)], [s.strip(chars)] for a predicate
    on code points; [s.strip()] strips white space. *)
Definition lstrip_where (p : N → bool) (s : str) : str := drop_while p s.
Definition rstrip_where (p : N → bool) (s : str) : str :=
  reverse (drop_while p (reverse s)).
Definition strip_where (p : N → bool) (s : str) : str :=
  rstrip_where p (lstrip_where p s).
Definition strip (s : str) : str := strip_where isspace s.

Definition in_chars (chars : str) (c : N) : bool := bool_decide (c ∈ chars).

(** [s.startswith(p)], [s.endswith(p)] *)
Fixpoint startswith (s p : str) : bool :=
  match p, s with
  | [], _ => true
  | a :: p', b :: s' => (a =? b) && startswith s' p'
  | _ :: _, [] => false
  end.
Definition endswith (s p : str) : bool := startswith (reverse s) (reverse p).

(** [unicodedata.normalize('NFKD', s)] *)
Definition normalize_NFKD (s : str) : str := flat_map ucd_decomp s.

(** [s.encode('ascii', 'ignore').decode('ascii')] *)
Definition encode_ascii_ignore (s : str) : str := filter (λ c, is_ascii c = true) s.

(** ** Regular expressions

    Every pattern of the source is a sequence of character classes, each
    with a repetition count; a group always wraps one such item. [match_here]
    is the backtracking matcher of [re]: each item is greedy and gives back
    one character at a time. Its result lists the text matched by every item
    and the rest of the subject. *)

Record re_item := ReItem {
  re_class : N → bool;
  re_min : nat;
  re_max : option nat
}.

Definition re_char (c : N) : re_item := ReItem (N.eqb c) 1 (Some 1%nat).
Definition re_one (p : N → bool) : re_item := ReItem p 1 (Some 1%nat).
Definition re_star (p : N → bool) : re_item := ReItem p 0 None.
Definition re_plus (p : N → bool) : re_item := ReItem p 1 None.
Definition re_times (n : nat) (p : N → bool) : re_item := ReItem p n (Some n).
Definition re_lit (s : str) : list re_item := map re_char s.

(** [\w], [\s] and [\d] of a [str] pattern. *)
Definition re_w (c : N) : bool := ucd_alnum c || (c =? chr "_").
Definition re_s (c : N) : bool := isspace c.
Definition re_d (c : N) : bool := ucd_decimal c.

(** Length of the longest prefix of [s] inside the class. *)
Fixpoint span (p : N → bool) (s : str) : nat :=
  match s with
  | c :: s' => if p c then S (span p s') else 0%nat
  | [] => 0%nat
  end.

(** The first of [f k], [f (k-1)], ..., [f lo] that succeeds. *)
Fixpoint first_down {A} (f : nat → option A) (lo k : nat) : option A :=
  if (k <? lo)%nat then None else
  match f k with
  | Some r => Some r
  | None => match k with
            | O => None
            | S k' => first_down f lo k'
            end
  end.

Fixpoint match_here (re : list re_item) (s : str) : option (list str * str) :=
  match re with
  | [] => Some ([], s)
  | it :: re' =>
      let avail := span (re_class it) s in
      let hi := match re_max it with
                | Some m => Nat.min m avail
                | None => avail
                end in
      first_down
        (λ k, match match_here re' (drop k s) with
              | Some (ms, rest) => Some (take k s :: ms, rest)
              | None => None
              end)
        (re_min it) hi
  end.

(** [re.finditer(re, s)]: the matches from left to right, not overlapping;
    [skip] counts the characters of [s] that the previous match still
    covers. The patterns used here match no empty string. *)
Fixpoint finditer_from (re : list re_item) (s : str) (skip : nat) : list (list str) :=
  match s with
  | [] => []
  | _ :: s' =>
      match skip with
      | S k => finditer_from re s' k
      | O =>
          match match_here re s with
          | Some (ms, rest) =>
              ms :: finditer_from re s' (length s - length rest - 1)
          | None => finditer_from re s' 0
          end
      end
  end.
Definition finditer (re : list re_item) (s : str) : list (list str) :=
  finditer_from re s 0.

(** [re.sub(re, repl, s)] for a replacement without group references. *)
Fixpoint re_sub_from (re : list re_item) (repl s : str) (skip : nat) : str :=
  match s with
  | [] => []
  | c :: s' =>
      match skip with
      | S k => re_sub_from re repl s' k
      | O =>
          match match_here re s with
          | Some (_, rest) =>
              repl ++ re_sub_from re repl s' (length s - length rest - 1)
          | None => c :: re_sub_from re repl s' 0
          end
      end
  end.
Definition re_sub (re : list re_item) (repl s : str) : str :=
  re_sub_from re repl s 0.

(** [re.sub('^' + re, repl, s)]: without [re.MULTILINE] the pattern can
    match at the start of the subject only. *)
Definition re_sub_at_start (re : list re_item) (repl s : str) : str :=
  match match_here re s with
  | Some (_, rest) => repl ++ rest
  | None => s
  end.

(** ** Slug Deriver: [ImageProcessor._slugify] *)

Definition _slugify (text : str) : str :=
  (* Convert to lowercase and strip *)
  let slug := strip (lower text) in
  (* Remove accented characters *)
  let slug := normalize_NFKD slug in
  let slug := encode_ascii_ignore slug in
  (* re.sub(r'[^\w\s-]', '', slug); re.sub(r'[\s_]+', '-', slug) *)
  let slug := re_sub [re_one (λ c, negb (re_w c || re_s c || (c =? chr "-")))] "" slug in
  let slug := re_sub [re_plus (λ c, re_s c || (c =? chr "_"))] "-" slug in
  (* Remove multiple consecutive hyphens *)
  let slug := re_sub [re_plus (N.eqb (chr "-"))] "-" slug in
  (* Strip hyphens from start/end *)
  let slug := strip_where (in_chars "-") slug in
  (* slug or 'untitled' *)
  match slug with
  | [] => lit "untitled"
  | _ => slug
  end.

End Text.

(** An excerpt of the Unicode tables, enough to run the code on Latin text:
    the case pairs of Basic Latin and Latin-1, and the decompositions of a
    few Latin-1 letters and letter-like symbols. Code points outside the
    excerpt are left as they are. *)
Module UnicodeExcerpt.

Definition latin1_upper (c : N) : bool :=
  (192 <=? c) && (c <=? 222) && negb (c =? 215).

Definition lower_cp (c : N) : str :=
  if ascii_upper_letter c then [c + 32]
  else if latin1_upper c then [c + 32]
  else if c =? 304 then [105; 775]           (* U+0130 *)
  else [c].

Definition decomp_cp (c : N) : str :=
  if c =? 160 then [32]                      (* U+00A0 NO-BREAK SPACE *)
  else if c =? 201 then [69; 769]            (* U+00C9 *)
  else if c =? 233 then [101; 769]           (* U+00E9 *)
  else if c =? 252 then [117; 776]           (* U+00FC *)
  else if c =? 8482 then [84; 77]            (* U+2122 TRADE MARK SIGN *)
  else if c =? 8460 then [72]                (* U+210C BLACK-LETTER CAPITAL H *)
  else if c =? 8470 then [78; 111]           (* U+2116 NUMERO SIGN *)
  else if c =? 64257 then [102; 105]         (* U+FB01 LATIN SMALL LIGATURE FI *)
  else [c].

Definition alnum_cp (c : N) : bool :=
  ascii_alnum c
  || ((192 <=? c) && (c <=? 255) && negb (c =? 215) && negb (c =? 247)).

Definition decimal_cp (c : N) : bool :=
  ascii_digit c || ((1632 <=? c) && (c <=? 1641)).

End UnicodeExcerpt.

(** Case analysis on the comparisons of code points in the goal. *)
Ltac cp_cases :=
  repeat match goal with
         | |- context [N.leb ?a ?b] => destruct (N.leb_spec a b)
         | |- context [N.ltb ?a ?b] => destruct (N.ltb_spec a b)
         | |- context [N.eqb ?a ?b] => destruct (N.eqb_spec a b)
         end; simpl; try done; try lia.

#[global] Program Instance ucd_excerpt : UnicodeData := {|
  ucd_lower := UnicodeExcerpt.lower_cp;
  ucd_decomp := UnicodeExcerpt.decomp_cp;
  ucd_alnum := UnicodeExcerpt.alnum_cp;
  ucd_decimal := UnicodeExcerpt.decimal_cp |}.
Next Obligation.
  intros c Hc.
  unfold UnicodeExcerpt.lower_cp, ascii_lower, UnicodeExcerpt.latin1_upper, ascii_upper_letter.
  cp_cases.
Qed.
Next Obligation.
  intros c Hc. unfold UnicodeExcerpt.decomp_cp. cp_cases.
Qed.
Next Obligation.
  intros c Hc.
  unfold UnicodeExcerpt.alnum_cp, ascii_alnum, ascii_upper_letter, ascii_lower_letter, ascii_digit.
  cp_cases.
Qed.
Next Obligation.
  intros c Hc. unfold UnicodeExcerpt.decimal_cp, ascii_digit. cp_cases.
Qed.

(** ** pathlib, POSIX flavour

    A path is its anchor (the root: empty for a relative path, else [/] or
    [//]) and its components. Paths are compared and hashed by these, as
    [PurePosixPath] does. *)

Record Path := mkPath { anchor : str; parts : list str }.

#[global] Instance Path_eq_dec : EqDecision Path.
Proof. solve_decision. Defined.

#[global] Instance Path_countable : Countable Path :=
  inj_countable' (λ p, (anchor p, parts p)) (λ '(a, ps), mkPath a ps)
                 (λ p, match p with mkPath _ _ => eq_refl end).

Section Pathlib.
Context `{!UnicodeData}.

Fixpoint split_on (sep : N) (s : str) : list str :=
  match s with
  | [] => [[]]
  | c :: s' =>
      if c =? sep then [] :: split_on sep s'
      else match split_on sep s' with
           | w :: ws => (c :: w) :: ws
           | [] => [[c]]
           end
  end.

(** Two leading slashes, and only two, are a root of their own. *)
Definition posix_root (s : str) : str :=
  if startswith s "//" && negb (startswith s "///") then lit "//"
  else if startswith s "/" then lit "/"
  else [].

(** Empty components and [.] are dropped when a string is parsed; [..] stays. *)
Definition path_components (s : str) : list str :=
  filter (λ x, x ≠ [] ∧ x ≠ lit ".") (split_on (chr "/") s).

(** [Path(s)] *)
Definition PurePath (s : str) : Path := mkPath (posix_root s) (path_components s).

(** [p / s]: an absolute right operand replaces the left one. *)
Definition joinpath (p : Path) (s : str) : Path :=
  let q := PurePath s in
  match anchor q with
  | [] => mkPath (anchor p) (parts p ++ parts q)
  | _ => q
  end.

Fixpoint join_with (sep : str) (xs : list str) : str :=
  match xs with
  | [] => []
  | [x] => x
  | x :: xs' => x ++ sep ++ join_with sep xs'
  end.

(** [str(p)] *)
Definition path_str (p : Path) : str :=
  match anchor p, parts p with
  | [], [] => lit "."
  | a, ps => a ++ join_with "/" ps
  end.

(** [p.parent] *)
Definition parent (p : Path) : Path := mkPath (anchor p) (removelast (parts p)).

(** [p.name] *)
Definition name (p : Path) : str := List.last (parts p) [].

(** [s.rfind(c)], as an index from the left; [None] for -1. *)
Definition rfind (c : N) (s : str) : option nat :=
  match list_find (N.eqb c) (reverse s) with
  | Some (i, _) => Some (length s - 1 - i)%nat
  | None => None
  end.

(** [p.suffix] and [p.stem]: the last dot of the name splits it unless it
    is the first or the last character. *)
Definition suffix (p : Path) : str :=
  match rfind (chr ".") (name p) with
  | Some i => if ((0 <? i) && (i <? length (name p) - 1))%nat
              then drop i (name p) else []
  | None => []
  end.
Definition stem (p : Path) : str :=
  match rfind (chr ".") (name p) with
  | Some i => if ((0 <? i) && (i <? length (name p) - 1))%nat
              then take i (name p) else name p
  | None => name p
  end.

Fixpoint strip_prefix (pre xs : list str) : option (list str) :=
  match pre, xs with
  | [], _ => Some xs
  | a :: pre', b :: xs' => if decide (a = b) then strip_prefix pre' xs' else None
  | _ :: _, [] => None
  end.

(** [p.relative_to(other)]; [None] stands for the [ValueError] raised when
    [other] is not a prefix of [p] or only one of the two is absolute. *)
Definition relative_to (p other : Path) : option Path :=
  if decide (anchor p = anchor other)
  then match strip_prefix (parts other) (parts p) with
       | Some rest => Some (mkPath [] rest)
       | None => None
       end
  else None.

End Pathlib.

Infix "//" := joinpath (at level 40, left associativity).

(** ** The world outside the program *)

(** A front-matter value: text, a binary value ([bytes], from the YAML tag
    [!!binary]), or any other YAML value (number, boolean, list, mapping,
    date, null); the last two with their truth value and their [str()]. *)
Inductive yaml :=
| YStr (s : str)
| YOther (truthy : bool) (text : str)
| YBytes (truthy : bool) (text : str).

Definition yaml_truthy (v : yaml) : bool :=
  match v with
  | YStr s => negb (bool_decide (s = []))
  | YOther b _ => b
  | YBytes b _ => b
  end.

(** [str(v)] *)
Definition yaml_str (v : yaml) : str :=
  match v with
  | YStr s => s
  | YOther _ t => t
  | YBytes _ t => t
  end.

(** The file system and the front-matter library, as the program observes
    them: [fs_exists] is [Path.exists], [fs_realpath] is [os.path.realpath]
    (the string from which [Path.resolve] builds its result), [fs_walk top]
    lists what [os.walk(top)] yields (each directory as its components below
    [top], with the names of its files), [fs_text] is the decoded text of a
    file and [fs_load] the outcome of opening it and calling
    [frontmatter.load]: the message of the exception raised, or the metadata
    and the content. *)
Record FileSystem := {
  fs_exists : Path → bool;
  fs_realpath : Path → str;
  fs_walk : Path → list (list str * list str);
  fs_text : Path → option str;
  fs_load : Path → str + (gmap str yaml * str)
}.

(** [p.resolve()] *)
Definition fs_resolve (fs : FileSystem) (p : Path) : Path := PurePath (fs_realpath fs p).

(** [os.walk(top)] as pairs [(root, files)]; [Path(root)] is [top] followed
    by the directory's components. *)
Definition os_walk (fs : FileSystem) (top : Path) : list (Path * list str) :=
  map (λ '(rel, files), (mkPath (anchor top) (parts top ++ rel), files))
      (fs_walk fs top).

(** ** Console output and exceptions *)

Inductive exn := ValueError | AttributeError | TypeError.

Inductive result (A : Type) :=
| Ok (a : A)
| Raise (e : exn).
Arguments Ok {A} a.
Arguments Raise {A} e.

(** A computation prints lines and then returns or raises. *)
Definition M (A : Type) : Type := list str * result A.

#[global] Instance M_ret : MRet M := λ A a, ([], Ok a).
#[global] Instance M_bind : MBind M := λ A B f m,
  match m with
  | (out, Ok a) => let '(out', r) := f a in (out ++ out', r)
  | (out, Raise e) => (out, Raise e)
  end.

Definition print (line : str) : M unit := ([line], Ok tt).
Definition raise {A} (e : exn) : M A := ([], Raise e).

(** [for x in xs: body], with the variables the loop updates as [s]. *)
Fixpoint for_each {A S} (xs : list A) (body : S → A → M S) (s : S) : M S :=
  match xs with
  | [] => mret s
  | x :: xs' => s' ← body s x; for_each xs' body s'
  end.

(** Decimal digits of a natural number, and the format [{n:02d}]. *)
Fixpoint uint_digits (u : Decimal.uint) : str :=
  match u with
  | Nil => []
  | D0 u => 48 :: uint_digits u
  | D1 u => 49 :: uint_digits u
  | D2 u => 50 :: uint_digits u
  | D3 u => 51 :: uint_digits u
  | D4 u => 52 :: uint_digits u
  | D5 u => 53 :: uint_digits u
  | D6 u => 54 :: uint_digits u
  | D7 u => 55 :: uint_digits u
  | D8 u => 56 :: uint_digits u
  | D9 u => 57 :: uint_digits u
  end.
Definition str_of_nat (n : nat) : str := uint_digits (Nat.to_uint n).
Definition format_02d (n : nat) : str :=
  let s := str_of_nat n in
  if (length s <? 2)%nat then 48 :: s else s.

(** ** ImageProcessor *)

(** The object state. [image_usage] and [image_references] are dictionaries
    whose insertion order the code iterates over, so they are association
    lists; the others are looked up by key only. *)
Record ImageProcessor := mkImageProcessor {
  input_dir : Path;
  output_dir : Path;
  image_usage : list (Path * list Path);
  file_images : gmap Path (list Path);
  featured_images : gmap Path Path;
  image_references : list (Path * list (Path * str * str))
}.

(** [ImageProcessor(input_dir, output_dir)] *)
Definition new_processor (input_dir output_dir : Path) : ImageProcessor :=
  mkImageProcessor input_dir output_dir [] ∅ ∅ [].

(** [d[k].append(v)] on a [defaultdict(list)]: a new key goes to the end,
    a known key keeps its place. *)
Fixpoint dd_append {K V} `{EqDecision K} (k : K) (v : V) (d : list (K * list V))
  : list (K * list V) :=
  match d with
  | [] => [(k, [v])]
  | (k', vs) :: d' =>
      if decide (k' = k) then (k', vs ++ [v]) :: d'
      else (k', vs) :: dd_append k v d'
  end.

(** [d.values()] *)
Definition dict_values {K V} `{Countable K} (d : gmap K V) : list V :=
  (map_to_list d).*2.

Section Processor.
Context `{!UnicodeData} (fs : FileSystem).

Definition find_markdown_files (self : ImageProcessor) : list Path :=
  flat_map (λ '(root, files),
              map (λ file, root // file)
                  (filter (λ file, endswith file ".md" = true) files))
           (os_walk fs (input_dir self)).

Definition image_extensions : list str :=
  [lit ".jpg"; lit ".jpeg"; lit ".png"; lit ".gif"; lit ".webp"; lit ".svg"; lit ".bmp"].

Definition find_image_files (self : ImageProcessor) : list Path :=
  flat_map (λ '(root, files),
              map (λ file, root // file)
                  (filter (λ file, lower (suffix (PurePath file)) ∈ image_extensions) files))
           (os_walk fs (input_dir self)).

Definition extract_frontmatter_and_content (file_path : Path)
  : M (gmap str yaml * str) :=
  match fs_load fs file_path with
  | inr (metadata, content) => mret (metadata, content)
  | inl e =>
      _ ← print (lit "Warning: Could not parse " ++ path_str file_path ++ lit ": " ++ e);
      mret (∅, [])
  end.

Definition _is_external_url (path : str) : bool :=
  startswith path "http://" || startswith path "https://"
  || startswith path "//" || startswith path "data:".

(** The markdown image syntax: an exclamation mark, the alternative text in
    square brackets (group 1, any characters but a closing bracket, possibly
    none) and the target in parentheses (group 2, one or more characters but
    a closing parenthesis). Group 2 is item 5. *)
Definition md_pattern : list re_item :=
  re_lit "![" ++ [re_star (λ c, negb (c =? chr "]"))] ++ re_lit "]("
  ++ [re_plus (λ c, negb (c =? chr ")"))] ++ re_lit ")".

(** The two quote characters, double and single. *)
Definition quotes : str := [34; 39].

(** The HTML image tag: [<img], one or more characters but [>], [src=], a
    quote, the target (group 1, one or more characters but quotes) and a
    quote. Group 1 is item 10. *)
Definition html_pattern : list re_item :=
  re_lit "<img" ++ [re_plus (λ c, negb (c =? chr ">"))] ++ re_lit "src="
  ++ [re_one (in_chars quotes)] ++ [re_plus (λ c, negb (in_chars quotes c))]
  ++ [re_one (in_chars quotes)].

(** [match.group(i)], by the position of the item the group wraps. *)
Definition group (m : list str) (item : nat) : str := default [] (m !! item).

Definition find_images_in_content (content : str) (file_path : Path)
  : list (str * str) :=
  let images := [] in
  let images :=
    foldl (λ images m,
             let img_path := group m 5 in
             if negb (_is_external_url img_path)
             then images ++ [(img_path, lit "markdown")] else images)
          images (finditer md_pattern content) in
  let images :=
    foldl (λ images m,
             let img_path := group m 10 in
             if negb (_is_external_url img_path)
             then images ++ [(img_path, lit "html")] else images)
          images (finditer html_pattern content) in
  images.

Definition resolve_image_path (self : ImageProcessor) (img_path : str)
    (markdown_file : Path) : option Path :=
  let resolved :=
    if startswith img_path "/" then
      (* Absolute path from content root *)
      input_dir self // lstrip_where (in_chars "/") img_path
    else if startswith img_path "./" || startswith img_path "../" then
      (* Relative to markdown file *)
      fs_resolve fs (parent markdown_file // img_path)
    else
      (* Try relative to markdown file first *)
      let resolved := fs_resolve fs (parent markdown_file // img_path) in
      if negb (fs_exists fs resolved) then
        (* Try relative to input root *)
        input_dir self // img_path
      else resolved in
  if fs_exists fs resolved then Some resolved else None.

(** The featured image of a document: the first of the keys that is present
    with a true value. *)
Definition featured_keys : list str :=
  [lit "featured_image"; lit "image"; lit "cover_image"; lit "hero_image"].

Fixpoint first_featured (frontmatter : gmap str yaml) (keys : list str)
  : option yaml :=
  match keys with
  | [] => None
  | key :: keys' =>
      match frontmatter !! key with
      | Some v => if yaml_truthy v then Some v else first_featured frontmatter keys'
      | None => first_featured frontmatter keys'
      end
  end.

(** The three statements under [if resolved_path:] for a featured image. *)
Definition record_featured (self : ImageProcessor) (md_file resolved_path : Path)
    (featured_img : str) : ImageProcessor :=
  mkImageProcessor (input_dir self) (output_dir self)
    (dd_append resolved_path md_file (image_usage self))
    (file_images self)
    (<[md_file := resolved_path]> (featured_images self))
    (dd_append resolved_path (md_file, lit "featured", featured_img)
               (image_references self)).

(** The three statements under [if resolved_path:] for an image of the body. *)
Definition record_content (self : ImageProcessor) (md_file resolved_path : Path)
    (ref_type img_path : str) : ImageProcessor :=
  mkImageProcessor (input_dir self) (output_dir self)
    (dd_append resolved_path md_file (image_usage self))
    (<[md_file := default [] (file_images self !! md_file) ++ [resolved_path]]>
       (file_images self))
    (featured_images self)
    (dd_append resolved_path (md_file, ref_type, img_path) (image_references self)).

(** The body of the loop over [md_files] in [analyze_image_usage]. A
    featured value that is true but no text has no [startswith]
    ([AttributeError]), except a binary value, whose [startswith] takes no
    text argument ([TypeError]). *)
Definition analyze_markdown_file (self : ImageProcessor) (md_file : Path)
  : M ImageProcessor :=
  '(frontmatter, content) ← extract_frontmatter_and_content md_file;
  (* Check for featured image in frontmatter *)
  self ← match first_featured frontmatter featured_keys with
         | Some (YStr featured_img) =>
             match resolve_image_path self featured_img md_file with
             | Some resolved_path =>
                 mret (record_featured self md_file resolved_path featured_img)
             | None => mret self
             end
         | Some (YOther _ _) => raise AttributeError
         | Some (YBytes _ _) => raise TypeError
         | None => mret self
         end;
  (* Find images in content *)
  let content_images := find_images_in_content content md_file in
  for_each content_images
    (λ self '(img_path, ref_type),
       match resolve_image_path self img_path md_file with
       | Some resolved_path =>
           mret (record_content self md_file resolved_path ref_type img_path)
       | None => mret self
       end)
    self.

Definition analyze_image_usage (self : ImageProcessor) : M ImageProcessor :=
  _ ← print (lit "Analyzing image usage...");
  let md_files := find_markdown_files self in
  self ← for_each md_files analyze_markdown_file self;
  _ ← print (lit "FOUND: " ++ str_of_nat (length (image_usage self))
             ++ lit " images used in " ++ str_of_nat (length md_files)
             ++ lit " markdown files");
  mret self.

(** A date prefix such as [2023-01-01-]: four digits, two digits and two
    digits, each followed by a hyphen. *)
Definition date_prefix : list re_item :=
  [re_times 4 re_d; re_char (chr "-"); re_times 2 re_d; re_char (chr "-");
   re_times 2 re_d; re_char (chr "-")].

Definition _extract_slug_from_file (md_file : Path) : M str :=
  (* Try frontmatter first *)
  '(frontmatter, _) ← extract_frontmatter_and_content md_file;
  match frontmatter !! lit "slug" with
  | Some v => mret (_slugify (yaml_str v))
  | None =>
      match frontmatter !! lit "title" with
      | Some v => mret (_slugify (yaml_str v))
      | None =>
          (* Fall back to filename *)
          let filename := stem md_file in
          let filename := re_sub_at_start date_prefix "" filename in
          mret (_slugify filename)
      end
  end.

Definition generate_seo_filename (original_path : Path) (usage_context : list Path)
    (is_featured : bool) (sequence : nat) : M str :=
  let ext := lower (suffix original_path) in
  match usage_context with
  | [md_file] =>
      (* If used in only one file, base name on that file *)
      slug ← _extract_slug_from_file md_file;
      if is_featured then mret (slug ++ lit "-feature" ++ ext)
      else if (0 <? sequence)%nat then mret (slug ++ lit "-" ++ format_02d sequence ++ ext)
      else mret (slug ++ ext)
  | _ =>
      (* If used in multiple files, keep original or use generic name *)
      let original_stem := stem original_path in
      let clean_name := _slugify original_stem in
      mret (clean_name ++ ext)
  end.

(** The statement [if len(usage_files) == 1 and not is_featured: ... else:
    sequence = 0] of [create_rename_dictionary]: the sequence number and the
    counters after it. *)
Definition next_sequence (image_counters : gmap Path nat) (usage_files : list Path)
    (is_featured : bool) : nat * gmap Path nat :=
  match usage_files, is_featured with
  | [md_file], false =>
      let image_counters :=
        <[md_file := S (default 0%nat (image_counters !! md_file))]> image_counters in
      let count := default 0%nat (image_counters !! md_file) in
      (if (1 <? count)%nat then count else 0%nat, image_counters)
  | _, _ => (0%nat, image_counters)
  end.

(** The body of the loop in [create_rename_dictionary]; the loop updates
    [rename_dict] and [image_counters]. *)
Definition rename_step (self : ImageProcessor)
    (acc : gmap str str * gmap Path nat) (item : Path * list Path)
  : M (gmap str str * gmap Path nat) :=
  let '(rename_dict, image_counters) := acc in
  let '(img_path, usage_files) := item in
  (* Check if this is a featured image *)
  let is_featured := bool_decide (img_path ∈ dict_values (featured_images self)) in
  (* Count how many images this file already has for sequencing *)
  let '(sequence, image_counters) :=
    next_sequence image_counters usage_files is_featured in
  (* Generate new filename *)
  new_filename ← generate_seo_filename img_path usage_files is_featured sequence;
  (* Store relative path from input directory *)
  match relative_to img_path (input_dir self) with
  | Some relative_original =>
      mret (<[path_str relative_original := new_filename]> rename_dict, image_counters)
  | None => raise ValueError
  end.

Definition create_rename_dictionary (self : ImageProcessor) : M (gmap str str) :=
  _ ← print (lit "Creating rename dictionary...");
  '(rename_dict, _) ← for_each (image_usage self) (rename_step self) (∅, ∅);
  mret rename_dict.

(** The set of all image files is iterated in an order Python does not
    fix; here it is the order of discovery. *)
Definition find_orphaned_images (self : ImageProcessor) : M (list str) :=
  let all_images := remove_dups (find_image_files self) in
  let used_images := (image_usage self).*1 in
  for_each all_images
    (λ orphaned img,
       if bool_decide (img ∈ used_images) then mret orphaned
       else match relative_to img (input_dir self) with
            | Some relative_path => mret (orphaned ++ [path_str relative_path])
            | None => raise ValueError
            end)
    [].

Record UsageEntry := mkUsageEntry {
  usage_count : nat;
  used_in : list str;
  is_featured_entry : bool
}.

Record UsageReport := mkUsageReport {
  total_images : nat;
  total_markdown_files : nat;
  featured_images_count : nat;
  usage_breakdown : gmap str UsageEntry;
  multi_use_images : list str;
  single_use_images : list str
}.

(** [[str(f.relative_to(self.input_dir)) for f in usage_files]] *)
Fixpoint relative_strs (root : Path) (files : list Path) : M (list str) :=
  match files with
  | [] => mret []
  | f :: files' =>
      match relative_to f root with
      | Some r => rs ← relative_strs root files'; mret (path_str r :: rs)
      | None => raise ValueError
      end
  end.

Definition report_step (self : ImageProcessor) (report : UsageReport)
    (item : Path * list Path) : M UsageReport :=
  let '(img_path, usage_files) := item in
  match relative_to img_path (input_dir self) with
  | None => raise ValueError
  | Some r =>
      let relative_path := path_str r in
      let usage_count := length usage_files in
      used ← relative_strs (input_dir self) usage_files;
      let entry := mkUsageEntry usage_count used
                     (bool_decide (img_path ∈ dict_values (featured_images self))) in
      let breakdown := <[relative_path := entry]> (usage_breakdown report) in
      if (1 <? usage_count)%nat then
        mret (mkUsageReport (total_images report) (total_markdown_files report)
                (featured_images_count report) breakdown
                (multi_use_images report ++ [relative_path]) (single_use_images report))
      else
        mret (mkUsageReport (total_images report) (total_markdown_files report)
                (featured_images_count report) breakdown
                (multi_use_images report) (single_use_images report ++ [relative_path]))
  end.

Definition create_usage_report (self : ImageProcessor) : M UsageReport :=
  let report :=
    mkUsageReport (length (image_usage self))
      (length (remove_dups (concat (image_usage self).*2)))
      (size (featured_images self)) ∅ [] [] in
  for_each (image_usage self) (report_step self) report.

(** [process], up to the three outputs; writing them to [output_dir] as
    JSON changes nothing the methods above read. *)
Definition process (self : ImageProcessor)
  : M (ImageProcessor * (gmap str str * UsageReport * list str)) :=
  _ ← print (lit "Starting image processing...");
  self ← analyze_image_usage self;
  rename_dict ← create_rename_dictionary self;
  orphaned_images ← find_orphaned_images self;
  usage_report ← create_usage_report self;
  _ ← for_each [lit "image_rename_dict.json"; lit "image_usage_report.json";
                lit "orphaned_images.json"]
        (λ _ filename, print (lit "SAVED: " ++ path_str (output_dir self // filename)))
        tt;
  _ ← print (10 :: lit "Summary:");
  _ ← print (lit "   Images to rename: " ++ str_of_nat (size rename_dict));
  _ ← print (lit "   Orphaned images: " ++ str_of_nat (length orphaned_images));
  _ ← print (lit "   Multi-use images: " ++ str_of_nat (length (multi_use_images usage_report)));
  _ ← print (lit "   Single-use images: " ++ str_of_nat (length (single_use_images usage_report)));
  mret (self, (rename_dict, usage_report, orphaned_images)).

End Processor.

(** ** A reference file system

    A directory tree without symbolic links, for running the program on
    concrete inputs. A markdown file carries its text and what
    [frontmatter.load] makes of it; any other file carries nothing. *)

Record document := mkDocument {
  doc_text : str;
  doc_load : str + (gmap str yaml * str)
}.

#[warnings="-register-all"]
Inductive fstree :=
| Dir (files : list (str * option document)) (dirs : list (str * fstree)).

Record RefFS := mkRefFS {
  ref_cwd : list str;
  ref_root : fstree
}.

Module Ref.

Fixpoint assoc {V} (k : str) (l : list (str * V)) : option V :=
  match l with
  | [] => None
  | (k', v) :: l' => if decide (k' = k) then Some v else assoc k l'
  end.

Fixpoint tree_dir (t : fstree) (ps : list str) : option fstree :=
  match ps with
  | [] => Some t
  | p :: ps' =>
      match t with
      | Dir _ dirs =>
          match assoc p dirs with
          | Some t' => tree_dir t' ps'
          | None => None
          end
      end
  end.

Definition tree_file (t : fstree) (ps : list str) : option (option document) :=
  match ps with
  | [] => None
  | _ =>
      match tree_dir t (removelast ps) with
      | Some (Dir files _) => assoc (List.last ps []) files
      | None => None
      end
  end.

(** Top-down, the files of a directory before its subdirectories. *)
Fixpoint tree_walk (t : fstree) : list (list str * list str) :=
  match t with
  | Dir files dirs =>
      ([], files.*1)
      :: flat_map (λ '(d, t'), map (λ '(rel, names), (d :: rel, names)) (tree_walk t'))
                  dirs
  end.

(** Components are followed from [cur]; [..] steps to the parent. *)
Definition normalize (cur ps : list str) : list str :=
  foldl (λ cur p, if decide (p = lit "..") then removelast cur else cur ++ [p]) cur ps.

Definition start (w : RefFS) (p : Path) : list str :=
  match anchor p with
  | [] => ref_cwd w
  | _ => []
  end.

Definition absolute (w : RefFS) (p : Path) : list str :=
  normalize (start w p) (parts p).

(** The kernel's lookup of a path: every component but the last must be
    followed from an existing directory. *)
Fixpoint follow (t : fstree) (cur ps : list str) : bool :=
  match ps with
  | [] => true
  | p :: ps' =>
      if decide (p = lit "..") then follow t (removelast cur) ps'
      else
        let next := cur ++ [p] in
        if bool_decide (is_Some (tree_dir t next)) then follow t next ps'
        else bool_decide (is_Some (tree_file t next)) && bool_decide (ps' = [])
  end.

Definition exists_ (w : RefFS) (p : Path) : bool :=
  bool_decide (is_Some (tree_dir (ref_root w) (start w p)))
  && follow (ref_root w) (start w p) (parts p).

Definition realpath (w : RefFS) (p : Path) : str :=
  path_str (mkPath (lit "/") (absolute w p)).

Definition walk (w : RefFS) (top : Path) : list (list str * list str) :=
  match tree_dir (ref_root w) (absolute w top) with
  | Some t => tree_walk t
  | None => []
  end.

Definition text (w : RefFS) (p : Path) : option str :=
  match tree_file (ref_root w) (absolute w p) with
  | Some (Some d) => Some (doc_text d)
  | _ => None
  end.

Definition load (w : RefFS) (p : Path) : str + (gmap str yaml * str) :=
  match tree_file (ref_root w) (absolute w p) with
  | Some (Some d) => doc_load d
  | _ => inl (lit "cannot read")
  end.

End Ref.

Definition ref_fs (w : RefFS) : FileSystem :=
  {| fs_exists := Ref.exists_ w;
     fs_realpath := Ref.realpath w;
     fs_walk := Ref.walk w;
     fs_text := Ref.text w;
     fs_load := Ref.load w |}.

(** ** The slug rules, as the specification words them

    [squeeze p r s] replaces every maximal run of characters of the class
    [p] in [s] by [r]. [slug_finish keep] is steps 3 to 6: delete what is not
    kept, turn runs of white space or underscores into one hyphen, collapse
    hyphens, strip them at both ends, and fall back to [untitled]. *)

Fixpoint squeeze_from (in_run : bool) (p : N → bool) (r s : str) : str :=
  match s with
  | [] => []
  | c :: s' =>
      if p c then (if in_run then [] else r) ++ squeeze_from true p r s'
      else c :: squeeze_from false p r s'
  end.
Definition squeeze : (N → bool) → str → str → str := squeeze_from false.

Definition slug_finish (keep : N → bool) (s : str) : str :=
  let s := filter (λ c, keep c = true) s in
  let s := squeeze (λ c, isspace c || (c =? chr "_")) (lit "-") s in
  let s := squeeze (N.eqb (chr "-")) (lit "-") s in
  let s := strip_where (in_chars (lit "-")) s in
  if bool_decide (s = []) then lit "untitled" else s.

Definition slug_steps `{!UnicodeData} (keep : N → bool) (text : str) : str :=
  slug_finish keep (encode_ascii_ignore (normalize_NFKD (strip (lower text)))).

(** Step 3 as written: what is not alphanumeric, white space or a hyphen is
    deleted. *)
Definition slugify_spec `{!UnicodeData} : str → str :=
  slug_steps (λ c, ascii_alnum c || isspace c || (c =? chr "-")).

(** Step 3 with the underscore kept for step 4. *)
Definition slug_keep (c : N) : bool :=
  ascii_alnum c || (c =? chr "_") || isspace c || (c =? chr "-").
Definition slugify_steps `{!UnicodeData} : str → str := slug_steps slug_keep.

(** Text of Basic Latin only. *)
Definition ascii_text (s : str) : Prop := Forall (λ c, c < 128) s.

(** ** The path resolver, as the specification words it

    The candidates of a reference, in the order they are tried; the result is
    the first one that exists. *)



(** What a computation printed and how it ended. *)
Definition output {A} (m : M A) : list str := m.1.
Definition outcome {A} (m : M A) : result A := m.2.

(** ** Concrete input trees *)

Definition image_file (name : string) : str * option document := (lit name, None).

(** A markdown file without front matter: the content is the text. *)
Definition plain_markdown (name body : string) : str * option document :=
  (lit name, Some (mkDocument (lit body) (inr (∅, lit body)))).

(** A markdown file whose front matter is the given mapping. *)
Definition markdown (name text : string) (meta : list (string * string))
    (content : string) : str * option document :=
  (lit name,
   Some (mkDocument (lit text)
           (inr (list_to_map (map (λ '(k, v), (lit k, YStr (lit v))) meta),
                 lit content)))).

(** A markdown file on which [frontmatter.load] raises. *)
Definition broken_markdown (name text error : string) : str * option document :=
  (lit name, Some (mkDocument (lit text) (inl (lit error)))).

(** One document that shows the same picture twice. *)
Definition twice_site : RefFS :=
  mkRefFS [lit "site"]
    (Dir [] [(lit "site",
       Dir [plain_markdown "post.md" "![a](./IMG_001.PNG) and again ![b](./IMG_001.PNG)";
            image_file "IMG_001.PNG"] [])]).
Definition twice_processor : ImageProcessor :=
  new_processor (PurePath "/site") (PurePath "/out").

(** Two documents with the same file name in two directories, each with one
    picture of its own. *)
Definition twin_site : RefFS :=
  mkRefFS [lit "site"]
    (Dir [] [(lit "site",
       Dir [] [(lit "a", Dir [plain_markdown "post.md" "![x](./x.png)"; image_file "x.png"] []);
               (lit "b", Dir [plain_markdown "post.md" "![x](./x.png)"; image_file "x.png"] [])])]).
Definition twin_processor : ImageProcessor :=
  new_processor (PurePath "/site") (PurePath "/out").

(** A document whose front matter is not valid YAML (an unclosed list); its
    text refers to a picture that exists. *)
Definition broken_text : string :=
  "---" ++ String "010" "title: [unclosed" ++ String "010" "---"
  ++ String "010" "![x](./a.png)".
Definition broken_site : RefFS :=
  mkRefFS [lit "site"]
    (Dir [] [(lit "site",
       Dir [broken_markdown "post.md" broken_text
              "while parsing a flow sequence";
            image_file "a.png"] [])]).
Definition broken_post : Path := PurePath "/site/post.md".
Definition broken_processor : ImageProcessor :=
  new_processor (PurePath "/site") (PurePath "/out").

(** The input directory given as a relative path (the default of the command
    line is [input]), the program started in [/home/user]. *)
Definition relative_site : RefFS :=
  mkRefFS [lit "home"; lit "user"]
    (Dir [] [(lit "home", Dir [] [(lit "user", Dir [] [(lit "input",
       Dir [plain_markdown "post.md" "![x](./a.png)"; image_file "a.png"] [])])])]).
Definition relative_processor : ImageProcessor :=
  new_processor (PurePath "input") (PurePath "output").

(** A reference that leaves the input directory. *)
Definition escaping_site : RefFS :=
  mkRefFS [lit "site"]
    (Dir [] [(lit "site",
       Dir [] [(lit "content", Dir [plain_markdown "post.md" "![logo](../shared/logo.png)"] []);
               (lit "shared", Dir [image_file "logo.png"] [])])]).
Definition escaping_processor : ImageProcessor :=
  new_processor (PurePath "/site/content") (PurePath "/out").

(** ** Well-formed paths and processor states

    A component of a parsed path is not empty, is not [.] and holds no
    slash; every path that [PurePath] or [//] builds is of this form. The
    keys of a dictionary are distinct. *)

Definition wf_component (c : str) : Prop :=
  c ≠ [] ∧ c ≠ lit "." ∧ chr "/" ∉ c.
Definition wf_path (p : Path) : Prop := Forall wf_component (parts p).

Definition usage_keys (self : ImageProcessor) : list Path := (image_usage self).*1.

Definition processor_wf (self : ImageProcessor) : Prop :=
  wf_path (input_dir self)
  ∧ NoDup (usage_keys self)
  ∧ Forall wf_path (usage_keys self).

(** The key of an image in the rename map. *)
Definition rename_key (self : ImageProcessor) (img : Path) : option str :=
  path_str <$> relative_to img (input_dir self).

(** Whether an image is a featured one. *)
Definition is_featured (self : ImageProcessor) (img : Path) : bool :=
  bool_decide (img ∈ dict_values (featured_images self)).

(** What the methods return when they return. *)
Definition frontmatter_of (fs : FileSystem) (p : Path) : gmap str yaml * str :=
  match fs_load fs p with
  | inr r => r
  | inl _ => (∅, [])
  end.
Definition load_warnings (fs : FileSystem) (p : Path) : list str :=
  match fs_load fs p with
  | inr _ => []
  | inl e => [lit "Warning: Could not parse " ++ path_str p ++ lit ": " ++ e]
  end.
Definition slug_of `{!UnicodeData} (fs : FileSystem) (md_file : Path) : str :=
  match outcome (_extract_slug_from_file fs md_file) with
  | Ok slug => slug
  | Raise _ => []
  end.
Definition seo_filename `{!UnicodeData} (fs : FileSystem) (img : Path)
    (usage : list Path) (featured : bool) (sequence : nat) : str :=
  match outcome (generate_seo_filename fs img usage featured sequence) with
  | Ok name => name
  | Raise _ => []
  end.

(** The single-use, not featured images of a document among some entries of
    the usage index. *)
Definition inline_images_of (self : ImageProcessor) (d : Path)
    (items : list (Path * list Path)) : list (Path * list Path) :=
  filter (λ it, it.2 = [d] ∧ is_featured self it.1 = false) items.

(** The sequence number of an entry that comes after the entries [before]. *)
Definition sequence_of (self : ImageProcessor) (before : list (Path * list Path))
    (img : Path) (usage : list Path) : nat :=
  match usage, is_featured self img with
  | [d], false =>
      let n := S (length (inline_images_of self d before)) in
      if (1 <? n)%nat then n else 0%nat
  | _, _ => 0%nat
  end.

(** The loop of [create_rename_dictionary] without its console output. *)
Fixpoint rename_plan `{!UnicodeData} (fs : FileSystem) (self : ImageProcessor)
    (items : list (Path * list Path)) (acc : gmap str str * gmap Path nat)
  : option (gmap str str * gmap Path nat) :=
  match items with
  | [] => Some acc
  | (img, usage) :: items' =>
      let '(sequence, counters) := next_sequence acc.2 usage (is_featured self img) in
      match rename_key self img with
      | Some k =>
          rename_plan fs self items'
            (<[k := seo_filename fs img usage (is_featured self img) sequence]> acc.1,
             counters)
      | None => None
      end
  end.

(** ** File names *)

Definition digits_only (s : str) : Prop := Forall (λ c, ascii_digit c = true) s.

(** An extension is empty or starts with a dot. *)
Definition dotted (e : str) : Prop := e = [] ∨ ∃ t, e = chr "." :: t.

(** The part of a single-use name between the slug and the extension. *)
Definition name_infix (featured : bool) (sequence : nat) : str :=
  if featured then lit "-feature"
  else if (0 <? sequence)%nat then lit "-" ++ format_02d sequence else [].

(** The suffix of the [n]-th single-use inline image of a document. *)
Definition sequence_suffix (n : nat) : str :=
  if (n =? 1)%nat then [] else lit "-" ++ format_02d n.

#[global] Instance wf_component_dec c : Decision (wf_component c).
Proof. unfold wf_component. apply _. Defined.
#[global] Instance wf_path_dec p : Decision (wf_path p).
Proof. unfold wf_path. apply _. Defined.
#[global] Instance processor_wf_dec self : Decision (processor_wf self).
Proof. unfold processor_wf. apply _. Defined.

(** A document with three pictures of its own: two in markdown syntax and,
    between them in the text, one in an HTML tag. *)
Definition gallery_site : RefFS :=
  mkRefFS [lit "site"]
    (Dir [] [(lit "site",
       Dir [plain_markdown "gallery.md"
              "![a](./one.png) <img src='./two.jpg'> ![c](./three.gif)";
            image_file "one.png"; image_file "two.jpg"; image_file "three.gif"] [])]).
Definition gallery_processor : ImageProcessor :=
  new_processor (PurePath "/site") (PurePath "/out").
Definition gallery_md : Path := PurePath "/site/gallery.md".

(** The state after the analysis of [gallery_site]. *)
Definition gallery_state : ImageProcessor :=
  mkImageProcessor (PurePath "/site") (PurePath "/out")
    [(PurePath "/site/one.png", [gallery_md]);
     (PurePath "/site/three.gif", [gallery_md]);
     (PurePath "/site/two.jpg", [gallery_md])]
    {[ gallery_md := [PurePath "/site/one.png"; PurePath "/site/three.gif";
                      PurePath "/site/two.jpg"] ]}
    ∅
    [(PurePath "/site/one.png", [(gallery_md, lit "markdown", lit "./one.png")]);
     (PurePath "/site/three.gif", [(gallery_md, lit "markdown", lit "./three.gif")]);
     (PurePath "/site/two.jpg", [(gallery_md, lit "html", lit "./two.jpg")])].

(** What [os.walk] lists below [top]: directories by well-formed
    components, and file names that are no absolute paths. *)
Definition walk_ok (fs : FileSystem) (top : Path) : Prop :=
  Forall (λ e, Forall wf_component e.1
               ∧ Forall (λ f, startswith f (lit "/") = false) e.2)
         (fs_walk fs top).

#[global] Instance walk_ok_dec fs top : Decision (walk_ok fs top).
Proof. unfold walk_ok. apply _. Defined.

(** The relative path of an image that no document uses. *)
Definition orphan_key (self : ImageProcessor) (img : Path) : option str :=
  if bool_decide (img ∈ usage_keys self) then None else rename_key self img.

(** One used and one unused picture. *)
Definition stray_site : RefFS :=
  mkRefFS [lit "site"]
    (Dir [] [(lit "site",
       Dir [plain_markdown "post.md" "![x](./used.png)";
            image_file "used.png"; image_file "stray.png"] [])]).
Definition stray_state : ImageProcessor :=
  mkImageProcessor (PurePath "/site") (PurePath "/out")
    [(PurePath "/site/used.png", [PurePath "/site/post.md"])]
    {[ PurePath "/site/post.md" := [PurePath "/site/used.png"] ]}
    ∅
    [(PurePath "/site/used.png", [(PurePath "/site/post.md", lit "markdown", lit "./used.png")])].

(** ** The scan as a sequence of recorded references

    A recorded reference is the resolved image together with the document,
    the kind of reference and the target as written. The references of a
    document are its featured image, then the markdown references of its
    body, then the HTML references, each as far as it resolves. *)

Definition markdown_references (content : str) : list (str * str) :=
  map (λ m, (group m 5, lit "markdown"))
      (filter (λ m, _is_external_url (group m 5) = false) (finditer md_pattern content)).

Definition html_references (content : str) : list (str * str) :=
  map (λ m, (group m 10, lit "html"))
      (filter (λ m, _is_external_url (group m 10) = false) (finditer html_pattern content)).

Definition resolved_references (fs : FileSystem) (self : ImageProcessor) (d : Path)
    (refs : list (str * str)) : list (Path * (Path * str * str)) :=
  flat_map (λ ref, match resolve_image_path fs self ref.1 d with
                   | Some resolved => [(resolved, (d, ref.2, ref.1))]
                   | None => []
                   end) refs.

Definition featured_reference (fs : FileSystem) (self : ImageProcessor) (d : Path)
  : list (Path * (Path * str * str)) :=
  match first_featured (frontmatter_of fs d).1 featured_keys with
  | Some (YStr featured_img) =>
      match resolve_image_path fs self featured_img d with
      | Some resolved => [(resolved, (d, lit "featured", featured_img))]
      | None => []
      end
  | _ => []
  end.

Definition document_references (fs : FileSystem) (self : ImageProcessor) (d : Path)
  : list (Path * (Path * str * str)) :=
  featured_reference fs self d
  ++ resolved_references fs self d (markdown_references (frontmatter_of fs d).2)
  ++ resolved_references fs self d (html_references (frontmatter_of fs d).2).

(** Recording a sequence of values under their keys, one after the other. *)
Definition record_all {K V} `{EqDecision K} (events : list (K * V))
    (index : list (K * list V)) : list (K * list V) :=
  foldl (λ index e, dd_append e.1 e.2 index) index events.

(** The document and the kind of a recorded reference. *)
Definition ref_document (e : Path * (Path * str * str)) : Path := e.2.1.1.
Definition ref_kind (e : Path * (Path * str * str)) : str := e.2.1.2.

(** What recording a sequence of references does to the state. *)
Definition recorded (self self' : ImageProcessor)
    (events : list (Path * (Path * str * str))) : Prop :=
  input_dir self' = input_dir self
  ∧ image_references self' = record_all events (image_references self)
  ∧ image_usage self'
    = record_all (map (λ e, (e.1, ref_document e)) events) (image_usage self).

(** ** The shape of a slug *)

Definition is_hyphen (c : N) : bool := chr "-" =? c.

(** A character of a slug: alphanumeric or a hyphen. *)
Definition slug_char (c : N) : bool := ascii_alnum c || is_hyphen c.

(** No two neighbours of [s] are both in the class [p]. *)
Fixpoint no_adjacent (p : N → bool) (s : str) : Prop :=
  match s with
  | a :: s' =>
      match s' with
      | b :: _ => ¬ (p a = true ∧ p b = true)
      | [] => True
      end ∧ no_adjacent p s'
  | [] => True
  end.

(** Neither end of [s] is in the class [p]. *)
Definition ends_outside (p : N → bool) (s : str) : Prop :=
  (∀ c, head s = Some c → p c = false) ∧ (∀ c, last s = Some c → p c = false).

(** A slug: not empty, made of slug characters, hyphens neither doubled nor
    at an end. *)
Definition slug_shaped (s : str) : Prop :=
  s ≠ [] ∧ Forall (λ c, slug_char c = true) s
  ∧ no_adjacent is_hyphen s ∧ ends_outside is_hyphen s.

(** A rooted reference that passes through [..]. *)
Definition dotdot_site : RefFS :=
  mkRefFS [lit "site"]
    (Dir [] [(lit "site",
       Dir [plain_markdown "post.md" "![x](/img/../img/a.png)"]
           [(lit "img", Dir [image_file "a.png"] [])])]).
Definition dotdot_processor : ImageProcessor :=
  new_processor (PurePath "/site") (PurePath "/out").

(** ** Front matter that the scan cannot use *)

(** The exception that the featured image of a document raises: none for
    text or no featured image, [TypeError] for a true binary value,
    [AttributeError] for any other true value (a number, a list, a mapping,
    a date). *)
Definition featured_failure (fs : FileSystem) (d : Path) : option exn :=
  match first_featured (frontmatter_of fs d).1 featured_keys with
  | Some (YOther _ _) => Some AttributeError
  | Some (YBytes _ _) => Some TypeError
  | _ => None
  end.

(** The exception of the first document, in the given order, whose featured
    image raises one. *)
Fixpoint first_failure (fs : FileSystem) (docs : list Path) : option exn :=
  match docs with
  | [] => None
  | d :: docs' =>
      match featured_failure fs d with
      | Some e => Some e
      | None => first_failure fs docs'
      end
  end.

(** ** More input trees *)

(** A document whose front matter names its cover picture. *)
Definition cover_site : RefFS :=
  mkRefFS [lit "site"]
    (Dir [] [(lit "site",
       Dir [markdown "post.md" "" [("title", "Hello World"); ("image", "./cover.JPG")] "text";
            image_file "cover.JPG"] [])]).
Definition cover_md : Path := PurePath "/site/post.md".
Definition cover_state : ImageProcessor :=
  mkImageProcessor (PurePath "/site") (PurePath "/out")
    [(PurePath "/site/cover.JPG", [cover_md])]
    ∅
    {[ cover_md := PurePath "/site/cover.JPG" ]}
    [(PurePath "/site/cover.JPG", [(cover_md, lit "featured", lit "./cover.JPG")])].

(** A picture that two documents show. *)
Definition shared_site : RefFS :=
  mkRefFS [lit "site"]
    (Dir [plain_markdown "a.md" "![logo](/img/Our_Logo.PNG)";
          plain_markdown "b.md" "<img src='/img/Our_Logo.PNG'>"]
         [(lit "img", Dir [image_file "Our_Logo.PNG"] [])]).
Definition shared_state : ImageProcessor :=
  mkImageProcessor (PurePath "/") (PurePath "/out")
    [(PurePath "/img/Our_Logo.PNG", [PurePath "/a.md"; PurePath "/b.md"])]
    {[ PurePath "/a.md" := [PurePath "/img/Our_Logo.PNG"];
       PurePath "/b.md" := [PurePath "/img/Our_Logo.PNG"] ]}
    ∅
    [(PurePath "/img/Our_Logo.PNG",
      [(PurePath "/a.md", lit "markdown", lit "/img/Our_Logo.PNG");
       (PurePath "/b.md", lit "html", lit "/img/Our_Logo.PNG")])].

(** A document named by its date, without front matter. *)
Definition dated_site : RefFS :=
  mkRefFS [lit "site"]
    (Dir [] [(lit "site", Dir [plain_markdown "2023-01-15-My_Trip.md" "text"] [])]).
Definition dated_md : Path := PurePath "/site/2023-01-15-My_Trip.md".

(** ** The usage report *)

(** An entry of the usage index whose image and users all lie below the
    input directory. *)
Definition entry_below (self : ImageProcessor) (item : Path * list Path) : Prop :=
  is_Some (relative_to item.1 (input_dir self))
  ∧ Forall (λ f, is_Some (relative_to f (input_dir self))) item.2.

#[global] Instance entry_below_dec self item : Decision (entry_below self item).
Proof. unfold entry_below. apply _. Defined.

(** The keys of the images with more than one entry in their usage list,
    and of the others, in the order of the usage index. *)
Definition multi_use_keys (self : ImageProcessor) (items : list (Path * list Path))
  : list str :=
  omap (λ it, if (1 <? length it.2)%nat then rename_key self it.1 else None) items.
Definition single_use_keys (self : ImageProcessor) (items : list (Path * list Path))
  : list str :=
  omap (λ it, if (1 <? length it.2)%nat then None else rename_key self it.1) items.

(** ** Featured images and the usage index *)

(** Every featured image is in the usage index, used by the document that
    features it. *)
Definition featured_used (self : ImageProcessor) : Prop :=
  ∀ d img, featured_images self !! d = Some img →
           ∃ usage, (img, usage) ∈ image_usage self ∧ d ∈ usage.

(** ** Documents that show a picture more than once *)

(** One document shows [a.png] twice and then [b.png]. *)
Definition repeat_site : RefFS :=
  mkRefFS [lit "site"]
    (Dir [] [(lit "site",
       Dir [plain_markdown "post.md" "![a](./a.png) ![again](./a.png) ![b](./b.png)";
            image_file "a.png"; image_file "b.png"] [])]).
Definition repeat_processor : ImageProcessor :=
  new_processor (PurePath "/site") (PurePath "/out").
Definition repeat_md : Path := PurePath "/site/post.md".

(** One document shows [h.png] in an HTML tag and then, twice, [m.png] in
    markdown syntax. *)
Definition mixed_site : RefFS :=
  mkRefFS [lit "site"]
    (Dir [] [(lit "site",
       Dir [plain_markdown "post.md"
              "<img src='./h.png'> ![m](./m.png) ![again](./m.png)";
            image_file "h.png"; image_file "m.png"] [])]).
Definition mixed_processor : ImageProcessor :=
  new_processor (PurePath "/site") (PurePath "/out").
Definition mixed_md : Path := PurePath "/site/post.md".

(** One document shows two pictures of the same name, each of them twice. *)
Definition pair_site : RefFS :=
  mkRefFS [lit "site"]
    (Dir [] [(lit "site",
       Dir [plain_markdown "post.md"
              "![1](./a/pic.png) ![1](./a/pic.png) ![2](./b/pic.png) ![2](./b/pic.png)"]
           [(lit "a", Dir [image_file "pic.png"] []);
            (lit "b", Dir [image_file "pic.png"] [])])]).
Definition pair_processor : ImageProcessor :=
  new_processor (PurePath "/site") (PurePath "/out").

(** The states after the analysis of these trees. *)
Definition repeat_state : ImageProcessor :=
  mkImageProcessor (PurePath "/site") (PurePath "/out")
    [(PurePath "/site/a.png", [repeat_md; repeat_md]);
     (PurePath "/site/b.png", [repeat_md])]
    {[ repeat_md := [PurePath "/site/a.png"; PurePath "/site/a.png";
                     PurePath "/site/b.png"] ]}
    ∅
    [(PurePath "/site/a.png",
      [(repeat_md, lit "markdown", lit "./a.png");
       (repeat_md, lit "markdown", lit "./a.png")]);
     (PurePath "/site/b.png", [(repeat_md, lit "markdown", lit "./b.png")])].

Definition mixed_state : ImageProcessor :=
  mkImageProcessor (PurePath "/site") (PurePath "/out")
    [(PurePath "/site/m.png", [mixed_md; mixed_md]);
     (PurePath "/site/h.png", [mixed_md])]
    {[ mixed_md := [PurePath "/site/m.png"; PurePath "/site/m.png";
                    PurePath "/site/h.png"] ]}
    ∅
    [(PurePath "/site/m.png",
      [(mixed_md, lit "markdown", lit "./m.png");
       (mixed_md, lit "markdown", lit "./m.png")]);
     (PurePath "/site/h.png", [(mixed_md, lit "html", lit "./h.png")])].

Definition dotdot_state : ImageProcessor :=
  mkImageProcessor (PurePath "/site") (PurePath "/out")
    [(PurePath "/site/img/../img/a.png", [PurePath "/site/post.md"])]
    {[ PurePath "/site/post.md" := [PurePath "/site/img/../img/a.png"] ]}
    ∅
    [(PurePath "/site/img/../img/a.png",
      [(PurePath "/site/post.md", lit "markdown", lit "/img/../img/a.png")])].

Definition pair_state : ImageProcessor :=
  mkImageProcessor (PurePath "/site") (PurePath "/out")
    [(PurePath "/site/a/pic.png", [PurePath "/site/post.md"; PurePath "/site/post.md"]);
     (PurePath "/site/b/pic.png", [PurePath "/site/post.md"; PurePath "/site/post.md"])]
    {[ PurePath "/site/post.md"
       := [PurePath "/site/a/pic.png"; PurePath "/site/a/pic.png";
           PurePath "/site/b/pic.png"; PurePath "/site/b/pic.png"] ]}
    ∅
    [(PurePath "/site/a/pic.png",
      [(PurePath "/site/post.md", lit "markdown", lit "./a/pic.png");
       (PurePath "/site/post.md", lit "markdown", lit "./a/pic.png")]);
     (PurePath "/site/b/pic.png",
      [(PurePath "/site/post.md", lit "markdown", lit "./b/pic.png");
       (PurePath "/site/post.md", lit "markdown", lit "./b/pic.png")])].

(** * Properties *)

(** ** Regular expressions with one item *)

Section RegexFacts.
Context `{!UnicodeData}.

Lemma first_down_hit {A} (f : nat → option A) lo k r :
  (lo ≤ k)%nat → f k = Some r → first_down f lo k = Some r.
Proof.
  intros Hle Hf. destruct k; simpl.
  - destruct lo; [|lia]. simpl. by rewrite Hf.
  - destruct (Nat.ltb_spec (S k) lo); [lia|]. by rewrite Hf.
Qed.

Lemma first_down_below {A} (f : nat → option A) lo k :
  (k < lo)%nat → first_down f lo k = None.
Proof.
  intros Hlt. assert ((k <? lo)%nat = true) as E by (apply Nat.ltb_lt; lia).
  destruct k; simpl; by rewrite E.
Qed.

Lemma match_here_one p s :
  match_here [re_one p] s =
  match s with
  | c :: s' => if p c then Some ([[c]], s') else None
  | [] => None
  end.
Proof.
  destruct s as [|c s']; [done|]. simpl. destruct (p c); [|done].
  reflexivity.
Qed.

Lemma match_here_plus p s :
  match_here [re_plus p] s =
  if (span p s =? 0)%nat then None
  else Some ([take (span p s) s], drop (span p s) s).
Proof.
  simpl. destruct (Nat.eqb_spec (span p s) 0) as [->|Hn].
  - done.
  - by apply first_down_hit; [lia|].
Qed.

Lemma span_le p s : (span p s ≤ length s)%nat.
Proof. induction s as [|c s IH]; simpl; [lia|]. destruct (p c); simpl; lia. Qed.

(** Substituting nothing for single characters of a class filters them out. *)
Lemma re_sub_one p s :
  re_sub [re_one p] [] s = filter (λ c, p c = false) s.
Proof.
  unfold re_sub. induction s as [|c s IH]; [done|].
  cbn [re_sub_from]. rewrite match_here_one. rewrite filter_cons.
  destruct (p c) eqn:Hp.
  - replace (length (c :: s) - length s - 1)%nat with 0%nat by (simpl; lia).
    rewrite decide_False by done. apply IH.
  - rewrite decide_True by done. by rewrite IH.
Qed.

(** Inside a run the matcher skips exactly the rest of the run. *)
Lemma re_sub_plus_from p r s :
  re_sub_from [re_plus p] r s 0 = squeeze_from false p r s
  ∧ re_sub_from [re_plus p] r s (span p s) = squeeze_from true p r s.
Proof.
  induction s as [|c s [IH0 IH1]]; [done|]. split.
  - cbn [re_sub_from]. rewrite match_here_plus. simpl span. simpl squeeze_from.
    destruct (p c) eqn:Hp; simpl.
    + rewrite length_drop.
      replace (S (length s) - (length s - span p s) - 1)%nat with (span p s)
        by (pose proof (span_le p s); lia).
      by rewrite IH1.
    + by rewrite IH0.
  - simpl span. simpl squeeze_from. destruct (p c) eqn:Hp.
    + cbn [re_sub_from]. by rewrite IH1.
    + cbn [re_sub_from]. rewrite match_here_plus. simpl span. rewrite Hp. simpl.
      by rewrite IH0.
Qed.

Lemma re_sub_plus p r s : re_sub [re_plus p] r s = squeeze p r s.
Proof. apply re_sub_plus_from. Qed.

End RegexFacts.

(** ** The slug deriver *)

Section SlugFacts.
Context `{!UnicodeData}.

Lemma filter_ext_in {A} (P Q : A → Prop)
    `{!∀ x, Decision (P x)} `{!∀ x, Decision (Q x)} (l : list A) :
  (∀ x, x ∈ l → P x ↔ Q x) → filter P l = filter Q l.
Proof.
  induction l as [|a l IH]; [done|]. intros Hext.
  rewrite !filter_cons. rewrite IH by (intros; apply Hext; by right).
  destruct (decide (P a)) as [HP|HP], (decide (Q a)) as [HQ|HQ]; try done.
  - apply Hext in HP; [done|by left].
  - apply Hext in HQ; [done|by left].
Qed.

Lemma is_ascii_lt c : is_ascii c = true ↔ c < 128.
Proof. unfold is_ascii. apply N.ltb_lt. Qed.

Lemma encode_ascii_ignore_ascii s : ascii_text (encode_ascii_ignore s).
Proof.
  apply Forall_forall. intros c Hc. apply list_elem_of_filter in Hc as [Hc _].
  by apply is_ascii_lt.
Qed.

Lemma re_w_ascii c : c < 128 → re_w c = ascii_alnum c || (c =? chr "_").
Proof. intros Hc. unfold re_w. by rewrite ucd_alnum_ascii. Qed.

(** The code is the pipeline of the steps, with the underscore kept by the
    deletion step. *)
Lemma slugify_eq_steps x : _slugify x = slugify_steps x.
Proof.
  unfold _slugify, slugify_steps, slug_steps, slug_finish.
  set (s := encode_ascii_ignore _).
  rewrite re_sub_one, !re_sub_plus.
  rewrite (filter_ext_in _ (λ c, slug_keep c = true) s).
  - fold squeeze. by destruct (strip_where _ _).
  - intros c Hc.
    assert (c < 128) as Hlt.
    { pose proof (encode_ascii_ignore_ascii (normalize_NFKD (strip (lower x)))) as Ha.
      unfold ascii_text in Ha. rewrite Forall_forall in Ha. by apply Ha. }
    rewrite re_w_ascii by done. unfold re_s, slug_keep.
    destruct (ascii_alnum c || (c =? chr "_") || isspace c || (c =? chr "-"));
      simpl; naive_solver.
Qed.

Lemma lower_ascii s : ascii_text s → lower s = map ascii_lower s.
Proof.
  induction 1 as [|c s Hc _ IH]; [done|].
  unfold lower in *. simpl. by rewrite ucd_lower_ascii, IH.
Qed.

Lemma ascii_lower_lt c : c < 128 → ascii_lower c < 128.
Proof. unfold ascii_lower, ascii_upper_letter. intros. cp_cases. Qed.

Lemma map_ascii_lower_ascii s : ascii_text s → ascii_text (map ascii_lower s).
Proof.
  intros Hs. apply Forall_fmap. eapply Forall_impl; [done|]. apply ascii_lower_lt.
Qed.

Lemma drop_while_ascii p s : ascii_text s → ascii_text (drop_while p s).
Proof.
  induction 1 as [|c s Hc Hs IH]; simpl; [constructor|].
  destruct (p c); [done|by constructor].
Qed.

Lemma strip_where_ascii p s : ascii_text s → ascii_text (strip_where p s).
Proof.
  intros Hs. unfold strip_where, rstrip_where, lstrip_where.
  apply Forall_reverse, drop_while_ascii, Forall_reverse.
  by apply drop_while_ascii.
Qed.

Lemma normalize_NFKD_ascii s : ascii_text s → normalize_NFKD s = s.
Proof.
  induction 1 as [|c s Hc _ IH]; [done|].
  unfold normalize_NFKD in *. simpl. by rewrite ucd_decomp_ascii, IH.
Qed.

Lemma encode_ascii_ignore_id s : ascii_text s → encode_ascii_ignore s = s.
Proof.
  intros Hs. unfold encode_ascii_ignore.
  induction Hs as [|c s Hc _ IH]; [done|].
  rewrite filter_cons, IH. rewrite decide_True; [done|]. by apply is_ascii_lt.
Qed.

(** On Basic Latin the result does not depend on the Unicode tables. *)
Lemma slugify_ascii x :
  ascii_text x → _slugify x = slug_finish slug_keep (strip (map ascii_lower x)).
Proof.
  intros Hx. rewrite slugify_eq_steps. unfold slugify_steps, slug_steps.
  rewrite lower_ascii by done.
  assert (ascii_text (strip (map ascii_lower x))) as Hs
    by by apply strip_where_ascii, map_ascii_lower_ascii.
  by rewrite normalize_NFKD_ascii, encode_ascii_ignore_id.
Qed.

End SlugFacts.

Ltac ascii_literal := unfold ascii_text; by repeat constructor.
Ltac slug_literal := rewrite slugify_ascii by ascii_literal; vm_compute; reflexivity.

(** C6, as stated, fails: an underscore is not alphanumeric, white space or
    a hyphen, and it is not deleted but turned into a hyphen. *)
Lemma slugify_spec_differs_on_underscore :
  _slugify "a_b" = "a-b" ∧ slugify_spec "a_b" = "ab"
  ∧ _slugify "a_b" ≠ slugify_spec "a_b".
Proof. by vm_compute. Qed.

(** C6, amended: for every Unicode table and every text, [_slugify] is the
    pipeline of the stated steps where the deletion step keeps alphanumerics,
    underscores, white space and hyphens (so that punctuation is deleted, not
    hyphenated, and underscores reach the hyphenation step); the three
    examples of the specification hold, and an empty result becomes
    [untitled]. *)
Theorem slugify_implements_steps `{!UnicodeData} :
  (∀ x, _slugify x = slugify_steps x)
  ∧ _slugify "Special!@#$%Characters" = "specialcharacters"
  ∧ _slugify "My First Blog Post" = "my-first-blog-post"
  ∧ _slugify "  Spaces  Around  " = "spaces-around"
  ∧ _slugify "" = "untitled"
  ∧ _slugify "!@#" = "untitled".
Proof.
  split; [apply slugify_eq_steps|].
  repeat split; slug_literal.
Qed.

(** C5 at the failing input: the trade mark sign U+2122 has no lower case,
    NFKD decomposes it into the capital letters T and M, and the slug keeps
    them; slugifying the slug lowers them. *)
Theorem slugify_not_idempotent_on_trade_mark :
  _slugify [8482] = "TM"
  ∧ _slugify (_slugify [8482]) = "tm"
  ∧ _slugify (_slugify [8482]) ≠ _slugify [8482].
Proof. by vm_compute. Qed.

(** ** Slugs of slugs *)

Section StripFacts.

Lemma drop_while_head p s c : head (drop_while p s) = Some c → p c = false.
Proof.
  induction s as [|a s IH]; [done|]. simpl. destruct (p a) eqn:E; [done|].
  simpl. by intros [= <-].
Qed.

Lemma drop_while_id p s : (∀ c, head s = Some c → p c = false) → drop_while p s = s.
Proof. destruct s as [|a s]; [done|]. simpl. intros Hh. by rewrite Hh. Qed.

Lemma drop_while_drop p s : ∃ k, drop_while p s = drop k s.
Proof.
  induction s as [|a s [k IH]]; [by exists 0%nat|]. simpl.
  destruct (p a); [by exists (S k)|by exists 0%nat].
Qed.

Lemma rstrip_where_take p s : ∃ m, rstrip_where p s = take m s.
Proof.
  unfold rstrip_where. destruct (drop_while_drop p (reverse s)) as [k ->].
  exists (length s - k)%nat. by rewrite drop_reverse, reverse_involutive.
Qed.

Lemma strip_where_take_drop p s : ∃ k m, strip_where p s = take m (drop k s).
Proof.
  unfold strip_where, lstrip_where.
  destruct (drop_while_drop p s) as [k Hk].
  destruct (rstrip_where_take p (drop_while p s)) as [m Hm].
  exists k, m. by rewrite Hm, Hk.
Qed.

Lemma head_take {A} (l : list A) m c : head (take m l) = Some c → head l = Some c.
Proof. by destruct m, l. Qed.

Lemma strip_where_ends p s : ends_outside p (strip_where p s).
Proof.
  split; intros c Hc.
  - unfold strip_where in Hc.
    destruct (rstrip_where_take p (lstrip_where p s)) as [m Hm]. rewrite Hm in Hc.
    apply head_take in Hc. by apply drop_while_head in Hc.
  - unfold strip_where, rstrip_where in Hc. rewrite last_reverse in Hc.
    by apply drop_while_head in Hc.
Qed.

Lemma strip_where_id p s : ends_outside p s → strip_where p s = s.
Proof.
  intros [Hh Hl]. unfold strip_where, lstrip_where, rstrip_where.
  rewrite (drop_while_id p s) by done.
  rewrite drop_while_id; [apply reverse_involutive|].
  intros c Hc. rewrite head_reverse in Hc. by apply Hl.
Qed.

Lemma strip_where_Forall (P : N → Prop) p s : Forall P s → Forall P (strip_where p s).
Proof.
  intros Hs. destruct (strip_where_take_drop p s) as (k & m & ->).
  by apply Forall_take, Forall_drop.
Qed.

Lemma Forall_ends_outside p s : Forall (λ c, p c = false) s → ends_outside p s.
Proof.
  intros Hs. rewrite Forall_forall in Hs. split; intros c Hc; apply Hs.
  - by apply head_Some_elem_of.
  - by apply last_Some_elem_of.
Qed.

Lemma no_adjacent_tail p a s : no_adjacent p (a :: s) → no_adjacent p s.
Proof. by intros [_ ?]. Qed.

Lemma no_adjacent_drop p k s : no_adjacent p s → no_adjacent p (drop k s).
Proof.
  revert s. induction k as [|k IH]; intros s Hs; [done|].
  destruct s as [|a s]; [done|]. simpl. apply IH. by eapply no_adjacent_tail.
Qed.

Lemma no_adjacent_take p m s : no_adjacent p s → no_adjacent p (take m s).
Proof.
  revert m. induction s as [|a s IH]; intros m Hs; [by destruct m|].
  destruct m as [|m]; [done|]. simpl. destruct Hs as [Hab Hs]. split; [|by apply IH].
  destruct s as [|b s]; [by destruct m|]. by destruct m.
Qed.

Lemma strip_where_no_adjacent q p s : no_adjacent q s → no_adjacent q (strip_where p s).
Proof.
  intros Hs. destruct (strip_where_take_drop p s) as (k & m & ->).
  by apply no_adjacent_take, no_adjacent_drop.
Qed.

End StripFacts.

Section SqueezeFacts.
Context (p : N → bool) (h : N).

Lemma squeeze_from_elem b s c :
  c ∈ squeeze_from b p [h] s → c = h ∨ (c ∈ s ∧ p c = false).
Proof.
  revert b. induction s as [|a s IH]; intros b Hc; simpl in Hc.
  - by apply elem_of_nil in Hc.
  - destruct (p a) eqn:E.
    + apply elem_of_app in Hc as [Hc|Hc].
      * destruct b; [by apply elem_of_nil in Hc|].
        apply list_elem_of_singleton in Hc. by left.
      * destruct (IH _ Hc) as [?|[? ?]]; [by left|]. right. split; [by right|done].
    + apply elem_of_cons in Hc as [->|Hc].
      * right. split; [by left|done].
      * destruct (IH _ Hc) as [?|[? ?]]; [by left|]. right. split; [by right|done].
Qed.

Lemma squeeze_from_none b s :
  Forall (λ c, p c = false) s → squeeze_from b p [h] s = s.
Proof.
  intros Hs. revert b. induction Hs as [|a s Ha _ IH]; intros b; [done|].
  simpl. by rewrite Ha, IH.
Qed.

(** The output of a squeeze has no two neighbours of the class, and after a
    replacement it does not start with one. *)
Lemma squeeze_from_no_adjacent s :
  p h = true →
  no_adjacent p (squeeze_from false p [h] s)
  ∧ no_adjacent p (squeeze_from true p [h] s)
  ∧ (∀ c, head (squeeze_from true p [h] s) = Some c → p c = false).
Proof.
  intros Hh. induction s as [|a s (IH1 & IH2 & IH3)]; [done|].
  simpl. destruct (p a) eqn:E; simpl.
  - repeat split; try done.
    destruct (squeeze_from true p [h] s) as [|b t] eqn:Et; [done|].
    intros [_ Hb]. rewrite (IH3 b) in Hb; done.
  - repeat split; try done.
    + destruct (squeeze_from false p [h] s); [done|]. intros [? _]. congruence.
    + destruct (squeeze_from false p [h] s); [done|]. intros [? _]. congruence.
    + by intros c [= <-].
Qed.

(** Text without neighbours of the class is a fixed point. *)
Lemma squeeze_from_fixed s :
  (∀ c, p c = true → c = h) → no_adjacent p s →
  squeeze_from false p [h] s = s
  ∧ ((∀ c, head s = Some c → p c = false) → squeeze_from true p [h] s = s).
Proof.
  intros Hp. induction s as [|a s IH]; intros Hs; [done|].
  destruct Hs as [Hab Hs]. destruct (IH Hs) as [IH1 IH2]. simpl.
  destruct (p a) eqn:E.
  - split.
    + rewrite (Hp a E). simpl. f_equal. apply IH2. intros c Hc.
      destruct s as [|b s]; [done|]. injection Hc as ->.
      destruct (p c) eqn:Ec; [|done]. exfalso. by apply Hab.
    + intros Hh. rewrite (Hh a) in E; done.
  - split; [by rewrite IH1|]. intros _. by rewrite IH1.
Qed.

End SqueezeFacts.

Section SlugShape.
Context `{!UnicodeData}.

Lemma slug_char_ascii c : slug_char c = true → c < 128.
Proof.
  unfold slug_char, ascii_alnum, ascii_upper_letter, ascii_lower_letter,
    ascii_digit, is_hyphen.
  change (chr "-") with 45. intros Hc. revert Hc. cp_cases.
Qed.

Lemma slug_char_lower c : slug_char c = true → slug_char (ascii_lower c) = true.
Proof.
  intros Hc. unfold ascii_lower. destruct (ascii_upper_letter c) eqn:E; [|done].
  clear Hc. revert E.
  unfold slug_char, ascii_alnum, ascii_upper_letter, ascii_lower_letter,
    ascii_digit, is_hyphen.
  change (chr "-") with 45. cp_cases.
Qed.

Lemma is_hyphen_lower c : is_hyphen (ascii_lower c) = is_hyphen c.
Proof.
  unfold ascii_lower. destruct (ascii_upper_letter c) eqn:E; [|done]. revert E.
  unfold ascii_upper_letter, is_hyphen. change (chr "-") with 45. cp_cases.
Qed.

Lemma ascii_lower_idem c : ascii_lower (ascii_lower c) = ascii_lower c.
Proof.
  unfold ascii_lower at 1. destruct (ascii_upper_letter (ascii_lower c)) eqn:E; [|done].
  exfalso. revert E. unfold ascii_lower. destruct (ascii_upper_letter c) eqn:E'.
  - revert E'. unfold ascii_upper_letter. cp_cases.
  - congruence.
Qed.

Lemma slug_char_keep c : slug_char c = true → slug_keep c = true.
Proof.
  unfold slug_char, slug_keep, is_hyphen. intros Hc.
  apply orb_true_iff in Hc as [->|Hc]; [done|].
  rewrite N.eqb_sym in Hc. rewrite Hc. by rewrite orb_true_r.
Qed.

Lemma slug_char_range c :
  slug_char c = true →
  48 ≤ c ≤ 57 ∨ 65 ≤ c ≤ 90 ∨ 97 ≤ c ≤ 122 ∨ c = 45.
Proof.
  unfold slug_char, ascii_alnum, ascii_upper_letter, ascii_lower_letter,
    ascii_digit, is_hyphen.
  change (chr "-") with 45. intros Hc. revert Hc. cp_cases.
Qed.

Lemma slug_char_no_space c :
  slug_char c = true → isspace c || (c =? chr "_") = false.
Proof.
  intros Hc%slug_char_range. unfold isspace. change (chr "_") with 95.
  destruct Hc as [Hc|[Hc|[Hc|Hc]]];
    repeat match goal with
           | |- context [N.leb ?a ?b] => destruct (N.leb_spec a b); try lia
           | |- context [N.eqb ?a ?b] => destruct (N.eqb_spec a b); try lia
           end; done.
Qed.

(** What is kept and is neither white space nor an underscore is a slug
    character. *)
Lemma slug_keep_char c :
  slug_keep c = true → isspace c || (c =? chr "_") = false → slug_char c = true.
Proof.
  unfold slug_keep, slug_char, is_hyphen. intros Hk Hs.
  apply orb_false_iff in Hs as [Hs Hu]. rewrite Hs, Hu, !orb_false_r in Hk.
  by rewrite (N.eqb_sym (chr "-")).
Qed.

Lemma no_adjacent_map_lower s :
  no_adjacent is_hyphen s → no_adjacent is_hyphen (map ascii_lower s).
Proof.
  induction s as [|a s IH]; [done|]. intros [Hab Hs]. split; [|by apply IH].
  destruct s as [|b s]; [done|]. simpl. by rewrite !is_hyphen_lower.
Qed.

Lemma ends_outside_map_lower s :
  ends_outside is_hyphen s → ends_outside is_hyphen (map ascii_lower s).
Proof.
  intros [Hh Hl]. split; intros c Hc.
  - destruct s as [|a s]; [done|]. injection Hc as <-.
    rewrite is_hyphen_lower. by apply Hh.
  - change (map ascii_lower s) with (ascii_lower <$> s) in Hc.
    rewrite fmap_last in Hc. destruct (last s) as [a|] eqn:E; [|done].
    injection Hc as <-. rewrite is_hyphen_lower. by apply Hl.
Qed.

Lemma slug_shaped_lower s : slug_shaped s → slug_shaped (map ascii_lower s).
Proof.
  intros (Hne & Hch & Hadj & Hends). repeat split.
  - by destruct s.
  - apply Forall_fmap. eapply Forall_impl; [done|]. apply slug_char_lower.
  - by apply no_adjacent_map_lower.
  - by apply ends_outside_map_lower.
  - by apply ends_outside_map_lower.
Qed.

Lemma untitled_shaped : slug_shaped (lit "untitled").
Proof.
  split; [done|]. split; [by repeat constructor|]. split.
  - cbn. repeat split; by intros [? ?].
  - split; cbn; by intros c [= <-].
Qed.

(** The last four steps make a slug of any text. *)
Lemma slug_finish_shaped s : slug_shaped (slug_finish slug_keep s).
Proof.
  unfold slug_finish.
  set (s1 := filter (λ c, slug_keep c = true) s).
  set (s2 := squeeze (λ c, isspace c || (c =? chr "_")) (lit "-") s1).
  set (s3 := squeeze (N.eqb (chr "-")) (lit "-") s2).
  set (s4 := strip_where (in_chars (lit "-")) s3).
  assert (Forall (λ c, slug_char c = true) s3) as Hch.
  { apply Forall_forall. intros c Hc.
    apply (squeeze_from_elem _ 45) in Hc as [->|[Hc _]]; [done|].
    apply (squeeze_from_elem _ 45) in Hc as [->|[Hc Hws]]; [done|].
    apply list_elem_of_filter in Hc as [Hk _]. by apply slug_keep_char. }
  assert (no_adjacent is_hyphen s3) as Hadj.
  { by apply (squeeze_from_no_adjacent (N.eqb (chr "-")) 45 s2). }
  assert (∀ t, strip_where (in_chars (lit "-")) t = strip_where is_hyphen t) as Hstrip.
  { assert (∀ t, drop_while (in_chars (lit "-")) t = drop_while is_hyphen t) as Hdw.
    { intros t. induction t as [|a t IH]; [done|]. simpl. rewrite IH.
      assert (in_chars (lit "-") a = is_hyphen a) as ->; [|done].
      unfold in_chars, is_hyphen. change (lit "-") with [45]. change (chr "-") with 45.
      destruct (N.eqb_spec 45 a) as [<-|Hne].
      - by apply bool_decide_eq_true_2, list_elem_of_singleton.
      - apply bool_decide_eq_false_2. by intros ->%list_elem_of_singleton. }
    intros t. unfold strip_where, rstrip_where, lstrip_where. by rewrite !Hdw. }
  destruct (bool_decide_reflect (s4 = [])) as [Hnil|Hnil].
  - apply untitled_shaped.
  - unfold s4 in *. rewrite Hstrip in *. repeat split; try done.
    + by apply strip_where_Forall.
    + by apply strip_where_no_adjacent.
    + apply strip_where_ends.
    + apply strip_where_ends.
Qed.

(** A slug is a fixed point of the last four steps. *)
Lemma slug_finish_fixed s :
  slug_shaped s → slug_finish slug_keep s = s.
Proof.
  intros (Hne & Hch & Hadj & Hends). unfold slug_finish.
  assert (filter (λ c, slug_keep c = true) s = s) as ->.
  { clear -Hch. induction Hch as [|a s Ha _ IH]; [done|].
    rewrite filter_cons, IH, decide_True; [done|]. by apply slug_char_keep. }
  unfold squeeze. change (lit "-") with [45].
  rewrite (squeeze_from_none (λ c, isspace c || (c =? chr "_")) 45 false s).
  2:{ eapply Forall_impl; [exact Hch|]. apply slug_char_no_space. }
  destruct (squeeze_from_fixed (N.eqb (chr "-")) 45 s) as [-> _]; [|done|].
  { intros c Hc. by apply N.eqb_eq in Hc. }
  assert (strip_where (in_chars [45]) s = s) as ->.
  { apply strip_where_id. destruct Hends as [Hh Hl].
    assert (∀ c, is_hyphen c = false → in_chars [45] c = false) as Hin.
    { intros c Hc. unfold in_chars. apply bool_decide_eq_false_2.
      intros ->%list_elem_of_singleton. done. }
    split; intros c Hc; apply Hin; eauto. }
  by rewrite bool_decide_eq_false_2.
Qed.

Lemma slug_shaped_ends_space s :
  Forall (λ c, slug_char c = true) s → ends_outside isspace s.
Proof.
  intros Hs. apply Forall_ends_outside. eapply Forall_impl; [exact Hs|].
  intros c Hc. apply slug_char_no_space in Hc. by apply orb_false_iff in Hc as [? _].
Qed.

(** Slugifying a slug lowers its letters and changes nothing else. *)
Lemma slugify_slug s :
  slug_shaped s → _slugify s = map ascii_lower s.
Proof.
  intros Hs. pose proof (slug_shaped_lower s Hs) as Hl.
  destruct Hs as (Hne & Hch & Hadj & Hends).
  rewrite slugify_ascii.
  2:{ eapply Forall_impl; [exact Hch|]. apply slug_char_ascii. }
  unfold strip. rewrite strip_where_id.
  - by apply slug_finish_fixed.
  - apply slug_shaped_ends_space. by destruct Hl as (_ & ? & _).
Qed.

(** The slug of a slug, for every text and every Unicode table. *)
Lemma slugify_twice x : _slugify (_slugify x) = map ascii_lower (_slugify x).
Proof.
  apply slugify_slug. rewrite slugify_eq_steps. apply slug_finish_shaped.
Qed.

(** The last four steps add nothing but hyphens and the fallback word. *)
Lemma slug_finish_Forall (P : N → Prop) keep s :
  P 45 → Forall P (lit "untitled") → Forall P s → Forall P (slug_finish keep s).
Proof.
  intros Hh Hu Hs. unfold slug_finish. case_bool_decide; [done|].
  apply strip_where_Forall, Forall_forall. intros c Hc.
  apply (squeeze_from_elem _ 45) in Hc as [->|[Hc _]]; [done|].
  apply (squeeze_from_elem _ 45) in Hc as [->|[Hc _]]; [done|].
  apply list_elem_of_filter in Hc as [_ Hc].
  rewrite Forall_forall in Hs. by apply Hs.
Qed.

(** On Basic Latin the slug deriver is idempotent. *)
Lemma slugify_idempotent_ascii x :
  ascii_text x → _slugify (_slugify x) = _slugify x.
Proof.
  intros Hx. rewrite slugify_twice, (slugify_ascii x Hx).
  assert (Forall (λ c, ascii_lower c = c)
            (slug_finish slug_keep (strip (map ascii_lower x)))) as Hlow.
  { apply slug_finish_Forall; [done|by repeat constructor|].
    apply strip_where_Forall, Forall_fmap, Forall_true. intros c.
    apply ascii_lower_idem. }
  induction Hlow as [|a s Ha _ IH]; [done|]. simpl. by rewrite Ha, IH.
Qed.

End SlugShape.

(** ** The path resolver *)


(** ** Documents that do not parse *)

(** C7, as stated, fails: the body of a document that does not parse is
    the empty text, not the text of the file, so the picture the file refers
    to is not recorded. *)
Lemma unparseable_body_is_not_the_raw_text :
  fs_load (ref_fs broken_site) broken_post = inl (lit "while parsing a flow sequence")
  ∧ fs_text (ref_fs broken_site) broken_post = Some (lit broken_text)
  ∧ outcome (extract_frontmatter_and_content (ref_fs broken_site) broken_post)
    = Ok (∅, [])
  ∧ lit broken_text ≠ []
  ∧ find_images_in_content (lit broken_text) broken_post = [(lit "./a.png", lit "markdown")]
  ∧ fs_exists (ref_fs broken_site) (PurePath "/site/a.png") = true
  ∧ ∃ self, outcome (analyze_image_usage (ref_fs broken_site) broken_processor) = Ok self
            ∧ image_usage self = [].
Proof.
  repeat split; try by vm_compute.
  eexists. split; by vm_compute.
Qed.

(** C7, amended: for every document on which [frontmatter.load] raises, the
    scanner prints one warning, treats the document as having no front
    matter and an empty body, leaves the usage index as it was, and goes on
    with the remaining documents. *)
Theorem unparseable_document_recovered `{!UnicodeData} (fs : FileSystem)
    (self : ImageProcessor) (md_file : Path) (e : str) (rest : list Path) :
  fs_load fs md_file = inl e →
  extract_frontmatter_and_content fs md_file
  = ([lit "Warning: Could not parse " ++ path_str md_file ++ lit ": " ++ e], Ok (∅, []))
  ∧ analyze_markdown_file fs self md_file
    = ([lit "Warning: Could not parse " ++ path_str md_file ++ lit ": " ++ e], Ok self)
  ∧ for_each (md_file :: rest) (analyze_markdown_file fs) self
    = ((lit "Warning: Could not parse " ++ path_str md_file ++ lit ": " ++ e)
         :: output (for_each rest (analyze_markdown_file fs) self),
       outcome (for_each rest (analyze_markdown_file fs) self)).
Proof.
  intros Hload.
  assert (extract_frontmatter_and_content fs md_file
          = ([lit "Warning: Could not parse " ++ path_str md_file ++ lit ": " ++ e],
             Ok (∅, []))) as Hx.
  { unfold extract_frontmatter_and_content. by rewrite Hload. }
  assert (analyze_markdown_file fs self md_file
          = ([lit "Warning: Could not parse " ++ path_str md_file ++ lit ": " ++ e],
             Ok self)) as Ha.
  { unfold analyze_markdown_file. rewrite Hx. reflexivity. }
  repeat split; [done..|].
  cbn [for_each]. rewrite Ha. unfold mbind, M_bind, output, outcome.
  by destruct (for_each rest _ self).
Qed.

Lemma unparseable_document_recovered_witness :
  fs_load (ref_fs broken_site) broken_post = inl (lit "while parsing a flow sequence")
  ∧ analyze_markdown_file (ref_fs broken_site) broken_processor broken_post
    = ([lit "Warning: Could not parse /site/post.md: while parsing a flow sequence"],
       Ok broken_processor).
Proof.
  split; [reflexivity|].
  apply (unparseable_document_recovered (ref_fs broken_site) broken_processor
           broken_post (lit "while parsing a flow sequence") []).
  reflexivity.
Defined.

(** ** Paths outside the input directory *)

(** C9: building the rename map and the report is partial. With the input
    directory given as the relative path [input], the reference [./a.png]
    resolves to an absolute path, and with a reference that leaves the input
    directory the resolved path is not below it; in both runs the analysis
    succeeds, [relative_to] raises [ValueError] in [create_rename_dictionary]
    and in [create_usage_report], and [process] ends with that exception. *)
Theorem rename_map_and_report_are_partial :
  (∃ self,
     outcome (analyze_image_usage (ref_fs relative_site) relative_processor) = Ok self
     ∧ image_usage self = [(PurePath "/home/user/input/a.png", [PurePath "input/post.md"])]
     ∧ outcome (create_rename_dictionary (ref_fs relative_site) self) = Raise ValueError
     ∧ outcome (create_usage_report self) = Raise ValueError)
  ∧ outcome (process (ref_fs relative_site) relative_processor) = Raise ValueError
  ∧ (∃ self,
       outcome (analyze_image_usage (ref_fs escaping_site) escaping_processor) = Ok self
       ∧ image_usage self
         = [(PurePath "/site/shared/logo.png", [PurePath "/site/content/post.md"])]
       ∧ outcome (create_rename_dictionary (ref_fs escaping_site) self) = Raise ValueError
       ∧ outcome (create_usage_report self) = Raise ValueError)
  ∧ outcome (process (ref_fs escaping_site) escaping_processor) = Raise ValueError.
Proof.
  split; [|split; [|split]].
  - eexists. split; [by vm_compute|]. repeat split; by vm_compute.
  - by vm_compute.
  - eexists. split; [by vm_compute|]. repeat split; by vm_compute.
  - by vm_compute.
Qed.

(** ** Single use and multiple use *)

(** C2 at the failing input: one document refers to the same picture twice.
    The usage list holds the document twice, one distinct document uses the
    picture, and the picture is named by the multi-use rule
    ([img-001.png], from its own stem) although the single-use rule would
    name it [post.png]. *)
Theorem repeated_reference_named_by_multi_use_rule :
  ∃ self,
    outcome (analyze_image_usage (ref_fs twice_site) twice_processor) = Ok self
    ∧ image_usage self
      = [(PurePath "/site/IMG_001.PNG", [PurePath "/site/post.md"; PurePath "/site/post.md"])]
    ∧ length (remove_dups [PurePath "/site/post.md"; PurePath "/site/post.md"]) = 1%nat
    ∧ (∃ d, outcome (create_rename_dictionary (ref_fs twice_site) self) = Ok d
            ∧ d !! lit "IMG_001.PNG" = Some (lit "img-001.png"))
    ∧ outcome (generate_seo_filename (ref_fs twice_site) (PurePath "/site/IMG_001.PNG")
                 [PurePath "/site/post.md"] false 0)
      = Ok (lit "post.png").
Proof.
  eexists. split; [by vm_compute|]. repeat split; try by vm_compute.
  eexists. split; by vm_compute.
Qed.

(** ** Uniqueness of the new file names *)

(** C1, as stated, fails: two documents with the same slug, each with one
    picture of its own, give two keys with the same new file name. *)
Lemma rename_map_collision :
  ∃ self d,
    outcome (analyze_image_usage (ref_fs twin_site) twin_processor) = Ok self
    ∧ outcome (create_rename_dictionary (ref_fs twin_site) self) = Ok d
    ∧ lit "a/x.png" ≠ lit "b/x.png"
    ∧ d !! lit "a/x.png" = Some (lit "post.png")
    ∧ d !! lit "b/x.png" = Some (lit "post.png").
Proof.
  eexists _, _. split; [by vm_compute|]. split; [by vm_compute|].
  repeat split; by vm_compute.
Qed.

(** ** Paths *)

Section PathFacts.

Lemma strip_prefix_Some pre xs rest :
  strip_prefix pre xs = Some rest ↔ xs = pre ++ rest.
Proof.
  revert xs. induction pre as [|a pre IH]; intros xs; simpl.
  - split; congruence.
  - destruct xs as [|b xs]; [done|]. destruct (decide (a = b)) as [->|Hne].
    + rewrite IH. split; congruence.
    + split; [done|]. intros [=]. congruence.
Qed.

Lemma relative_to_Some p root r :
  relative_to p root = Some r
  ↔ anchor p = anchor root ∧ parts p = parts root ++ parts r ∧ anchor r = [].
Proof.
  unfold relative_to. destruct (decide (anchor p = anchor root)) as [Ha|Ha].
  - destruct (strip_prefix (parts root) (parts p)) as [rest|] eqn:E.
    + apply strip_prefix_Some in E. split.
      * intros [= <-]. done.
      * intros (_ & Hp & Hr). destruct r as [ra rp]. simpl in *. subst ra.
        rewrite E in Hp. by apply app_inv_head in Hp as ->.
    + split; [done|]. intros (_ & Hp & _).
      apply strip_prefix_Some in Hp. congruence.
  - split; [done|]. by intros (? & _).
Qed.

Lemma split_on_no_sep sep x : sep ∉ x → split_on sep x = [x].
Proof.
  induction x as [|c x IH]; [done|]. intros Hx. simpl.
  destruct (N.eqb_spec c sep) as [->|Hne].
  - exfalso. apply Hx. by left.
  - rewrite IH; [done|]. intros ?. apply Hx. by right.
Qed.

Lemma split_on_app sep x rest :
  sep ∉ x → split_on sep (x ++ sep :: rest) = x :: split_on sep rest.
Proof.
  induction x as [|c x IH]; intros Hx; simpl.
  - by rewrite N.eqb_refl.
  - destruct (N.eqb_spec c sep) as [->|Hne].
    + exfalso. apply Hx. by left.
    + rewrite IH; [done|]. intros ?. apply Hx. by right.
Qed.

Lemma split_on_join xs :
  xs ≠ [] → Forall (λ x, chr "/" ∉ x) xs →
  split_on (chr "/") (join_with (lit "/") xs) = xs.
Proof.
  intros Hne Hall. induction Hall as [|x xs Hx Hxs IH]; [done|].
  destruct xs as [|y xs].
  - simpl. by apply split_on_no_sep.
  - change (join_with (lit "/") (x :: y :: xs))
      with (x ++ chr "/" :: join_with (lit "/") (y :: xs)).
    rewrite split_on_app by done. by rewrite IH.
Qed.

(** The string of a relative path determines its components. *)
Lemma relative_str_inj r1 r2 :
  Forall wf_component r1 → Forall wf_component r2 →
  path_str (mkPath [] r1) = path_str (mkPath [] r2) → r1 = r2.
Proof.
  intros H1 H2 Heq.
  assert (∀ r, Forall wf_component r → Forall (λ x, chr "/" ∉ x) r) as Hsl.
  { intros r Hr. eapply Forall_impl; [done|]. by intros x (_ & _ & ?). }
  assert (∀ r, Forall wf_component r → r ≠ [] →
               split_on (chr "/") (path_str (mkPath [] r)) = r) as Hsp.
  { intros r Hr Hne. destruct r as [|x r']; [done|].
    change (path_str (mkPath [] (x :: r'))) with (join_with (lit "/") (x :: r')).
    apply split_on_join; [done|by apply Hsl]. }
  assert (∀ r, Forall wf_component r → r ≠ [] →
               path_str (mkPath [] r) ≠ lit ".") as Hdot.
  { intros r Hr Hne Hs. apply Hsp in Hne as Hr'; [|done]. rewrite Hs in Hr'.
    subst r. apply Forall_cons in Hr as [(_ & ? & _) _]. done. }
  destruct (decide (r1 = [])) as [->|Hn1], (decide (r2 = [])) as [->|Hn2]; try done.
  - symmetry in Heq. by apply Hdot in Heq.
  - by apply Hdot in Heq.
  - rewrite <- (Hsp r1), <- (Hsp r2) by done. by rewrite Heq.
Qed.

Lemma rename_key_Some self img k :
  rename_key self img = Some k
  ↔ ∃ r, relative_to img (input_dir self) = Some r ∧ k = path_str r.
Proof.
  unfold rename_key. destruct (relative_to img (input_dir self)); simpl.
  - split; [intros [= <-]; eauto|]. by intros (r & [= <-] & ->).
  - split; [done|]. by intros (r & ? & _).
Qed.

(** Two well-formed paths with the same key are the same path. *)
Lemma rename_key_inj self p1 p2 k :
  wf_path p1 → wf_path p2 →
  rename_key self p1 = Some k → rename_key self p2 = Some k → p1 = p2.
Proof.
  intros Hw1 Hw2 (r1 & Hr1 & ->)%rename_key_Some (r2 & Hr2 & Hk)%rename_key_Some.
  apply relative_to_Some in Hr1 as (Ha1 & Hp1 & Hn1).
  apply relative_to_Some in Hr2 as (Ha2 & Hp2 & Hn2).
  destruct r1 as [a1 q1], r2 as [a2 q2], p1 as [b1 ps1], p2 as [b2 ps2].
  simpl in *. subst.
  unfold wf_path in *. simpl in *.
  apply Forall_app in Hw1 as [_ Hw1]. apply Forall_app in Hw2 as [_ Hw2].
  assert (q1 = q2) as -> by by apply relative_str_inj.
  congruence.
Qed.

End PathFacts.

(** ** Running the methods *)

Section RunFacts.
Context `{!UnicodeData} (fs : FileSystem).

Lemma outcome_bind {A B} (m : M A) (f : A → M B) :
  outcome (m ≫= f)
  = match outcome m with
    | Ok a => outcome (f a)
    | Raise e => Raise e
    end.
Proof.
  destruct m as [out [a|e]]; unfold outcome, mbind, M_bind; simpl; [|done].
  by destruct (f a).
Qed.

Lemma extract_frontmatter_and_content_run p :
  extract_frontmatter_and_content fs p = (load_warnings fs p, Ok (frontmatter_of fs p)).
Proof.
  unfold extract_frontmatter_and_content, load_warnings, frontmatter_of.
  by destruct (fs_load fs p) as [e|[m c]].
Qed.

Lemma _extract_slug_from_file_run d :
  _extract_slug_from_file fs d = (load_warnings fs d, Ok (slug_of fs d)).
Proof.
  unfold slug_of, _extract_slug_from_file.
  rewrite extract_frontmatter_and_content_run.
  destruct (frontmatter_of fs d) as [fm c].
  unfold mbind, M_bind, outcome, mret, M_ret.
  destruct (fm !! lit "slug"); [by rewrite app_nil_r|].
  destruct (fm !! lit "title"); by rewrite app_nil_r.
Qed.

(** The name of an image with one entry in its usage list. *)
Lemma seo_filename_single img d featured sequence :
  seo_filename fs img [d] featured sequence
  = slug_of fs d ++ name_infix featured sequence ++ lower (suffix img).
Proof.
  unfold seo_filename, generate_seo_filename, name_infix.
  rewrite _extract_slug_from_file_run.
  unfold mbind, M_bind, outcome, mret, M_ret.
  destruct featured; [done|]. destruct (0 <? sequence)%nat; [|done].
  simpl. by rewrite <- ?app_assoc.
Qed.

(** The name of an image with no or several entries in its usage list. *)
Lemma seo_filename_multi img usage featured sequence :
  length usage ≠ 1%nat →
  seo_filename fs img usage featured sequence
  = _slugify (stem img) ++ lower (suffix img).
Proof.
  intros Hlen. unfold seo_filename, generate_seo_filename.
  destruct usage as [|d [|d' usage]]; done.
Qed.

Lemma generate_seo_filename_outcome img usage featured sequence :
  outcome (generate_seo_filename fs img usage featured sequence)
  = Ok (seo_filename fs img usage featured sequence).
Proof.
  unfold seo_filename.
  destruct (outcome (generate_seo_filename fs img usage featured sequence)) eqn:E; [done|].
  exfalso. unfold generate_seo_filename in E.
  destruct usage as [|d [|d' usage]]; try done.
  rewrite _extract_slug_from_file_run in E.
  unfold mbind, M_bind, outcome, mret, M_ret in E.
  destruct featured; [done|]. by destruct (0 <? sequence)%nat.
Qed.

Lemma rename_step_outcome self rd ctr img usage :
  outcome (rename_step fs self (rd, ctr) (img, usage))
  = match rename_key self img with
    | Some k =>
        Ok (<[k := seo_filename fs img usage (is_featured self img)
                     (next_sequence ctr usage (is_featured self img)).1]> rd,
            (next_sequence ctr usage (is_featured self img)).2)
    | None => Raise ValueError
    end.
Proof.
  unfold rename_step. fold (is_featured self img).
  destruct (next_sequence ctr usage (is_featured self img)) as [sequence ctr'].
  rewrite outcome_bind, generate_seo_filename_outcome.
  unfold rename_key. by destruct (relative_to img (input_dir self)).
Qed.

Lemma for_each_rename_step self items acc :
  outcome (for_each items (rename_step fs self) acc)
  = match rename_plan fs self items acc with
    | Some r => Ok r
    | None => Raise ValueError
    end.
Proof.
  revert acc. induction items as [|[img usage] items IH]; intros [rd ctr]; [done|].
  cbn [for_each rename_plan]. rewrite outcome_bind, rename_step_outcome.
  simpl. destruct (next_sequence ctr usage (is_featured self img)) as [sequence ctr'].
  simpl. destruct (rename_key self img); [|done]. apply IH.
Qed.

Lemma create_rename_dictionary_outcome self :
  outcome (create_rename_dictionary fs self)
  = match rename_plan fs self (image_usage self) (∅, ∅) with
    | Some (rd, _) => Ok rd
    | None => Raise ValueError
    end.
Proof.
  unfold create_rename_dictionary. rewrite outcome_bind. simpl.
  rewrite outcome_bind, for_each_rename_step.
  by destruct (rename_plan fs self (image_usage self) (∅, ∅)) as [[rd ctr]|].
Qed.

(** *** The plan of the rename loop *)

Lemma next_sequence_counter ctr usage featured d :
  default 0%nat ((next_sequence ctr usage featured).2 !! d)
  = (default 0%nat (ctr !! d)
     + (if bool_decide (usage = [d] ∧ featured = false) then 1 else 0))%nat.
Proof.
  unfold next_sequence.
  destruct usage as [|d0 [|d1 usage]], featured; simpl;
    try lia; try (rewrite bool_decide_eq_false_2 by (by intros [? ?]); lia).
  destruct (decide (d0 = d)) as [->|Hne].
  - rewrite lookup_insert_eq, bool_decide_eq_true_2 by done. simpl. lia.
  - rewrite lookup_insert_ne by done.
    rewrite bool_decide_eq_false_2 by (intros [[= ?] _]; done). lia.
Qed.

Lemma next_sequence_value ctr usage featured :
  (next_sequence ctr usage featured).1
  = match usage, featured with
    | [d], false =>
        let n := S (default 0%nat (ctr !! d)) in if (1 <? n)%nat then n else 0%nat
    | _, _ => 0%nat
    end.
Proof.
  unfold next_sequence. destruct usage as [|d [|d' usage]], featured; try done.
  simpl. by rewrite lookup_insert_eq.
Qed.

Lemma inline_images_of_cons self d img usage items :
  length (inline_images_of self d ((img, usage) :: items))
  = ((if bool_decide (usage = [d] ∧ is_featured self img = false) then 1 else 0)
     + length (inline_images_of self d items))%nat.
Proof.
  unfold inline_images_of. rewrite filter_cons. simpl.
  destruct (decide (usage = [d] ∧ is_featured self img = false)) as [Hd|Hd].
  - by rewrite bool_decide_eq_true_2.
  - by rewrite bool_decide_eq_false_2.
Qed.

Lemma rename_plan_app self a b acc :
  rename_plan fs self (a ++ b) acc
  = rename_plan fs self a acc ≫= rename_plan fs self b.
Proof.
  revert acc. induction a as [|[img usage] a IH]; intros [rd ctr]; [done|].
  simpl. destruct (next_sequence ctr usage (is_featured self img)) as [sequence ctr'].
  destruct (rename_key self img); [|done]. apply IH.
Qed.

Lemma rename_plan_counters self items acc r d :
  rename_plan fs self items acc = Some r →
  default 0%nat (r.2 !! d)
  = (default 0%nat (acc.2 !! d) + length (inline_images_of self d items))%nat.
Proof.
  revert acc. induction items as [|[img usage] items IH]; intros [rd ctr] Hr.
  - simpl in Hr. injection Hr as <-. simpl. lia.
  - simpl in Hr.
    pose proof (next_sequence_counter ctr usage (is_featured self img) d) as Hc.
    destruct (next_sequence ctr usage (is_featured self img)) as [sequence ctr'].
    destruct (rename_key self img); [|done].
    apply IH in Hr. simpl in *. rewrite Hr, Hc, inline_images_of_cons. lia.
Qed.

Lemma rename_plan_untouched self items acc r k :
  rename_plan fs self items acc = Some r →
  (∀ it, it ∈ items → rename_key self it.1 ≠ Some k) →
  r.1 !! k = acc.1 !! k.
Proof.
  revert acc. induction items as [|[img usage] items IH]; intros [rd ctr] Hr Hk.
  - simpl in Hr. by injection Hr as <-.
  - simpl in Hr.
    destruct (next_sequence ctr usage (is_featured self img)) as [sequence ctr'].
    destruct (rename_key self img) as [k'|] eqn:Ek; [|done].
    apply IH in Hr; [|intros it Hit; apply Hk; by right].
    rewrite Hr. simpl. apply lookup_insert_ne.
    intros ->. by apply (Hk (img, usage)); [left|].
Qed.

Lemma rename_plan_dom self items acc r k v :
  rename_plan fs self items acc = Some r → r.1 !! k = Some v →
  acc.1 !! k = Some v ∨ ∃ it, it ∈ items ∧ rename_key self it.1 = Some k.
Proof.
  revert acc. induction items as [|[img usage] items IH]; intros [rd ctr] Hr Hv.
  - simpl in Hr. injection Hr as <-. by left.
  - simpl in Hr.
    destruct (next_sequence ctr usage (is_featured self img)) as [sequence ctr'].
    destruct (rename_key self img) as [k'|] eqn:Ek; [|done].
    destruct (IH _ Hr Hv) as [Hacc|(it & Hit & Hkey)].
    + simpl in Hacc. destruct (decide (k' = k)) as [->|Hne].
      * right. exists (img, usage). split; [by left|done].
      * left. by rewrite lookup_insert_ne in Hacc.
    + right. exists it. split; [by right|done].
Qed.

Lemma rename_plan_is_Some self items acc :
  is_Some (rename_plan fs self items acc)
  ↔ Forall (λ it, is_Some (rename_key self it.1)) items.
Proof.
  revert acc. induction items as [|[img usage] items IH]; intros [rd ctr].
  - split; [by constructor|]. by eexists.
  - simpl. destruct (next_sequence ctr usage (is_featured self img)) as [sequence ctr'].
    rewrite Forall_cons. simpl. destruct (rename_key self img) as [k|].
    + rewrite IH. split; [|by intros [_ ?]]. split; [by eexists|done].
    + split; [by intros [? ?]|]. by intros [[? ?] _].
Qed.

(** The entry of an image in the rename map: its name is made with the
    sequence number that the entries before it determine. *)
Lemma rename_plan_lookup self before img usage after r :
  processor_wf self →
  image_usage self = before ++ (img, usage) :: after →
  rename_plan fs self (image_usage self) (∅, ∅) = Some r →
  ∃ k, rename_key self img = Some k
       ∧ r.1 !! k = Some (seo_filename fs img usage (is_featured self img)
                            (sequence_of self before img usage)).
Proof.
  intros (Hroot & Hnodup & Hwf) Husage Hr.
  unfold usage_keys in *. rewrite Husage in *.
  rewrite rename_plan_app in Hr.
  destruct (rename_plan fs self before (∅, ∅)) as [[rd1 ctr1]|] eqn:E1; [|done].
  simpl in Hr.
  pose proof (next_sequence_value ctr1 usage (is_featured self img)) as Hv.
  destruct (next_sequence ctr1 usage (is_featured self img)) as [sequence ctr'].
  destruct (rename_key self img) as [k|] eqn:Ek; [|done].
  exists k. split; [done|].
  erewrite rename_plan_untouched; [|done|].
  - simpl. rewrite lookup_insert_eq. f_equal. f_equal. simpl in Hv. rewrite Hv.
    unfold sequence_of. destruct usage as [|d [|d' usage]]; try done.
    destruct (is_featured self img); [done|].
    pose proof (rename_plan_counters _ _ _ _ d E1) as Hc. simpl in Hc.
    rewrite lookup_empty in Hc. simpl in Hc. by rewrite Hc.
  - intros [img' usage'] Hin Hk'. simpl in Hk'.
    rewrite fmap_app, fmap_cons in Hnodup, Hwf. simpl in Hnodup, Hwf.
    apply NoDup_app in Hnodup as (_ & _ & Hnodup).
    apply NoDup_cons in Hnodup as [Hnotin _].
    apply Forall_app in Hwf as [_ Hwf]. apply Forall_cons in Hwf as [Hwi Hwf].
    assert (img' ∈ after.*1) as Hin'.
    { apply list_elem_of_fmap. by exists (img', usage'). }
    rewrite Forall_forall in Hwf.
    assert (img' = img) as -> by (eapply rename_key_inj; eauto).
    done.
Qed.

End RunFacts.

(** ** Decimal numbers and file names *)

Section NameFacts.
Context `{!UnicodeData}.

Lemma uint_digits_digits u : digits_only (uint_digits u).
Proof. induction u; simpl; by constructor. Qed.

Lemma uint_digits_inj u v : uint_digits u = uint_digits v → u = v.
Proof.
  revert v. induction u; intros v Heq; destruct v; simpl in Heq; try done;
    injection Heq as Heq; f_equal; by apply IHu.
Qed.

Lemma str_of_nat_inj n m : str_of_nat n = str_of_nat m → n = m.
Proof. intros Heq. by apply Unsigned.to_uint_inj, uint_digits_inj. Qed.

Lemma to_uint_leading_zero n u : Nat.to_uint n = D0 u → u = Nil.
Proof.
  intros Hn.
  assert (Nat.to_uint n = unorm (Nat.to_uint n)) as Hnorm.
  { rewrite <- (Unsigned.to_of (Nat.to_uint n)). by rewrite Unsigned.of_to. }
  rewrite Hn in Hnorm. unfold unorm in Hnorm. simpl in Hnorm.
  pose proof (DecimalFacts.nzhead_nonzero u) as Hnz.
  destruct (nzhead u) eqn:E; congruence.
Qed.

Lemma str_of_nat_nonempty n : str_of_nat n ≠ [].
Proof.
  unfold str_of_nat. intros Hnil.
  assert (Nat.to_uint n = Nil) as Hu by (destruct (Nat.to_uint n); done).
  assert (Nat.to_uint n = unorm (Nat.to_uint n)) as Hnorm.
  { rewrite <- (Unsigned.to_of (Nat.to_uint n)). by rewrite Unsigned.of_to. }
  rewrite Hu in Hnorm. done.
Qed.

Lemma format_02d_digits n : digits_only (format_02d n).
Proof.
  unfold format_02d. destruct (length (str_of_nat n) <? 2)%nat.
  - constructor; [done|]. apply uint_digits_digits.
  - apply uint_digits_digits.
Qed.

Lemma format_02d_nonempty n : format_02d n ≠ [].
Proof.
  unfold format_02d. destruct (length (str_of_nat n) <? 2)%nat; [done|].
  apply str_of_nat_nonempty.
Qed.

Lemma format_02d_inj n m : format_02d n = format_02d m → n = m.
Proof.
  assert (∀ a b, (length (str_of_nat a) <? 2)%nat = true →
                 (length (str_of_nat b) <? 2)%nat = false →
                 48 :: str_of_nat a ≠ str_of_nat b) as Hmix.
  { intros a b Ha Hb Heq. apply Nat.ltb_lt in Ha. apply Nat.ltb_ge in Hb.
    unfold str_of_nat in *. destruct (Nat.to_uint b) eqn:Eb; simpl in Heq; try done.
    apply to_uint_leading_zero in Eb as ->. simpl in Hb. lia. }
  unfold format_02d.
  destruct (length (str_of_nat n) <? 2)%nat eqn:En,
           (length (str_of_nat m) <? 2)%nat eqn:Em; intros Heq.
  - injection Heq as Heq. by apply str_of_nat_inj.
  - by apply Hmix in Heq.
  - symmetry in Heq. by apply Hmix in Heq.
  - by apply str_of_nat_inj.
Qed.

(** Digits followed by an extension: the digits are determined. *)
Lemma digits_then_dotted a b e1 e2 :
  digits_only a → digits_only b → dotted e1 → dotted e2 →
  a ++ e1 = b ++ e2 → a = b.
Proof.
  intros Ha. revert b. induction Ha as [|c a Hc Ha IH]; intros b Hb He1 He2 Heq.
  - destruct Hb as [|c b Hc Hb]; [done|]. simpl in Heq.
    destruct He1 as [->|[t ->]]; [done|]. injection Heq as <- _. done.
  - destruct Hb as [|c' b Hc' Hb]; simpl in Heq.
    + destruct He2 as [->|[t ->]]; [done|]. injection Heq as -> _. done.
    + injection Heq as -> Heq. f_equal. by apply IH.
Qed.

Lemma rfind_Some c s i : rfind c s = Some i → s !! i = Some c.
Proof.
  unfold rfind. destruct (list_find (N.eqb c) (reverse s)) as [[j x]|] eqn:E; [|done].
  intros [= <-]. apply list_find_Some in E as (Hj & Hx & _).
  apply Is_true_true, N.eqb_eq in Hx as <-.
  assert (j < length s)%nat as Hlt.
  { apply lookup_lt_Some in Hj. by rewrite length_reverse in Hj. }
  rewrite reverse_lookup in Hj by done.
  by replace (length s - 1 - j)%nat with (length s - S j)%nat by lia.
Qed.

Lemma suffix_dotted p : dotted (suffix p).
Proof.
  unfold suffix. destruct (rfind (chr ".") (name p)) as [i|] eqn:E; [|by left].
  destruct ((0 <? i) && (i <? length (name p) - 1))%nat; [|by left].
  apply rfind_Some in E. right. exists (drop (S i) (name p)).
  by apply drop_S.
Qed.

Lemma lower_dotted e : dotted e → dotted (lower e).
Proof.
  intros [->|[t ->]]; [by left|]. right. exists (lower t).
  unfold lower. simpl. by rewrite ucd_lower_ascii.
Qed.

Lemma extension_dotted p : dotted (lower (suffix p)).
Proof. apply lower_dotted, suffix_dotted. Qed.

Lemma name_infix_differ f1 s1 f2 s2 e1 e2 :
  dotted e1 → dotted e2 →
  (f1 = true ∧ f2 = false) ∨ (f1 = false ∧ f2 = false ∧ s1 ≠ s2) →
  name_infix f1 s1 ++ e1 ≠ name_infix f2 s2 ++ e2.
Proof.
  intros He1 He2 Hcase Heq. unfold name_infix in Heq.
  destruct Hcase as [[-> ->]|(-> & -> & Hne)].
  - destruct (0 <? s2)%nat.
    + simpl in Heq. injection Heq as Heq.
      pose proof (format_02d_digits s2) as Hd. pose proof (format_02d_nonempty s2).
      destruct Hd as [|c ds Hc _]; [done|]. simpl in Heq. injection Heq as <- _. done.
    + destruct He2 as [->|[t ->]]; done.
  - destruct (0 <? s1)%nat eqn:E1, (0 <? s2)%nat eqn:E2.
    + simpl in Heq. injection Heq as Heq.
      apply digits_then_dotted in Heq; auto using format_02d_digits.
      by apply format_02d_inj in Heq.
    + destruct He2 as [->|[t ->]]; done.
    + destruct He1 as [->|[t ->]]; done.
    + apply Nat.ltb_ge in E1, E2. lia.
Qed.

End NameFacts.

(** ** Sequence numbers *)

Example gallery_state_is_analysis :
  outcome (analyze_image_usage (ref_fs gallery_site) gallery_processor) = Ok gallery_state.
Proof. by vm_compute. Qed.

Section SequenceFacts.
Context `{!UnicodeData} (fs : FileSystem).

Lemma inline_images_of_app self d a b :
  inline_images_of self d (a ++ b)
  = inline_images_of self d a ++ inline_images_of self d b.
Proof. unfold inline_images_of. apply filter_app. Qed.

(** An inline image of a document counts for every later entry. *)
Lemma inline_images_of_take self d img (items : list (Path * list Path)) i j :
  items !! i = Some (img, [d]) → is_featured self img = false → (i < j)%nat →
  (length (inline_images_of self d (take i items))
   < length (inline_images_of self d (take j items)))%nat.
Proof.
  intros Hi Hf Hij.
  rewrite <- (take_drop_middle items i (img, [d])) at 2 by done.
  assert (length (take i items) = i) as Hlen.
  { apply length_take_le. apply lookup_lt_Some in Hi. lia. }
  rewrite take_app, Hlen, inline_images_of_app, length_app.
  rewrite take_take. replace (j `min` i)%nat with i by lia.
  destruct (j - i)%nat as [|n] eqn:E; [lia|].
  simpl. unfold inline_images_of at 3. rewrite filter_cons.
  rewrite decide_True by done. simpl. lia.
Qed.

Lemma sequence_of_inline self before img d :
  is_featured self img = false →
  name_infix false (sequence_of self before img [d])
  = sequence_suffix (S (length (inline_images_of self d before))).
Proof.
  intros Hf. unfold sequence_of, name_infix, sequence_suffix. rewrite Hf.
  destruct (length (inline_images_of self d before)) as [|n]; [done|].
  reflexivity.
Qed.

Lemma create_rename_dictionary_Ok self :
  Forall (λ k, is_Some (rename_key self k)) (usage_keys self) →
  ∃ r, rename_plan fs self (image_usage self) (∅, ∅) = Some r
       ∧ outcome (create_rename_dictionary fs self) = Ok r.1.
Proof.
  intros Hall.
  assert (is_Some (rename_plan fs self (image_usage self) (∅, ∅))) as [[rd ctr] Hr].
  { apply rename_plan_is_Some. unfold usage_keys in Hall.
    rewrite Forall_fmap in Hall. eapply Forall_impl; [exact Hall|].
    by intros [? ?]. }
  exists (rd, ctr). split; [done|].
  by rewrite create_rename_dictionary_outcome, Hr.
Qed.

Lemma create_rename_dictionary_inv self dict :
  outcome (create_rename_dictionary fs self) = Ok dict →
  ∃ r, rename_plan fs self (image_usage self) (∅, ∅) = Some r ∧ dict = r.1.
Proof.
  rewrite create_rename_dictionary_outcome.
  destruct (rename_plan fs self (image_usage self) (∅, ∅)) as [[rd ctr]|]; [|done].
  intros [= <-]. by eexists.
Qed.

End SequenceFacts.

Lemma format_02d_below_ten n :
  (n < 10)%nat → format_02d n = [48; 48 + N.of_nat n].
Proof.
  intros Hn. do 10 (destruct n as [|n]; [reflexivity|]). lia.
Qed.

Lemma format_02d_below_hundred n :
  (n < 100)%nat → length (format_02d n) = 2%nat.
Proof.
  intros Hn. do 100 (destruct n as [|n]; [reflexivity|]). lia.
Qed.

(** X25. For every image that is referenced exactly once (its usage list is
    one document) and is not featured, the new file name is the slug of that
    document, the sequence suffix and the lower-cased extension, where the
    image is the [n]-th such image of the document in the insertion order of
    the usage index: no suffix for the first, a hyphen and the decimal
    number padded to two digits ([-02], [-03], ...) for the others. The map
    is produced whenever every used image lies below the input directory. *)
Theorem sequence_numbers_follow_insertion_order `{!UnicodeData} (fs : FileSystem)
    (self : ImageProcessor) (before after : list (Path * list Path))
    (img d : Path) :
  processor_wf self →
  image_usage self = before ++ (img, [d]) :: after →
  is_featured self img = false →
  Forall (λ k, is_Some (rename_key self k)) (usage_keys self) →
  (∃ dict k,
     outcome (create_rename_dictionary fs self) = Ok dict
     ∧ rename_key self img = Some k
     ∧ dict !! k
       = Some (slug_of fs d
               ++ sequence_suffix (S (length (inline_images_of self d before)))
               ++ lower (suffix img)))
  ∧ sequence_suffix 1 = []
  ∧ (∀ n, (2 ≤ n < 10)%nat → sequence_suffix n = [45; 48; 48 + N.of_nat n])
  ∧ (∀ n, (2 ≤ n < 100)%nat → length (sequence_suffix n) = 3%nat).
Proof.
  intros Hwf Husage Hf Hall. split; [|split; [done|split]].
  - destruct (create_rename_dictionary_Ok fs self Hall) as (r & Hr & Hout).
    destruct (rename_plan_lookup fs self before img [d] after r Hwf Husage Hr)
      as (k & Hk & Hlook).
    exists r.1, k. split; [done|]. split; [done|].
    by rewrite Hlook, seo_filename_single, Hf, sequence_of_inline.
  - intros n Hn. unfold sequence_suffix.
    destruct (Nat.eqb_spec n 1); [lia|]. rewrite format_02d_below_ten by lia. done.
  - intros n Hn. unfold sequence_suffix.
    destruct (Nat.eqb_spec n 1); [lia|]. simpl.
    rewrite format_02d_below_hundred by lia. done.
Qed.

Lemma sequence_numbers_follow_insertion_order_witness :
  ∃ dict k,
    outcome (create_rename_dictionary (ref_fs gallery_site) gallery_state) = Ok dict
    ∧ rename_key gallery_state (PurePath "/site/two.jpg") = Some k
    ∧ dict !! k
      = Some (slug_of (ref_fs gallery_site) gallery_md
              ++ sequence_suffix
                   (S (length (inline_images_of gallery_state gallery_md
                                 [(PurePath "/site/one.png", [gallery_md]);
                                  (PurePath "/site/three.gif", [gallery_md])])))
              ++ lower (suffix (PurePath "/site/two.jpg"))).
Proof.
  apply (sequence_numbers_follow_insertion_order (ref_fs gallery_site) gallery_state
           [(PurePath "/site/one.png", [gallery_md]);
            (PurePath "/site/three.gif", [gallery_md])]
           [] (PurePath "/site/two.jpg") gallery_md).
  - apply (bool_decide_unpack _). vm_compute. exact I.
  - reflexivity.
  - vm_compute. reflexivity.
  - apply (bool_decide_unpack _). vm_compute. exact I.
Defined.

Example gallery_names :
  ∃ dict,
    outcome (create_rename_dictionary (ref_fs gallery_site) gallery_state) = Ok dict
    ∧ dict !! lit "one.png" = Some (lit "gallery.png")
    ∧ dict !! lit "three.gif" = Some (lit "gallery-02.gif")
    ∧ dict !! lit "two.jpg" = Some (lit "gallery-03.jpg").
Proof. eexists. split; [by vm_compute|]. repeat split; by vm_compute. Qed.

(** C4 at the failing input: one document shows [a.png] twice and then
    [b.png]. Both pictures are used by that one document only and neither is
    featured, so [a.png] is its first inline image and [b.png] its second:
    the rule gives [post.png] and [post-02.png]. The usage list of [a.png]
    holds the document twice, so the code names it by the multi-use rule
    ([a.png], no sequence number), and [b.png] is counted as the first
    image of the document ([post.png]). *)
Theorem repeated_image_takes_no_sequence_number :
  outcome (analyze_image_usage (ref_fs repeat_site) repeat_processor) = Ok repeat_state
  ∧ image_usage repeat_state
    = [(PurePath "/site/a.png", [repeat_md; repeat_md]);
       (PurePath "/site/b.png", [repeat_md])]
  ∧ remove_dups [repeat_md; repeat_md] = [repeat_md]
  ∧ is_featured repeat_state (PurePath "/site/a.png") = false
  ∧ is_featured repeat_state (PurePath "/site/b.png") = false
  ∧ outcome (create_rename_dictionary (ref_fs repeat_site) repeat_state)
    = Ok {[ lit "a.png" := lit "a.png"; lit "b.png" := lit "post.png" ]}
  ∧ slug_of (ref_fs repeat_site) repeat_md ++ sequence_suffix 1
    ++ lower (suffix (PurePath "/site/a.png")) = lit "post.png"
  ∧ slug_of (ref_fs repeat_site) repeat_md ++ sequence_suffix 2
    ++ lower (suffix (PurePath "/site/b.png")) = lit "post-02.png".
Proof. repeat split; vm_compute; reflexivity. Qed.

(** ** Names within one document *)

Section DistinctNames.
Context `{!UnicodeData} (fs : FileSystem).

Lemma usage_lookup_key self i img usage :
  image_usage self !! i = Some (img, usage) → usage_keys self !! i = Some img.
Proof. intros Hi. unfold usage_keys. by rewrite list_lookup_fmap, Hi. Qed.

Lemma usage_lookup_wf self i img usage :
  processor_wf self → image_usage self !! i = Some (img, usage) → wf_path img.
Proof.
  intros (_ & _ & Hwf) Hi. rewrite Forall_forall in Hwf. apply Hwf.
  apply list_elem_of_lookup. exists i. by eapply usage_lookup_key.
Qed.

Lemma rename_lookup_at self r i img usage :
  processor_wf self →
  rename_plan fs self (image_usage self) (∅, ∅) = Some r →
  image_usage self !! i = Some (img, usage) →
  ∃ k, rename_key self img = Some k
       ∧ r.1 !! k = Some (seo_filename fs img usage (is_featured self img)
                            (sequence_of self (take i (image_usage self)) img usage)).
Proof.
  intros Hwf Hr Hi.
  apply (rename_plan_lookup fs self _ img usage (drop (S i) (image_usage self)) r);
    [done| |done].
  by rewrite take_drop_middle.
Qed.

Lemma sequence_of_differ self i j img1 img2 d :
  image_usage self !! i = Some (img1, [d]) →
  is_featured self img1 = false → is_featured self img2 = false → (i < j)%nat →
  sequence_of self (take i (image_usage self)) img1 [d]
  ≠ sequence_of self (take j (image_usage self)) img2 [d].
Proof.
  intros Hi Hf1 Hf2 Hij. unfold sequence_of. rewrite Hf1, Hf2.
  pose proof (inline_images_of_take self d img1 (image_usage self) i j Hi Hf1 Hij).
  cbv zeta.
  destruct (Nat.ltb_spec 1 (S (length (inline_images_of self d (take i (image_usage self)))))),
           (Nat.ltb_spec 1 (S (length (inline_images_of self d (take j (image_usage self))))));
    lia.
Qed.

Lemma names_differ_ordered self dict i j img1 img2 d :
  processor_wf self →
  image_usage self !! i = Some (img1, [d]) →
  image_usage self !! j = Some (img2, [d]) →
  (i < j)%nat →
  ¬ (is_featured self img1 = true ∧ is_featured self img2 = true) →
  outcome (create_rename_dictionary fs self) = Ok dict →
  ∃ k1 k2 n1 n2,
    rename_key self img1 = Some k1 ∧ rename_key self img2 = Some k2 ∧ k1 ≠ k2
    ∧ dict !! k1 = Some n1 ∧ dict !! k2 = Some n2 ∧ n1 ≠ n2.
Proof.
  intros Hwf Hi Hj Hij Hfeat Hout.
  apply create_rename_dictionary_inv in Hout as (r & Hr & ->).
  destruct (rename_lookup_at self r i img1 [d] Hwf Hr Hi) as (k1 & Hk1 & Hl1).
  destruct (rename_lookup_at self r j img2 [d] Hwf Hr Hj) as (k2 & Hk2 & Hl2).
  exists k1, k2. eexists _, _. repeat split; try done.
  - intros <-.
    assert (img1 = img2) as <-.
    { eapply rename_key_inj; eauto using usage_lookup_wf. }
    destruct Hwf as (_ & Hnodup & _).
    apply usage_lookup_key in Hi, Hj.
    pose proof (NoDup_lookup _ _ _ _ Hnodup Hi Hj). lia.
  - rewrite !seo_filename_single. intros Heq. apply app_inv_head in Heq.
    revert Heq.
    destruct (is_featured self img1) eqn:Hf1, (is_featured self img2) eqn:Hf2.
    + exfalso. by apply Hfeat.
    + apply name_infix_differ; auto using extension_dotted.
    + intros Heq. symmetry in Heq. revert Heq.
      apply name_infix_differ; auto using extension_dotted.
    + apply name_infix_differ; auto using extension_dotted.
      right. repeat split; try done.
      apply sequence_of_differ; done.
Qed.

End DistinctNames.

Section RenameKeys.
Context `{!UnicodeData} (fs : FileSystem).

(** The keys that the loop adds. *)
Lemma rename_plan_keys self items acc r :
  rename_plan fs self items acc = Some r →
  ∃ ks, Forall2 (λ it k, rename_key self it.1 = Some k) items ks
        ∧ dom r.1 = dom acc.1 ∪ list_to_set ks.
Proof.
  revert acc. induction items as [|[img usage] items IH]; intros [rd ctr] Hr.
  - simpl in Hr. injection Hr as <-. exists []. split; [constructor|].
    simpl. by rewrite (right_id_L ∅ (∪)).
  - simpl in Hr.
    destruct (next_sequence ctr usage (is_featured self img)) as [sequence ctr'].
    destruct (rename_key self img) as [k|] eqn:Ek; [|done].
    apply IH in Hr as (ks & Hks & Hdom). exists (k :: ks). split; [by constructor|].
    rewrite Hdom. simpl. rewrite dom_insert_L.
    by rewrite (comm_L (∪) {[k]}), <- (assoc_L (∪)).
Qed.

(** The keys of the rename map. *)
Lemma rename_map_keys self dict :
  processor_wf self →
  outcome (create_rename_dictionary fs self) = Ok dict →
  (∀ k, is_Some (dict !! k)
        ↔ ∃ img, img ∈ usage_keys self ∧ rename_key self img = Some k)
  ∧ size dict = length (image_usage self).
Proof.
  intros (Hroot & Hnodup & Hwf) Hout.
  apply create_rename_dictionary_inv in Hout as ([rd ctr] & Hr & ->). simpl.
  destruct (rename_plan_keys self _ _ _ Hr) as (ks & Hks & Hdom). simpl in Hdom.
  rewrite dom_empty_L, (left_id_L ∅ (∪)) in Hdom.
  assert (∀ k, k ∈ ks ↔ ∃ img, img ∈ usage_keys self ∧ rename_key self img = Some k) as Hmem.
  { intros k. split.
    - intros Hk. apply list_elem_of_lookup in Hk as [i Hi].
      destruct (Forall2_lookup_r _ _ _ _ _ Hks Hi) as ([img usage] & Hit & Hkey).
      exists img. split; [|done]. unfold usage_keys.
      apply list_elem_of_fmap. exists (img, usage). split; [done|].
      apply list_elem_of_lookup. by exists i.
    - intros (img & Himg & Hkey). unfold usage_keys in Himg.
      apply list_elem_of_fmap in Himg as ([img' usage] & -> & Hin).
      apply list_elem_of_lookup in Hin as [i Hi].
      destruct (Forall2_lookup_l _ _ _ _ _ Hks Hi) as (k' & Hk' & Hkey').
      simpl in *. assert (k' = k) as <- by congruence.
      apply list_elem_of_lookup. by exists i. }
  split.
  - intros k. rewrite <- Hmem, <- elem_of_dom, Hdom. apply elem_of_list_to_set.
  - rewrite <- size_dom, Hdom, size_list_to_set.
    + symmetry. by eapply Forall2_length.
    + apply NoDup_alt. intros i j k Hi Hj.
      destruct (Forall2_lookup_r _ _ _ _ _ Hks Hi) as ([img1 u1] & Hi1 & Hk1).
      destruct (Forall2_lookup_r _ _ _ _ _ Hks Hj) as ([img2 u2] & Hi2 & Hk2).
      simpl in *.
      assert (usage_keys self !! i = Some img1) as Hu1
        by (unfold usage_keys; by rewrite list_lookup_fmap, Hi1).
      assert (usage_keys self !! j = Some img2) as Hu2
        by (unfold usage_keys; by rewrite list_lookup_fmap, Hi2).
      assert (img1 = img2) as <-.
      { rewrite Forall_forall in Hwf.
        apply (rename_key_inj self img1 img2 k); try done.
        - apply Hwf. apply list_elem_of_lookup. by exists i.
        - apply Hwf. apply list_elem_of_lookup. by exists j. }
      by eapply NoDup_lookup.
Qed.

End RenameKeys.

(** C1, amended: for every input tree for which the rename map is produced,
    the map has exactly one entry per image of the usage index, under the
    path of the image relative to the input directory, and two different
    images that are each referenced exactly once, both by the same document
    (their usage lists are that one document), and that are not both
    featured, have different keys and different new file names. Names are
    not made unique beyond that. *)
Theorem same_document_names_differ `{!UnicodeData} (fs : FileSystem)
    (self : ImageProcessor) (dict : gmap str str) :
  processor_wf self →
  outcome (create_rename_dictionary fs self) = Ok dict →
  size dict = length (image_usage self)
  ∧ (∀ k, is_Some (dict !! k)
          ↔ ∃ img, img ∈ usage_keys self ∧ rename_key self img = Some k)
  ∧ (∀ i j img1 img2 d,
       image_usage self !! i = Some (img1, [d]) →
       image_usage self !! j = Some (img2, [d]) →
       i ≠ j →
       ¬ (is_featured self img1 = true ∧ is_featured self img2 = true) →
       ∃ k1 k2 n1 n2,
         rename_key self img1 = Some k1 ∧ rename_key self img2 = Some k2 ∧ k1 ≠ k2
         ∧ dict !! k1 = Some n1 ∧ dict !! k2 = Some n2 ∧ n1 ≠ n2).
Proof.
  intros Hwf Hout.
  destruct (rename_map_keys fs self dict Hwf Hout) as [Hkeys Hsize].
  split; [done|]. split; [done|].
  intros i j img1 img2 d Hi Hj Hij Hfeat.
  destruct (Nat.lt_total i j) as [Hlt|[->|Hlt]]; [|done|].
  - by eapply names_differ_ordered.
  - destruct (names_differ_ordered fs self dict j i img2 img1 d)
      as (k2 & k1 & n2 & n1 & ? & ? & ? & ? & ? & ?); try done.
    + by intros [? ?]; apply Hfeat.
    + exists k1, k2, n1, n2. repeat split; try done; congruence.
Qed.

Lemma same_document_names_differ_witness :
  size ({[ lit "one.png" := lit "gallery.png"; lit "three.gif" := lit "gallery-02.gif";
           lit "two.jpg" := lit "gallery-03.jpg" ]} : gmap str str)
  = length (image_usage gallery_state)
  ∧ ∃ k1 k2 n1 n2,
      rename_key gallery_state (PurePath "/site/one.png") = Some k1
      ∧ rename_key gallery_state (PurePath "/site/two.jpg") = Some k2 ∧ k1 ≠ k2
      ∧ ({[ lit "one.png" := lit "gallery.png"; lit "three.gif" := lit "gallery-02.gif";
            lit "two.jpg" := lit "gallery-03.jpg" ]} : gmap str str) !! k1 = Some n1
      ∧ ({[ lit "one.png" := lit "gallery.png"; lit "three.gif" := lit "gallery-02.gif";
            lit "two.jpg" := lit "gallery-03.jpg" ]} : gmap str str) !! k2 = Some n2
      ∧ n1 ≠ n2.
Proof.
  assert (processor_wf gallery_state) as Hwf.
  { apply (bool_decide_unpack _). vm_compute. exact I. }
  assert (outcome (create_rename_dictionary (ref_fs gallery_site) gallery_state)
          = Ok {[ lit "one.png" := lit "gallery.png";
                  lit "three.gif" := lit "gallery-02.gif";
                  lit "two.jpg" := lit "gallery-03.jpg" ]}) as Hout.
  { vm_compute. reflexivity. }
  destruct (same_document_names_differ (ref_fs gallery_site) gallery_state _ Hwf Hout)
    as (Hsize & _ & Hdiff).
  split; [exact Hsize|].
  apply (Hdiff 0%nat 2%nat (PurePath "/site/one.png") (PurePath "/site/two.jpg") gallery_md).
  - reflexivity.
  - reflexivity.
  - lia.
  - intros [Hf _]. vm_compute in Hf. discriminate.
Defined.

(** One document shows two pictures of the same name, each of them twice:
    both are named by the multi-use rule and get the same new name. *)
Example pair_collision :
  outcome (analyze_image_usage (ref_fs pair_site) pair_processor) = Ok pair_state
  ∧ outcome (create_rename_dictionary (ref_fs pair_site) pair_state)
    = Ok {[ lit "a/pic.png" := lit "pic.png"; lit "b/pic.png" := lit "pic.png" ]}.
Proof. split; vm_compute; reflexivity. Qed.

(** ** Orphaned images *)

Example stray_state_is_analysis :
  outcome (analyze_image_usage (ref_fs stray_site)
             (new_processor (PurePath "/site") (PurePath "/out")))
  = Ok stray_state.
Proof. by vm_compute. Qed.

Section OrphanFacts.
Context `{!UnicodeData} (fs : FileSystem).

Lemma split_on_elements sep s x : x ∈ split_on sep s → sep ∉ x.
Proof.
  revert x. induction s as [|c s IH]; intros x Hx; simpl in Hx.
  - apply list_elem_of_singleton in Hx as ->. by intros ?%elem_of_nil.
  - destruct (N.eqb_spec c sep) as [->|Hne].
    + apply elem_of_cons in Hx as [->|Hx]; [by intros ?%elem_of_nil|by apply IH].
    + destruct (split_on sep s) as [|w ws] eqn:E.
      * apply list_elem_of_singleton in Hx as ->.
        intros [?|?%elem_of_nil]%elem_of_cons; done.
      * apply elem_of_cons in Hx as [->|Hx].
        -- intros [?|Hw]%elem_of_cons; [done|]. revert Hw. apply IH. by left.
        -- apply IH. by right.
Qed.

Lemma path_components_wf s : Forall wf_component (path_components s).
Proof.
  apply Forall_forall. intros x Hx. unfold path_components in Hx.
  apply list_elem_of_filter in Hx as [[Hne Hdot] Hx].
  repeat split; try done. by apply split_on_elements in Hx.
Qed.

Lemma PurePath_wf s : wf_path (PurePath s).
Proof. apply path_components_wf. Qed.

Lemma posix_root_relative f : startswith f (lit "/") = false → posix_root f = [].
Proof.
  intros Hf. unfold posix_root. rewrite Hf.
  assert (startswith f (lit "//") = false) as ->; [|done].
  destruct f as [|c f]; [done|].
  change (lit "//") with (47 :: lit "/"). change (lit "/") with [47] in Hf.
  cbn [startswith] in *. destruct (47 =? c); [|done].
  exfalso. destruct f; simpl in Hf; done.
Qed.

Lemma joinpath_relative p f :
  startswith f (lit "/") = false →
  p // f = mkPath (anchor p) (parts p ++ path_components f).
Proof. intros Hf. unfold joinpath. simpl. by rewrite posix_root_relative. Qed.

Lemma joinpath_wf p f : wf_path p → wf_path (p // f).
Proof.
  intros Hp. unfold joinpath. destruct (anchor (PurePath f)).
  - apply Forall_app. split; [done|]. apply path_components_wf.
  - apply PurePath_wf.
Qed.

Lemma rename_key_below self rest :
  rename_key self (mkPath (anchor (input_dir self)) (parts (input_dir self) ++ rest))
  = Some (path_str (mkPath [] rest)).
Proof.
  unfold rename_key, relative_to. simpl. rewrite decide_True by done.
  assert (strip_prefix (parts (input_dir self)) (parts (input_dir self) ++ rest)
          = Some rest) as -> by by apply strip_prefix_Some.
  done.
Qed.

(** Every file that the walk finds is a well-formed path below the input
    directory. *)
Lemma walked_file self root files file :
  wf_path (input_dir self) → walk_ok fs (input_dir self) →
  (root, files) ∈ os_walk fs (input_dir self) → file ∈ files →
  wf_path (root // file) ∧ is_Some (rename_key self (root // file)).
Proof.
  intros Hroot Hwalk Hin Hfile. unfold os_walk in Hin.
  apply list_elem_of_fmap in Hin as ([rel names] & [= -> ->] & Hin).
  unfold walk_ok in Hwalk. rewrite Forall_forall in Hwalk.
  destruct (Hwalk _ Hin) as [Hrel Hnames]. simpl in *.
  rewrite Forall_forall in Hnames.
  rewrite joinpath_relative by by apply Hnames. simpl. split.
  - unfold wf_path. simpl. rewrite !Forall_app. repeat split; try done.
    apply path_components_wf.
  - rewrite <- app_assoc, rename_key_below. by eexists.
Qed.

Lemma find_image_files_ok self img :
  wf_path (input_dir self) → walk_ok fs (input_dir self) →
  img ∈ find_image_files fs self →
  wf_path img ∧ is_Some (rename_key self img).
Proof.
  intros Hroot Hwalk Himg. unfold find_image_files in Himg.
  apply list_elem_of_In, in_flat_map in Himg as ([root files] & Hin & Himg).
  apply list_elem_of_In in Hin. apply list_elem_of_In in Himg.
  apply list_elem_of_fmap in Himg as (file & -> & Hfile).
  apply list_elem_of_filter in Hfile as [_ Hfile].
  by eapply walked_file.
Qed.

(** The loop of [find_orphaned_images]. *)
Lemma find_orphaned_loop self imgs acc :
  Forall (λ img, is_Some (rename_key self img)) imgs →
  outcome (for_each imgs
             (λ orphaned img,
                if bool_decide (img ∈ (image_usage self).*1) then mret orphaned
                else match relative_to img (input_dir self) with
                     | Some relative_path => mret (orphaned ++ [path_str relative_path])
                     | None => raise ValueError
                     end)
             acc)
  = Ok (acc ++ omap (orphan_key self) imgs).
Proof.
  intros Hall. revert acc. induction Hall as [|img imgs [k Hk] _ IH]; intros acc.
  - simpl. by rewrite app_nil_r.
  - cbn [for_each]. rewrite outcome_bind.
    change (omap (orphan_key self) (img :: imgs))
      with (match orphan_key self img with
            | Some y => y :: omap (orphan_key self) imgs
            | None => omap (orphan_key self) imgs
            end).
    unfold orphan_key at 1, usage_keys.
    destruct (bool_decide (img ∈ (image_usage self).*1)).
    + simpl. apply IH.
    + rewrite Hk. unfold rename_key in Hk.
      destruct (relative_to img (input_dir self)) as [r|]; [|done].
      injection Hk as <-. simpl. rewrite IH. by rewrite <- app_assoc.
Qed.

Lemma find_orphaned_images_outcome self :
  wf_path (input_dir self) → walk_ok fs (input_dir self) →
  outcome (find_orphaned_images fs self)
  = Ok (omap (orphan_key self) (remove_dups (find_image_files fs self))).
Proof.
  intros Hroot Hwalk. unfold find_orphaned_images.
  rewrite find_orphaned_loop; [done|].
  apply Forall_forall. intros img Himg. rewrite elem_of_remove_dups in Himg.
  by apply find_image_files_ok in Himg as [_ ?].
Qed.

End OrphanFacts.

(** X27. What the list of orphaned images is, for every input tree for
    which the rename map is produced: it holds exactly the relative paths of
    the discovered image files whose path, as it is written, is no key of
    the usage index, and none of its members is, as a string, a key of the
    rename map. *)
Theorem orphans_are_unused_and_have_no_entry `{!UnicodeData} (fs : FileSystem)
    (self : ImageProcessor) (dict : gmap str str) :
  processor_wf self →
  walk_ok fs (input_dir self) →
  outcome (create_rename_dictionary fs self) = Ok dict →
  ∃ orphans,
    outcome (find_orphaned_images fs self) = Ok orphans
    ∧ (∀ s, s ∈ orphans
            ↔ ∃ img, img ∈ find_image_files fs self ∧ (img ∉ usage_keys self)
                     ∧ rename_key self img = Some s)
    ∧ (∀ s, s ∈ orphans → dict !! s = None).
Proof.
  intros Hwf Hwalk Hout.
  assert (wf_path (input_dir self)) as Hroot by by destruct Hwf.
  eexists. split; [by apply find_orphaned_images_outcome|].
  assert (∀ s, s ∈ omap (orphan_key self) (remove_dups (find_image_files fs self))
               ↔ ∃ img, img ∈ find_image_files fs self ∧ (img ∉ usage_keys self)
                        ∧ rename_key self img = Some s) as Hchar.
  { intros s. rewrite list_elem_of_omap. unfold orphan_key. split.
    - intros (img & Himg & Hs). rewrite elem_of_remove_dups in Himg.
      exists img. destruct (bool_decide_reflect (img ∈ usage_keys self)); done.
    - intros (img & Himg & Hnot & Hs). exists img.
      split; [by rewrite elem_of_remove_dups|].
      by rewrite bool_decide_eq_false_2. }
  split; [done|].
  intros s (img & Himg & Hnot & Hs)%Hchar.
  destruct (dict !! s) as [v|] eqn:Hv; [|done]. exfalso.
  apply create_rename_dictionary_inv in Hout as (r & Hr & ->).
  destruct (rename_plan_dom fs self _ _ r s v Hr Hv) as [Hemp|([img' usage] & Hin & Hk)].
  - simpl in Hemp. by rewrite lookup_empty in Hemp.
  - simpl in Hk.
    assert (img' ∈ usage_keys self) as Hused.
    { unfold usage_keys. apply list_elem_of_fmap. by exists (img', usage). }
    assert (wf_path img') as Hw'.
    { destruct Hwf as (_ & _ & Hw). rewrite Forall_forall in Hw. by apply Hw. }
    assert (wf_path img) as Hw by by eapply find_image_files_ok.
    assert (img = img') as -> by by eapply rename_key_inj.
    done.
Qed.

Lemma orphans_are_unused_and_have_no_entry_witness :
  ∃ orphans,
    outcome (find_orphaned_images (ref_fs stray_site) stray_state) = Ok orphans
    ∧ (∀ s, s ∈ orphans
            ↔ ∃ img, img ∈ find_image_files (ref_fs stray_site) stray_state
                     ∧ (img ∉ usage_keys stray_state)
                     ∧ rename_key stray_state img = Some s)
    ∧ (∀ s, s ∈ orphans
            → ({[ lit "used.png" := lit "post.png" ]} : gmap str str) !! s = None).
Proof.
  apply (orphans_are_unused_and_have_no_entry (ref_fs stray_site) stray_state).
  - apply (bool_decide_unpack _). vm_compute. exact I.
  - apply (bool_decide_unpack _). vm_compute. exact I.
  - vm_compute. reflexivity.
Defined.

Example stray_orphans :
  outcome (find_orphaned_images (ref_fs stray_site) stray_state) = Ok [lit "stray.png"].
Proof. by vm_compute. Qed.

(** C8 at the failing input: a document refers to the picture [img/a.png]
    by the rooted reference [/img/../img/a.png]. The resolver joins a
    rooted reference to the input directory without resolving it (the
    branches for [./] and [../] do resolve), so the usage index holds the
    path with its [..], while the walk finds the same file as
    [/site/img/a.png]: both paths resolve to that file. By resolved path the
    picture is used and the list of orphans is empty; the code compares the
    paths as written, gives the picture an entry in the rename map and
    lists it as orphaned as well. *)
Theorem used_image_listed_as_orphan :
  outcome (analyze_image_usage (ref_fs dotdot_site) dotdot_processor) = Ok dotdot_state
  ∧ usage_keys dotdot_state = [PurePath "/site/img/../img/a.png"]
  ∧ find_image_files (ref_fs dotdot_site) dotdot_state = [PurePath "/site/img/a.png"]
  ∧ fs_resolve (ref_fs dotdot_site) (PurePath "/site/img/../img/a.png")
    = fs_resolve (ref_fs dotdot_site) (PurePath "/site/img/a.png")
  ∧ outcome (create_rename_dictionary (ref_fs dotdot_site) dotdot_state)
    = Ok {[ lit "img/../img/a.png" := lit "post.png" ]}
  ∧ outcome (find_orphaned_images (ref_fs dotdot_site) dotdot_state)
    = Ok [lit "img/a.png"].
Proof. repeat split; vm_compute; reflexivity. Qed.

(** ** Dictionaries of lists *)

Section DefaultDict.
Context {K V : Type} `{EqDecision K}.
Implicit Types (d : list (K * list V)) (k : K) (v : V).

Lemma dd_append_fresh k v d : k ∉ d.*1 → dd_append k v d = d ++ [(k, [v])].
Proof.
  induction d as [|[k' vs] d IH]; intros Hk; [done|]. simpl.
  rewrite fmap_cons, not_elem_of_cons in Hk. destruct Hk as [Hne Hk].
  rewrite decide_False by done. by rewrite IH.
Qed.

Lemma dd_append_keys k v d :
  (dd_append k v d).*1 = if decide (k ∈ d.*1) then d.*1 else d.*1 ++ [k].
Proof.
  induction d as [|[k' vs] d IH]; [done|]. cbn [dd_append].
  destruct (decide (k' = k)) as [->|Hne].
  - rewrite !fmap_cons. cbn [fst]. rewrite decide_True by (by left). done.
  - rewrite !fmap_cons. cbn [fst]. rewrite IH.
    destruct (decide (k ∈ d.*1)) as [Hin|Hin].
    + rewrite decide_True by (by right). done.
    + rewrite decide_False; [done|]. by intros [?|?]%elem_of_cons.
Qed.

Lemma dd_append_NoDup k v d : NoDup d.*1 → NoDup (dd_append k v d).*1.
Proof.
  intros Hd. rewrite dd_append_keys. destruct (decide (k ∈ d.*1)); [done|].
  apply NoDup_app. repeat split; [done| |apply NoDup_singleton].
  intros x Hx ->%list_elem_of_singleton. done.
Qed.

Lemma dd_append_elem_of_keys k v d x :
  x ∈ (dd_append k v d).*1 ↔ x = k ∨ x ∈ d.*1.
Proof.
  rewrite dd_append_keys. destruct (decide (k ∈ d.*1)) as [Hin|Hin].
  - split; [by right|]. by intros [->|?].
  - rewrite elem_of_app, list_elem_of_singleton. tauto.
Qed.

(** An entry after an append is an old entry, possibly longer by the new
    value, or the new entry at the end. *)
Lemma dd_append_lookup k v d i k' vs' :
  dd_append k v d !! i = Some (k', vs') →
  (∃ vs, d !! i = Some (k', vs) ∧ (vs' = vs ∨ vs' = vs ++ [v]))
  ∨ (i = length d ∧ k' = k ∧ vs' = [v]).
Proof.
  revert i. induction d as [|[k0 vs0] d IH]; intros i Hi; simpl in Hi.
  - destruct i; [|done]. injection Hi as <- <-. by right.
  - destruct (decide (k0 = k)) as [->|Hne].
    + destruct i; simpl in Hi.
      * injection Hi as <- <-. left. exists vs0. split; [done|by right].
      * left. exists vs'. split; [done|by left].
    + destruct i; simpl in Hi.
      * injection Hi as <- <-. left. exists vs0. split; [done|by left].
      * destruct (IH _ Hi) as [(vs & Hvs & Hor)|(-> & -> & ->)].
        -- left. by exists vs.
        -- right. done.
Qed.

Lemma dd_append_map {W} (f : V → W) k v d :
  map (λ e : K * list V, (e.1, map f e.2)) (dd_append k v d)
  = dd_append k (f v) (map (λ e : K * list V, (e.1, map f e.2)) d).
Proof.
  induction d as [|[k' vs] d IH]; [done|]. simpl.
  destruct (decide (k' = k)); simpl.
  - by rewrite map_app.
  - by rewrite IH.
Qed.

Lemma record_all_snoc (events : list (K * V)) e d :
  record_all (events ++ [e]) d = dd_append e.1 e.2 (record_all events d).
Proof. unfold record_all. by rewrite foldl_app. Qed.

Lemma record_all_app (a b : list (K * V)) d :
  record_all (a ++ b) d = record_all b (record_all a d).
Proof. unfold record_all. by rewrite foldl_app. Qed.

(** The entries of an index built from nothing: no list is empty, the first
    value of an entry was recorded under its key, and the order of the
    entries is the order in which their first values were recorded. *)
Lemma record_all_order (events : list (K * V)) :
  let index := record_all events [] in
  (∀ i k vs, index !! i = Some (k, vs) → vs ≠ [])
  ∧ (∀ i k v vs, index !! i = Some (k, v :: vs) → ∃ a, events !! a = Some (k, v))
  ∧ (∀ i j k1 v1 vs1 k2 v2 vs2,
       (i < j)%nat →
       index !! i = Some (k1, v1 :: vs1) → index !! j = Some (k2, v2 :: vs2) →
       ∃ a b, (a < b)%nat ∧ events !! a = Some (k1, v1) ∧ events !! b = Some (k2, v2)).
Proof.
  induction events as [|[k v] events (Hne & Hhead & Hord)] using rev_ind.
  - simpl. repeat split; intros; done.
  - rewrite record_all_snoc. simpl. set (index := record_all events []) in *.
    assert (∀ i k' v' vs', dd_append k v index !! i = Some (k', v' :: vs') →
              (∃ vs, index !! i = Some (k', v' :: vs))
              ∨ (i = length index ∧ k' = k ∧ v' = v)) as Hcase.
    { intros i k' v' vs' Hi.
      destruct (dd_append_lookup _ _ _ _ _ _ Hi) as [(vs & Hvs & Hor)|(-> & -> & Hv)].
      - left. destruct vs as [|x vs]; [by apply Hne in Hvs|].
        destruct Hor as [Heq|Heq]; simpl in Heq; injection Heq as -> _; eauto.
      - right. by injection Hv as ->. }
    repeat split.
    + intros i k' vs' Hi.
      destruct (dd_append_lookup _ _ _ _ _ _ Hi) as [(vs & Hvs & [->| ->])|(_ & _ & ->)];
        try done.
      * by eapply Hne.
      * by destruct vs.
    + intros i k' v' vs' Hi.
      destruct (Hcase _ _ _ _ Hi) as [[vs Hvs]|(_ & -> & ->)].
      * destruct (Hhead _ _ _ _ Hvs) as [a Ha]. exists a.
        by apply lookup_app_l_Some.
      * exists (length events). by rewrite list_lookup_middle.
    + intros i j k1 v1 vs1 k2 v2 vs2 Hij Hi Hj.
      destruct (Hcase _ _ _ _ Hi) as [[ws1 Hw1]|(-> & -> & ->)],
               (Hcase _ _ _ _ Hj) as [[ws2 Hw2]|(-> & -> & ->)].
      * destruct (Hord _ _ _ _ _ _ _ _ Hij Hw1 Hw2) as (a & b & Hab & Ha & Hb).
        exists a, b. repeat split; [done|by apply lookup_app_l_Some..].
      * destruct (Hhead _ _ _ _ Hw1) as [a Ha]. exists a, (length events).
        repeat split.
        -- by apply lookup_lt_Some in Ha.
        -- by apply lookup_app_l_Some.
        -- by rewrite list_lookup_middle.
      * apply lookup_lt_Some in Hw2. lia.
      * lia.
Qed.

End DefaultDict.

(** ** The scan *)

Section ScanFacts.
Context `{!UnicodeData} (fs : FileSystem).

Lemma resolve_image_path_root s1 s2 ref d :
  input_dir s1 = input_dir s2 →
  resolve_image_path fs s1 ref d = resolve_image_path fs s2 ref d.
Proof. intros Hroot. unfold resolve_image_path. by rewrite Hroot. Qed.

Lemma resolved_references_root s1 s2 d refs :
  input_dir s1 = input_dir s2 →
  resolved_references fs s1 d refs = resolved_references fs s2 d refs.
Proof.
  intros Hroot. unfold resolved_references. apply flat_map_ext.
  intros ref. by rewrite (resolve_image_path_root s1 s2).
Qed.

Lemma document_references_root s1 s2 d :
  input_dir s1 = input_dir s2 →
  document_references fs s1 d = document_references fs s2 d.
Proof.
  intros Hroot. unfold document_references, featured_reference.
  rewrite !(resolved_references_root s1 s2) by done.
  destruct (first_featured _ _) as [[s| |]|]; try done.
  by rewrite (resolve_image_path_root s1 s2).
Qed.

Lemma resolve_image_path_wf self ref d r :
  wf_path (input_dir self) → resolve_image_path fs self ref d = Some r → wf_path r.
Proof.
  intros Hroot. unfold resolve_image_path.
  destruct (fs_exists fs _); [|done]. intros [= <-].
  destruct (startswith ref "/"); [by apply joinpath_wf|].
  destruct (startswith ref "./" || startswith ref "../"); [apply PurePath_wf|].
  destruct (negb _); [by apply joinpath_wf|apply PurePath_wf].
Qed.

Lemma collect_references {A B} (keep : A → bool) (g : A → B) (l : list A) (acc : list B) :
  foldl (λ images m, if keep m then images ++ [g m] else images) acc l
  = acc ++ map g (filter (λ m, keep m = true) l).
Proof.
  revert acc. induction l as [|m l IH]; intros acc; simpl.
  - by rewrite app_nil_r.
  - rewrite IH, filter_cons. destruct (keep m) eqn:E.
    + rewrite decide_True by done. simpl. by rewrite <- app_assoc.
    + by rewrite decide_False by done.
Qed.

(** The references of a body: all markdown references, then all HTML
    references. *)
Lemma find_images_in_content_split content file_path :
  find_images_in_content content file_path
  = markdown_references content ++ html_references content.
Proof.
  unfold find_images_in_content, markdown_references, html_references.
  rewrite !collect_references. simpl. f_equal.
  - f_equal. apply filter_ext_in. intros m _.
    by destruct (_is_external_url (group m 5)).
  - f_equal. apply filter_ext_in. intros m _.
    by destruct (_is_external_url (group m 10)).
Qed.

Lemma resolved_references_app self d a b :
  resolved_references fs self d (a ++ b)
  = resolved_references fs self d a ++ resolved_references fs self d b.
Proof. unfold resolved_references. apply flat_map_app. Qed.

Lemma recorded_nil self : recorded self self [].
Proof. done. Qed.

Lemma recorded_trans s1 s2 s3 a b :
  recorded s1 s2 a → recorded s2 s3 b → recorded s1 s3 (a ++ b).
Proof.
  intros (Hr1 & Hi1 & Hu1) (Hr2 & Hi2 & Hu2). repeat split.
  - congruence.
  - by rewrite record_all_app, <- Hi1.
  - by rewrite map_app, record_all_app, <- Hu1.
Qed.

Lemma content_loop_recorded self d refs :
  ∃ self',
    outcome (for_each refs
               (λ self '(img_path, ref_type),
                  match resolve_image_path fs self img_path d with
                  | Some resolved_path =>
                      mret (record_content self d resolved_path ref_type img_path)
                  | None => mret self
                  end)
               self) = Ok self'
    ∧ recorded self self' (resolved_references fs self d refs).
Proof.
  revert self. induction refs as [|[img_path ref_type] refs IH]; intros self.
  - exists self. split; [done|apply recorded_nil].
  - cbn [for_each]. rewrite outcome_bind.
    change (resolved_references fs self d ((img_path, ref_type) :: refs))
      with (match resolve_image_path fs self img_path d with
            | Some resolved => [(resolved, (d, ref_type, img_path))]
            | None => []
            end ++ resolved_references fs self d refs).
    destruct (resolve_image_path fs self img_path d) as [r|] eqn:Er; simpl.
    + destruct (IH (record_content self d r ref_type img_path)) as (self' & Hout & Hrec).
      exists self'. split; [done|].
      rewrite (resolved_references_root _ self) in Hrec by done.
      apply (recorded_trans self (record_content self d r ref_type img_path) self'
               [(r, (d, ref_type, img_path))]); [|done].
      done.
    + destruct (IH self) as (self' & Hout & Hrec). by exists self'.
Qed.

Lemma outcome_bind_Ok {A B} out (a : A) (f : A → M B) :
  outcome ((out, Ok a) ≫= f) = outcome (f a).
Proof. by rewrite outcome_bind. Qed.

Lemma analyze_markdown_file_recorded self d self' :
  outcome (analyze_markdown_file fs self d) = Ok self' →
  recorded self self' (document_references fs self d).
Proof.
  unfold analyze_markdown_file. rewrite extract_frontmatter_and_content_run.
  rewrite outcome_bind_Ok. unfold document_references, featured_reference.
  destruct (frontmatter_of fs d) as [fm content]. cbn [fst snd].
  rewrite outcome_bind, find_images_in_content_split.
  rewrite <- resolved_references_app.
  set (refs := markdown_references content ++ html_references content).
  destruct (first_featured fm featured_keys) as [[featured_img|b t|b t]|].
  - destruct (resolve_image_path fs self featured_img d) as [r|] eqn:Er.
    + destruct (content_loop_recorded (record_featured self d r featured_img) d refs)
        as (s2 & Hout & Hrec).
      cbn [outcome mret M_ret snd]. rewrite Hout. intros [= <-].
      rewrite (resolved_references_root _ self) in Hrec by done.
      apply (recorded_trans self (record_featured self d r featured_img) s2
               [(r, (d, lit "featured", featured_img))]); done.
    + destruct (content_loop_recorded self d refs) as (s2 & Hout & Hrec).
      cbn [outcome mret M_ret snd]. rewrite Hout. by intros [= <-].
  - done.
  - done.
  - destruct (content_loop_recorded self d refs) as (s2 & Hout & Hrec).
    cbn [outcome mret M_ret snd]. rewrite Hout. by intros [= <-].
Qed.

Lemma analyze_files_recorded docs self self' :
  outcome (for_each docs (analyze_markdown_file fs) self) = Ok self' →
  recorded self self' (flat_map (document_references fs self) docs).
Proof.
  revert self. induction docs as [|d docs IH]; intros self.
  - simpl. intros [= <-]. apply recorded_nil.
  - cbn [for_each flat_map]. rewrite outcome_bind.
    destruct (outcome (analyze_markdown_file fs self d)) as [s1|] eqn:E1; [|done].
    intros Hrest. apply analyze_markdown_file_recorded in E1.
    apply IH in Hrest. eapply recorded_trans; [done|].
    assert (flat_map (document_references fs self) docs
            = flat_map (document_references fs s1) docs) as ->; [|done].
    apply flat_map_ext. intros. apply document_references_root. by destruct E1.
Qed.

Lemma analyze_image_usage_recorded self self' :
  outcome (analyze_image_usage fs self) = Ok self' →
  recorded self self'
    (flat_map (document_references fs self) (find_markdown_files fs self)).
Proof.
  unfold analyze_image_usage, print. rewrite outcome_bind_Ok. cbv zeta.
  rewrite outcome_bind.
  destruct (outcome (for_each _ _ self)) as [s1|] eqn:E; [|done].
  rewrite outcome_bind_Ok. intros [= <-].
  by apply analyze_files_recorded.
Qed.

End ScanFacts.

(** ** Invariants of the scan *)

Section RecordFacts.
Context {K V : Type} `{EqDecision K}.

Lemma record_all_keys (events : list (K * V)) (index : list (K * list V)) x :
  x ∈ (record_all events index).*1 ↔ x ∈ index.*1 ∨ x ∈ events.*1.
Proof.
  revert index. induction events as [|e events IH]; intros index.
  - simpl. rewrite elem_of_nil. tauto.
  - change (record_all (e :: events) index)
      with (record_all events (dd_append e.1 e.2 index)).
    rewrite IH, dd_append_elem_of_keys, fmap_cons, elem_of_cons. tauto.
Qed.

Lemma record_all_NoDup (events : list (K * V)) (index : list (K * list V)) :
  NoDup index.*1 → NoDup (record_all events index).*1.
Proof.
  revert index. induction events as [|e events IH]; intros index Hd; [done|].
  apply IH. by apply dd_append_NoDup.
Qed.

Lemma record_all_map {W} (f : V → W) (events : list (K * V)) (index : list (K * list V)) :
  map (λ e : K * list V, (e.1, map f e.2)) (record_all events index)
  = record_all (map (λ e : K * V, (e.1, f e.2)) events)
               (map (λ e : K * list V, (e.1, map f e.2)) index).
Proof.
  revert index. induction events as [|e events IH]; intros index; [done|].
  change (record_all (e :: events) index)
    with (record_all events (dd_append e.1 e.2 index)).
  rewrite IH, dd_append_map. done.
Qed.

End RecordFacts.

Section ScanInvariants.
Context `{!UnicodeData} (fs : FileSystem).

Lemma resolved_references_elem self d refs e :
  e ∈ resolved_references fs self d refs →
  ∃ ref, ref ∈ refs ∧ resolve_image_path fs self ref.1 d = Some e.1
         ∧ e.2 = (d, ref.2, ref.1).
Proof.
  unfold resolved_references. intros He.
  apply list_elem_of_In, in_flat_map in He as (ref & Href & He).
  exists ref. split; [by apply list_elem_of_In|].
  destruct (resolve_image_path fs self ref.1 d) as [r|]; [|done].
  destruct He as [<-|[]]. done.
Qed.

Lemma featured_reference_elem self d e :
  e ∈ featured_reference fs self d →
  ∃ raw, resolve_image_path fs self raw d = Some e.1 ∧ e.2 = (d, lit "featured", raw).
Proof.
  unfold featured_reference.
  destruct (first_featured _ _) as [[s| |]|]; try by intros ?%elem_of_nil.
  destruct (resolve_image_path fs self s d) as [r|] eqn:E; [|by intros ?%elem_of_nil].
  intros ->%list_elem_of_singleton. by exists s.
Qed.

(** Every recorded reference of a document names that document and a
    well-formed image path. *)
Lemma document_references_elem self d e :
  wf_path (input_dir self) → e ∈ document_references fs self d →
  wf_path e.1 ∧ ref_document e = d.
Proof.
  intros Hroot. unfold document_references. rewrite !elem_of_app.
  intros [He|[He|He]].
  - apply featured_reference_elem in He as (raw & Hr & He).
    split; [by eapply resolve_image_path_wf|]. unfold ref_document. by rewrite He.
  - apply resolved_references_elem in He as (ref & _ & Hr & He).
    split; [by eapply resolve_image_path_wf|]. unfold ref_document. by rewrite He.
  - apply resolved_references_elem in He as (ref & _ & Hr & He).
    split; [by eapply resolve_image_path_wf|]. unfold ref_document. by rewrite He.
Qed.

Lemma recorded_wf self self' events :
  processor_wf self → recorded self self' events →
  Forall (λ e, wf_path e.1) events → processor_wf self'.
Proof.
  intros (Hroot & Hnodup & Hwf) (Hr & _ & Hu) Hev. unfold processor_wf, usage_keys in *.
  rewrite Hr, Hu. split; [done|]. split; [by apply record_all_NoDup|].
  apply Forall_forall. intros x [Hx|Hx]%record_all_keys.
  - rewrite Forall_forall in Hwf. by apply Hwf.
  - rewrite <- list_fmap_compose in Hx. apply list_elem_of_fmap in Hx as (e & -> & He).
    rewrite Forall_forall in Hev. by apply Hev.
Qed.

(** The scan keeps the state well formed. *)
Lemma analyze_image_usage_wf self self' :
  processor_wf self → outcome (analyze_image_usage fs self) = Ok self' →
  processor_wf self'.
Proof.
  intros Hwf Hout. apply analyze_image_usage_recorded in Hout.
  eapply recorded_wf; [done..|].
  apply Forall_forall. intros e He.
  apply list_elem_of_In, in_flat_map in He as (d & _ & He).
  apply list_elem_of_In in He. destruct Hwf as (Hroot & _).
  by apply document_references_elem in He as [? _].
Qed.

Lemma new_processor_wf input output :
  wf_path input → processor_wf (new_processor input output).
Proof. intros Hin. repeat split; [done|constructor|constructor]. Qed.

(** After the scan of a new processor the usage index lists, for every
    image, the documents of its recorded references. *)
Lemma analyze_image_usage_lockstep input output self' :
  outcome (analyze_image_usage fs (new_processor input output)) = Ok self' →
  image_usage self'
  = map (λ e : Path * list (Path * str * str), (e.1, map (λ v, v.1.1) e.2))
        (image_references self').
Proof.
  intros (_ & Hi & Hu)%analyze_image_usage_recorded.
  rewrite Hi, Hu. simpl. by rewrite (record_all_map (λ v : Path * str * str, v.1.1)).
Qed.

End ScanInvariants.

(** ** Markdown references before HTML references *)

Section ReferenceOrder.
Context `{!UnicodeData} (fs : FileSystem).

Lemma markdown_references_kind content :
  Forall (λ ref, ref.2 = lit "markdown") (markdown_references content).
Proof. unfold markdown_references. apply Forall_forall. by intros ref (m & -> & _)%list_elem_of_fmap. Qed.

Lemma html_references_kind content :
  Forall (λ ref, ref.2 = lit "html") (html_references content).
Proof. unfold html_references. apply Forall_forall. by intros ref (m & -> & _)%list_elem_of_fmap. Qed.

Lemma resolved_references_kind self d refs kind :
  Forall (λ ref, ref.2 = kind) refs →
  Forall (λ e, ref_kind e = kind) (resolved_references fs self d refs).
Proof.
  intros Hrefs. apply Forall_forall. intros e He.
  apply resolved_references_elem in He as (ref & Href & _ & He).
  rewrite Forall_forall in Hrefs. unfold ref_kind. rewrite He. by apply Hrefs.
Qed.

Lemma featured_reference_kind self d :
  Forall (λ e, ref_kind e = lit "featured") (featured_reference fs self d).
Proof.
  apply Forall_forall. intros e (raw & _ & He)%featured_reference_elem.
  unfold ref_kind. by rewrite He.
Qed.

Lemma document_references_document self d e :
  e ∈ document_references fs self d → ref_document e = d.
Proof.
  unfold document_references. rewrite !elem_of_app. unfold ref_document.
  intros [He|[He|He]].
  - apply featured_reference_elem in He as (raw & _ & ->). done.
  - apply resolved_references_elem in He as (ref & _ & _ & ->). done.
  - apply resolved_references_elem in He as (ref & _ & _ & ->). done.
Qed.

(** In three blocks of kinds featured, markdown and HTML, no HTML reference
    comes before a markdown reference. *)
Lemma blocks_order (F MD HT : list (Path * (Path * str * str))) a b e1 e2 :
  Forall (λ e, ref_kind e = lit "featured") F →
  Forall (λ e, ref_kind e = lit "markdown") MD →
  Forall (λ e, ref_kind e = lit "html") HT →
  (a < b)%nat →
  (F ++ MD ++ HT) !! a = Some e1 → (F ++ MD ++ HT) !! b = Some e2 →
  ref_kind e1 = lit "html" → ref_kind e2 = lit "markdown" → False.
Proof.
  intros HF HMD HHT Hab Ha Hb Hk1 Hk2.
  rewrite Forall_forall in HF, HMD, HHT.
  apply lookup_app_Some in Ha as [Ha|[Hla Ha]].
  { apply list_elem_of_lookup_2, HF in Ha. rewrite Hk1 in Ha. done. }
  apply lookup_app_Some in Ha as [Ha|[Hla' Ha]].
  { apply list_elem_of_lookup_2, HMD in Ha. rewrite Hk1 in Ha. done. }
  apply lookup_app_Some in Hb as [Hb|[Hlb Hb]].
  { apply lookup_lt_Some in Hb. lia. }
  apply lookup_app_Some in Hb as [Hb|[Hlb' Hb]].
  { apply lookup_lt_Some in Hb. lia. }
  apply list_elem_of_lookup_2, HHT in Hb. rewrite Hk2 in Hb. done.
Qed.

Lemma document_references_order self d a b e1 e2 :
  (a < b)%nat →
  document_references fs self d !! a = Some e1 →
  document_references fs self d !! b = Some e2 →
  ref_kind e1 = lit "html" → ref_kind e2 = lit "markdown" → False.
Proof.
  unfold document_references. apply blocks_order.
  - apply featured_reference_kind.
  - apply resolved_references_kind, markdown_references_kind.
  - apply resolved_references_kind, html_references_kind.
Qed.

(** Over the whole scan no HTML reference of a document is recorded before
    a markdown reference of the same document. *)
Lemma scan_order self docs a b e1 e2 :
  NoDup docs → (a < b)%nat →
  flat_map (document_references fs self) docs !! a = Some e1 →
  flat_map (document_references fs self) docs !! b = Some e2 →
  ref_document e1 = ref_document e2 →
  ref_kind e1 = lit "html" → ref_kind e2 = lit "markdown" → False.
Proof.
  intros Hnodup. revert a b.
  induction Hnodup as [|d docs Hd Hnodup IH]; intros a b Hab Ha Hb Hdoc Hk1 Hk2; [done|].
  cbn [flat_map] in Ha, Hb.
  apply lookup_app_Some in Ha as [Ha|[Hla Ha]];
    apply lookup_app_Some in Hb as [Hb|[Hlb Hb]].
  - by eapply document_references_order.
  - apply list_elem_of_lookup_2, document_references_document in Ha.
    apply list_elem_of_lookup_2, list_elem_of_In, in_flat_map in Hb as (d' & Hd' & Hb).
    apply list_elem_of_In in Hd'.
    apply list_elem_of_In, document_references_document in Hb.
    apply Hd. congruence.
  - apply lookup_lt_Some in Hb. lia.
  - apply (IH (a - length (document_references fs self d))%nat
              (b - length (document_references fs self d))%nat); try done. lia.
Qed.

End ReferenceOrder.

(** X26. The references of a body are all its markdown references followed
    by all its HTML references; the scan of a new processor records the
    references document by document in that order (the featured image, the
    markdown references, the HTML references); so an image whose first
    reference is a markdown reference of a document precedes, in the usage
    index, every image whose first reference is an HTML reference of the
    same document. For two such images that are referenced exactly once and
    not featured, the rename map built from that state names both after the
    document, and the sequence number in the name of the markdown image is
    the smaller one. *)
Theorem markdown_references_numbered_before_html `{!UnicodeData} (fs : FileSystem)
    (input output : Path) (self' : ImageProcessor) (dict : gmap str str) :
  wf_path input →
  NoDup (find_markdown_files fs (new_processor input output)) →
  outcome (analyze_image_usage fs (new_processor input output)) = Ok self' →
  outcome (create_rename_dictionary fs self') = Ok dict →
  (∀ content file_path,
     find_images_in_content content file_path
     = markdown_references content ++ html_references content)
  ∧ image_references self'
    = record_all (flat_map (document_references fs (new_processor input output))
                           (find_markdown_files fs (new_processor input output))) []
  ∧ (∀ i j img_m img_h d raw_m raw_h refs_m refs_h,
       image_references self' !! i = Some (img_m, (d, lit "markdown", raw_m) :: refs_m) →
       image_references self' !! j = Some (img_h, (d, lit "html", raw_h) :: refs_h) →
       (i < j)%nat)
  ∧ (∀ i j img_m img_h d raw_m raw_h,
       image_references self' !! i = Some (img_m, [(d, lit "markdown", raw_m)]) →
       image_references self' !! j = Some (img_h, [(d, lit "html", raw_h)]) →
       is_featured self' img_m = false → is_featured self' img_h = false →
       ∃ k_m k_h,
         rename_key self' img_m = Some k_m ∧ rename_key self' img_h = Some k_h
         ∧ dict !! k_m
           = Some (slug_of fs d
                   ++ sequence_suffix
                        (S (length (inline_images_of self' d (take i (image_usage self')))))
                   ++ lower (suffix img_m))
         ∧ dict !! k_h
           = Some (slug_of fs d
                   ++ sequence_suffix
                        (S (length (inline_images_of self' d (take j (image_usage self')))))
                   ++ lower (suffix img_h))
         ∧ (S (length (inline_images_of self' d (take i (image_usage self'))))
            < S (length (inline_images_of self' d (take j (image_usage self')))))%nat).
Proof.
  intros Hinput Hnodup Hout Hdict.
  pose proof (analyze_image_usage_lockstep fs _ _ _ Hout) as Hlock.
  pose proof (analyze_image_usage_recorded fs _ _ Hout) as (_ & Hrefs & _).
  pose proof (analyze_image_usage_wf fs _ _ (new_processor_wf input output Hinput) Hout)
    as Hwf.
  simpl in Hrefs.
  assert (∀ i j img_m img_h d raw_m raw_h refs_m refs_h,
            image_references self' !! i = Some (img_m, (d, lit "markdown", raw_m) :: refs_m) →
            image_references self' !! j = Some (img_h, (d, lit "html", raw_h) :: refs_h) →
            (i < j)%nat) as Horder.
  { intros i j img_m img_h d raw_m raw_h refs_m refs_h Hi Hj.
    destruct (Nat.lt_total i j) as [Hlt|[->|Hlt]]; [done| |].
    - rewrite Hi in Hj. by injection Hj.
    - exfalso. rewrite Hrefs in Hi, Hj.
      destruct (record_all_order
                  (flat_map (document_references fs (new_processor input output))
                     (find_markdown_files fs (new_processor input output))))
        as (_ & _ & Hord).
      destruct (Hord _ _ _ _ _ _ _ _ Hlt Hj Hi) as (a & b & Hab & Ha & Hb).
      by eapply (scan_order fs _ _ a b _ _ Hnodup Hab Ha Hb). }
  split; [apply find_images_in_content_split|]. split; [done|]. split; [done|].
  intros i j img_m img_h d raw_m raw_h Hi Hj Hfm Hfh.
  assert (image_usage self' !! i = Some (img_m, [d])) as Hui.
  { rewrite Hlock, list_lookup_fmap, Hi. done. }
  assert (image_usage self' !! j = Some (img_h, [d])) as Huj.
  { rewrite Hlock, list_lookup_fmap, Hj. done. }
  apply create_rename_dictionary_inv in Hdict as (r & Hr & ->).
  destruct (rename_lookup_at fs self' r i img_m [d] Hwf Hr Hui) as (k_m & Hkm & Hlm).
  destruct (rename_lookup_at fs self' r j img_h [d] Hwf Hr Huj) as (k_h & Hkh & Hlh).
  rewrite seo_filename_single, Hfm, sequence_of_inline in Hlm by done.
  rewrite seo_filename_single, Hfh, sequence_of_inline in Hlh by done.
  exists k_m, k_h. repeat split; [done..|].
  assert (i < j)%nat as Hij by by eapply Horder.
  pose proof (inline_images_of_take self' d img_m (image_usage self') i j Hui Hfm Hij).
  lia.
Qed.

Lemma markdown_references_numbered_before_html_witness :
  ∃ k_m k_h,
    rename_key gallery_state (PurePath "/site/three.gif") = Some k_m
    ∧ rename_key gallery_state (PurePath "/site/two.jpg") = Some k_h
    ∧ ({[ lit "one.png" := lit "gallery.png"; lit "three.gif" := lit "gallery-02.gif";
          lit "two.jpg" := lit "gallery-03.jpg" ]} : gmap str str) !! k_m
      = Some (slug_of (ref_fs gallery_site) gallery_md
              ++ sequence_suffix
                   (S (length (inline_images_of gallery_state gallery_md
                                 (take 1 (image_usage gallery_state)))))
              ++ lower (suffix (PurePath "/site/three.gif")))
    ∧ ({[ lit "one.png" := lit "gallery.png"; lit "three.gif" := lit "gallery-02.gif";
          lit "two.jpg" := lit "gallery-03.jpg" ]} : gmap str str) !! k_h
      = Some (slug_of (ref_fs gallery_site) gallery_md
              ++ sequence_suffix
                   (S (length (inline_images_of gallery_state gallery_md
                                 (take 2 (image_usage gallery_state)))))
              ++ lower (suffix (PurePath "/site/two.jpg")))
    ∧ (S (length (inline_images_of gallery_state gallery_md
                    (take 1 (image_usage gallery_state))))
       < S (length (inline_images_of gallery_state gallery_md
                      (take 2 (image_usage gallery_state)))))%nat.
Proof.
  assert (wf_path (PurePath "/site")) as Hin.
  { apply (bool_decide_unpack _). vm_compute. exact I. }
  assert (NoDup (find_markdown_files (ref_fs gallery_site)
                   (new_processor (PurePath "/site") (PurePath "/out")))) as Hnodup.
  { apply (bool_decide_unpack _). vm_compute. exact I. }
  assert (outcome (create_rename_dictionary (ref_fs gallery_site) gallery_state)
          = Ok {[ lit "one.png" := lit "gallery.png";
                  lit "three.gif" := lit "gallery-02.gif";
                  lit "two.jpg" := lit "gallery-03.jpg" ]}) as Hdict.
  { vm_compute. reflexivity. }
  destruct (markdown_references_numbered_before_html (ref_fs gallery_site)
              (PurePath "/site") (PurePath "/out") gallery_state _ Hin Hnodup
              gallery_state_is_analysis Hdict) as (_ & _ & _ & Hnames).
  apply (Hnames 1%nat 2%nat (PurePath "/site/three.gif") (PurePath "/site/two.jpg")
           gallery_md (lit "./three.gif") (lit "./two.jpg")).
  - reflexivity.
  - reflexivity.
  - vm_compute. reflexivity.
  - vm_compute. reflexivity.
Defined.

(** C10 at the failing input: one document shows [h.png] in an HTML tag and
    then, twice, [m.png] in markdown syntax. The scanner returns the two
    markdown references before the HTML reference, and [m.png] comes first
    in the usage index. Both pictures are used by that one document only,
    so numbering the markdown references before the HTML ones gives
    [post.png] to [m.png] and [post-02.png] to [h.png]. The usage list of
    [m.png] holds the document twice, so the code gives it no sequence
    number and names it [m.png], and the picture of the HTML tag is numbered
    as the first image of the document ([post.png]). *)
Theorem html_image_numbered_before_repeated_markdown_image :
  find_images_in_content
    (lit "<img src='./h.png'> ![m](./m.png) ![again](./m.png)") mixed_md
  = [(lit "./m.png", lit "markdown"); (lit "./m.png", lit "markdown");
     (lit "./h.png", lit "html")]
  ∧ outcome (analyze_image_usage (ref_fs mixed_site) mixed_processor) = Ok mixed_state
  ∧ image_usage mixed_state
    = [(PurePath "/site/m.png", [mixed_md; mixed_md]);
       (PurePath "/site/h.png", [mixed_md])]
  ∧ remove_dups [mixed_md; mixed_md] = [mixed_md]
  ∧ outcome (create_rename_dictionary (ref_fs mixed_site) mixed_state)
    = Ok {[ lit "m.png" := lit "m.png"; lit "h.png" := lit "post.png" ]}
  ∧ slug_of (ref_fs mixed_site) mixed_md ++ sequence_suffix 1
    ++ lower (suffix (PurePath "/site/m.png")) = lit "post.png"
  ∧ slug_of (ref_fs mixed_site) mixed_md ++ sequence_suffix 2
    ++ lower (suffix (PurePath "/site/h.png")) = lit "post-02.png".
Proof. repeat split; vm_compute; reflexivity. Qed.

(** In the text the HTML tag comes second, in the index it comes last. *)
Example gallery_order :
  find_images_in_content
    (lit "![a](./one.png) <img src='./two.jpg'> ![c](./three.gif)") gallery_md
  = [(lit "./one.png", lit "markdown"); (lit "./three.gif", lit "markdown");
     (lit "./two.jpg", lit "html")]
  ∧ usage_keys gallery_state
    = [PurePath "/site/one.png"; PurePath "/site/three.gif"; PurePath "/site/two.jpg"].
Proof. split; by vm_compute. Qed.

(** * Further properties of the code *)

(** ** The slug deriver on every input *)

Section SlugExtras.
Context `{!UnicodeData}.

Lemma slugify_shaped x : slug_shaped (_slugify x).
Proof. rewrite slugify_eq_steps. apply slug_finish_shaped. Qed.

Lemma slugify_ascii_text x : ascii_text (_slugify x).
Proof.
  destruct (slugify_shaped x) as (_ & Hch & _).
  eapply Forall_impl; [exact Hch|]. apply slug_char_ascii.
Qed.

Lemma drop_while_all p s : Forall (λ c, p c = true) s → drop_while p s = [].
Proof. induction 1 as [|a s Ha _ IH]; [done|]. simpl. by rewrite Ha. Qed.

Lemma strip_where_all p s : Forall (λ c, p c = true) s → strip_where p s = [].
Proof.
  intros Hs. unfold strip_where, lstrip_where, rstrip_where.
  by rewrite (drop_while_all p s).
Qed.

Lemma ascii_lower_alnum c : ascii_alnum (ascii_lower c) = ascii_alnum c.
Proof.
  unfold ascii_lower. destruct (ascii_upper_letter c) eqn:E; [|done]. revert E.
  unfold ascii_alnum, ascii_upper_letter, ascii_lower_letter, ascii_digit. cp_cases.
Qed.

(** Text of Basic Latin without a letter or digit has no slug of its own. *)
Lemma slug_finish_no_alnum s :
  Forall (λ c, ascii_alnum c = false) s → slug_finish slug_keep s = lit "untitled".
Proof.
  intros Hs. unfold slug_finish.
  rewrite strip_where_all; [done|].
  apply Forall_forall. intros c Hc.
  assert (c = 45) as ->; [|done].
  apply (squeeze_from_elem _ 45) in Hc as [->|[Hc _]]; [done|].
  apply (squeeze_from_elem _ 45) in Hc as [->|[Hc Hws]]; [done|].
  apply list_elem_of_filter in Hc as [Hk Hc].
  rewrite Forall_forall in Hs. specialize (Hs c Hc).
  unfold slug_keep in Hk. apply orb_false_iff in Hws as [Hsp Hu].
  rewrite Hs, Hsp, Hu in Hk. simpl in Hk. by apply N.eqb_eq in Hk.
Qed.

End SlugExtras.

(** X1. Whatever the text and whatever the Unicode tables, the slug is not
    empty, consists of Basic Latin letters, digits and hyphens only, has no
    two hyphens in a row and neither starts nor ends with a hyphen. *)
Theorem slugify_gives_a_slug `{!UnicodeData} (text : str) :
  slug_shaped (_slugify text).
Proof. apply slugify_shaped. Qed.

(** X2. On text of Basic Latin the slug deriver is idempotent. *)
Theorem slugify_idempotent_on_basic_latin `{!UnicodeData} (text : str) :
  ascii_text text → _slugify (_slugify text) = _slugify text.
Proof. apply slugify_idempotent_ascii. Qed.

Lemma slugify_idempotent_on_basic_latin_witness :
  ascii_text (lit "My First Blog Post")
  ∧ _slugify (_slugify (lit "My First Blog Post")) = _slugify (lit "My First Blog Post").
Proof.
  assert (ascii_text (lit "My First Blog Post")) as Ha by ascii_literal.
  split; [exact Ha|].
  exact (slugify_idempotent_on_basic_latin (lit "My First Blog Post") Ha).
Defined.

(** X3. For every text, slugifying a slug only lowers its capital letters,
    so the second application reaches a fixed point: a third one changes
    nothing. *)
Theorem slugify_stable_after_two `{!UnicodeData} (text : str) :
  _slugify (_slugify text) = map ascii_lower (_slugify text)
  ∧ _slugify (_slugify (_slugify text)) = _slugify (_slugify text).
Proof.
  split; [apply slugify_twice|].
  apply slugify_idempotent_ascii, slugify_ascii_text.
Qed.

(** X4. Text of Basic Latin without a letter or a digit (the empty text,
    white space, punctuation) gets the fallback slug. *)
Theorem slugify_fallback `{!UnicodeData} (text : str) :
  ascii_text text → Forall (λ c, ascii_alnum c = false) text →
  _slugify text = lit "untitled".
Proof.
  intros Ha Hn. rewrite (slugify_ascii text Ha).
  apply slug_finish_no_alnum, strip_where_Forall, Forall_fmap.
  eapply Forall_impl; [exact Hn|]. intros c Hc. simpl. by rewrite ascii_lower_alnum.
Qed.

Lemma slugify_fallback_witness :
  ascii_text (lit " -_!@# ")
  ∧ Forall (λ c, ascii_alnum c = false) (lit " -_!@# ")
  ∧ _slugify (lit " -_!@# ") = lit "untitled".
Proof.
  assert (ascii_text (lit " -_!@# ")) as Ha by ascii_literal.
  assert (Forall (λ c, ascii_alnum c = false) (lit " -_!@# ")) as Hn
    by (by repeat constructor).
  split; [exact Ha|]. split; [exact Hn|].
  exact (slugify_fallback (lit " -_!@# ") Ha Hn).
Defined.

(** ** What the scanner's patterns match *)

Section RegexSound.

Lemma first_down_Some {A} (f : nat → option A) lo k r :
  first_down f lo k = Some r → ∃ j, (lo ≤ j ≤ k)%nat ∧ f j = Some r.
Proof.
  induction k as [|k IH]; simpl.
  - destruct lo; simpl; [|done]. destruct (f 0%nat) eqn:E; [|done].
    intros [= <-]. exists 0%nat. split; [lia|done].
  - destruct (Nat.ltb_spec (S k) lo); [done|]. destruct (f (S k)) eqn:E.
    + intros [= <-]. exists (S k). split; [lia|done].
    + intros Hr. destruct (IH Hr) as (j & Hj & Hf). exists j. split; [lia|done].
Qed.

Lemma span_take p s j :
  (j ≤ span p s)%nat → Forall (λ c, p c = true) (take j s) ∧ length (take j s) = j.
Proof.
  revert j. induction s as [|c s IH]; intros j Hj; simpl in Hj.
  - assert (j = 0%nat) as -> by lia. done.
  - destruct j as [|j]; [done|]. destruct (p c) eqn:E; [|lia].
    destruct (IH j) as [Hall Hlen]; [lia|]. simpl. split; [by constructor|by rewrite Hlen].
Qed.

(** A match splits a prefix of the subject into one piece per item, each
    piece inside the class of its item and at least as long as the item
    demands. *)
Lemma match_here_sound re s ms rest :
  match_here re s = Some (ms, rest) →
  s = concat ms ++ rest
  ∧ Forall2 (λ it m, Forall (λ c, re_class it c = true) m ∧ (re_min it ≤ length m)%nat)
            re ms.
Proof.
  revert s ms rest. induction re as [|it re IH]; intros s ms rest; simpl.
  - intros [= <- <-]. split; [done|constructor].
  - intros Hm. apply first_down_Some in Hm as (j & Hj & Hf).
    destruct (match_here re (drop j s)) as [[ms' rest']|] eqn:E; [|done].
    injection Hf as <- <-. apply IH in E as [Hs Hall].
    destruct (span_take (re_class it) s j) as [Hcl Hlen].
    { destruct (re_max it); lia. }
    split.
    + simpl. by rewrite <- app_assoc, <- Hs, take_drop.
    + constructor; [|done]. split; [done|]. rewrite Hlen. lia.
Qed.

Lemma finditer_from_elem re s skip m :
  m ∈ finditer_from re s skip → ∃ s' rest, match_here re s' = Some (m, rest).
Proof.
  revert skip. induction s as [|c s IH]; intros skip Hm; simpl in Hm.
  - by apply elem_of_nil in Hm.
  - destruct skip as [|k]; [|by eapply IH].
    destruct (match_here re (c :: s)) as [[ms rest]|] eqn:E; [|by eapply IH].
    apply elem_of_cons in Hm as [->|Hm]; [by eauto|by eapply IH].
Qed.

(** The group of a match that wraps item [i] of the pattern. *)
Lemma finditer_group re s m i it :
  m ∈ finditer re s → re !! i = Some it →
  Forall (λ c, re_class it c = true) (group m i) ∧ (re_min it ≤ length (group m i))%nat.
Proof.
  intros (s' & rest & Hm)%finditer_from_elem Hit.
  apply match_here_sound in Hm as [_ Hall].
  destruct (Forall2_lookup_l _ _ _ _ _ Hall Hit) as (x & Hx & Hp).
  unfold group. by rewrite Hx.
Qed.

Lemma finditer_from_skip_all re s skip :
  (length s ≤ skip)%nat → finditer_from re s skip = [].
Proof.
  revert skip. induction s as [|c s IH]; intros skip Hs; [done|].
  simpl in *. destruct skip as [|k]; [lia|]. apply IH. lia.
Qed.

(** A pattern that starts with a character the subject does not hold
    matches nowhere. *)
Lemma match_here_first_char c re s :
  (∀ s', s = c :: s' → False) → match_here (re_char c :: re) s = None.
Proof.
  intros Hs. simpl.
  assert (span (N.eqb c) s = 0%nat) as ->; [|done].
  destruct s as [|a s]; [done|]. simpl. destruct (N.eqb_spec c a) as [->|]; [|done].
  exfalso. by eapply Hs.
Qed.

Lemma finditer_from_absent c re s skip :
  c ∉ s → finditer_from (re_char c :: re) s skip = [].
Proof.
  revert skip. induction s as [|a s IH]; intros skip Hc; [done|].
  cbn [finditer_from]. destruct skip as [|k].
  - rewrite match_here_first_char.
    + apply IH. intros ?. apply Hc. by right.
    + intros s' [= <- _]. apply Hc. by left.
  - apply IH. intros ?. apply Hc. by right.
Qed.

(** One literal character, then the rest of the pattern. *)
Lemma match_here_char c re s :
  match_here (re_char c :: re) (c :: s)
  = match match_here re s with
    | Some (ms, rest) => Some ([c] :: ms, rest)
    | None => None
    end.
Proof.
  cbn [match_here re_char re_class re_max re_min span]. rewrite N.eqb_refl.
  cbn [Nat.min first_down Nat.ltb Nat.leb drop take].
  change (drop 0 s) with s. change (take 0 s) with (@nil N).
  by destruct (match_here re s) as [[ms rest]|].
Qed.

(** A greedy item whose class ends where the next literal begins takes the
    whole run. *)
Lemma match_here_run p lo re run s ms rest :
  Forall (λ c, p c = true) run → (lo ≤ length run)%nat →
  span p s = 0%nat →
  match_here re s = Some (ms, rest) →
  match_here (ReItem p lo None :: re) (run ++ s) = Some (run :: ms, rest).
Proof.
  intros Hrun Hlo Hs Hm. cbn [match_here re_class re_max re_min].
  assert (span p (run ++ s) = length run) as ->.
  { clear Hlo. induction Hrun as [|a run Ha _ IH]; [done|]. simpl. by rewrite Ha, IH. }
  apply first_down_hit; [done|].
  by rewrite drop_app_length, take_app_length, Hm.
Qed.

End RegexSound.

(** X5. Whatever the body, every reference the scanner returns is local
    (it starts with none of [http://], [https://], [//], [data:]), its
    target is not empty, a markdown target holds no closing parenthesis and
    an HTML target no quote. *)
Theorem content_references_are_local (content : str) (file_path : Path) :
  Forall (λ r : str * str,
            _is_external_url r.1 = false ∧ (0 < length r.1)%nat
            ∧ (r.2 = lit "markdown" ∧ chr ")" ∉ r.1
               ∨ r.2 = lit "html" ∧ Forall (λ c, c ∉ quotes) r.1))
         (find_images_in_content content file_path).
Proof.
  rewrite find_images_in_content_split. apply Forall_app. split.
  - apply Forall_forall. intros r Hr. unfold markdown_references in Hr.
    apply list_elem_of_fmap in Hr as (m & -> & Hm).
    apply list_elem_of_filter in Hm as [Hext Hm].
    destruct (finditer_group md_pattern content m 5
                (re_plus (λ c, negb (c =? chr ")"))) Hm eq_refl) as [Hcl Hlen].
    simpl in *. split; [done|]. split; [lia|]. left. split; [done|].
    intros Hin. rewrite Forall_forall in Hcl. specialize (Hcl _ Hin).
    by rewrite N.eqb_refl in Hcl.
  - apply Forall_forall. intros r Hr. unfold html_references in Hr.
    apply list_elem_of_fmap in Hr as (m & -> & Hm).
    apply list_elem_of_filter in Hm as [Hext Hm].
    destruct (finditer_group html_pattern content m 10
                (re_plus (λ c, negb (in_chars quotes c))) Hm eq_refl) as [Hcl Hlen].
    simpl in *. split; [done|]. split; [lia|]. right. split; [done|].
    eapply Forall_impl; [exact Hcl|]. intros c Hc Hin. simpl in Hc.
    unfold in_chars in Hc. by rewrite bool_decide_eq_true_2 in Hc.
Qed.

(** The markdown pattern on an image written out. *)
Lemma match_here_md_image alt target rest :
  chr "]" ∉ alt → chr ")" ∉ target → (0 < length target)%nat →
  match_here md_pattern (lit "![" ++ alt ++ lit "](" ++ target ++ lit ")" ++ rest)
  = Some ([lit "!"; lit "["; alt; lit "]"; lit "("; target; lit ")"], rest).
Proof.
  intros Halt Htarget Hlen.
  change md_pattern with
    (re_char (chr "!") :: re_char (chr "[")
     :: ReItem (λ c, negb (c =? chr "]")) 0 None
     :: re_char (chr "]") :: re_char (chr "(")
     :: ReItem (λ c, negb (c =? chr ")")) 1 None
     :: [re_char (chr ")")]).
  change (lit "![" ++ alt ++ lit "](" ++ target ++ lit ")" ++ rest)
    with (chr "!" :: chr "[" :: alt ++ chr "]" :: chr "(" :: target ++ chr ")" :: rest).
  rewrite !match_here_char.
  assert (∀ x (t : str), x ∉ t → Forall (λ c, negb (c =? x) = true) t) as Hclass.
  { intros x t Hx. apply Forall_forall. intros c Hc.
    destruct (N.eqb_spec c x) as [->|]; done. }
  rewrite (match_here_run _ 0 _ alt _
             [lit "]"; lit "("; target; lit ")"] rest); [done|by apply Hclass|lia| |].
  { reflexivity. }
  rewrite !match_here_char.
  rewrite (match_here_run _ 1 _ target _ [lit ")"] rest); [done|by apply Hclass|lia| |].
  { reflexivity. }
  by rewrite match_here_char.
Qed.

(** X6. An image written in markdown syntax is read back: for an
    alternative text without a closing bracket and a non-empty target
    without a closing parenthesis, neither holding [<], the scanner returns
    exactly the target, unless the target is external. *)
Theorem markdown_image_is_found (alt target : str) (file_path : Path) :
  chr "]" ∉ alt → chr ")" ∉ target → (0 < length target)%nat →
  chr "<" ∉ alt ++ target →
  find_images_in_content (lit "![" ++ alt ++ lit "](" ++ target ++ lit ")") file_path
  = if _is_external_url target then [] else [(target, lit "markdown")].
Proof.
  intros Halt Htarget Hlen Hlt.
  rewrite find_images_in_content_split.
  assert (html_references (lit "![" ++ alt ++ lit "](" ++ target ++ lit ")") = []) as ->.
  { unfold html_references, finditer.
    change html_pattern with (re_char (chr "<") :: tail html_pattern).
    rewrite finditer_from_absent; [done|].
    change (lit "![" ++ alt ++ lit "](" ++ target ++ lit ")")
      with (chr "!" :: chr "[" :: alt ++ chr "]" :: chr "(" :: target ++ [chr ")"]).
    intros Hin.
    apply elem_of_cons in Hin as [Hin|Hin]; [by vm_compute in Hin|].
    apply elem_of_cons in Hin as [Hin|Hin]; [by vm_compute in Hin|].
    apply elem_of_app in Hin as [Hin|Hin]; [apply Hlt, elem_of_app; by left|].
    apply elem_of_cons in Hin as [Hin|Hin]; [by vm_compute in Hin|].
    apply elem_of_cons in Hin as [Hin|Hin]; [by vm_compute in Hin|].
    apply elem_of_app in Hin as [Hin|Hin]; [apply Hlt, elem_of_app; by right|].
    apply list_elem_of_singleton in Hin. by vm_compute in Hin. }
  rewrite app_nil_r. unfold markdown_references, finditer.
  pose proof (match_here_md_image alt target [] Halt Htarget Hlen) as Hm.
  rewrite app_nil_r in Hm.
  change (lit "![" ++ alt ++ lit "](" ++ target ++ lit ")")
    with (chr "!" :: (chr "[" :: alt ++ lit "](" ++ target ++ lit ")")) in *.
  set (s' := chr "[" :: alt ++ lit "](" ++ target ++ lit ")") in *.
  cbn [finditer_from]. rewrite Hm.
  rewrite finditer_from_skip_all by (cbn [length]; lia).
  rewrite filter_cons, filter_nil.
  destruct (_is_external_url target) eqn:E.
  - rewrite decide_False; [done|]. cbn beta. unfold group. simpl. by rewrite E.
  - rewrite decide_True; [done|]. cbn beta. unfold group. simpl. by rewrite E.
Qed.

Lemma markdown_image_is_found_witness :
  find_images_in_content (lit "![" ++ lit "a cat" ++ lit "](" ++ lit "./cat.png" ++ lit ")")
    (PurePath "/site/post.md")
  = [(lit "./cat.png", lit "markdown")].
Proof.
  apply (markdown_image_is_found (lit "a cat") (lit "./cat.png") (PurePath "/site/post.md")).
  - by apply (bool_decide_unpack _).
  - by apply (bool_decide_unpack _).
  - simpl. lia.
  - by apply (bool_decide_unpack _).
Defined.

(** ** The scan: what it records and when it fails *)

Section RecordValues.
Context {K V : Type} `{EqDecision K}.

Lemma dd_append_values (k : K) (v : V) d k' vs' :
  (k', vs') ∈ dd_append k v d →
  (k', vs') ∈ d ∨ (k' = k ∧ ∃ vs0, vs' = vs0 ++ [v] ∧ (vs0 = [] ∨ (k, vs0) ∈ d)).
Proof.
  induction d as [|[k0 vs0] d IH]; simpl.
  - intros [= -> ->]%list_elem_of_singleton. right. split; [done|].
    exists []. split; [done|by left].
  - destruct (decide (k0 = k)) as [->|Hne].
    + intros [[= -> ->]|Hin]%elem_of_cons.
      * right. split; [done|]. exists vs0. split; [done|]. right. by left.
      * left. by right.
    + intros [[= -> ->]|Hin]%elem_of_cons; [left; by left|].
      destruct (IH Hin) as [?|(-> & vs1 & -> & [->|?])].
      * left. by right.
      * right. split; [done|]. exists []. split; [done|by left].
      * right. split; [done|]. exists vs1. split; [done|]. right. by right.
Qed.

(** Every list of an index built from nothing is not empty and holds only
    values recorded under its key. *)
Lemma record_all_values (events : list (K * V)) k vs :
  (k, vs) ∈ record_all events [] → vs ≠ [] ∧ ∀ v, v ∈ vs → (k, v) ∈ events.
Proof.
  revert k vs. induction events as [|e events IH] using rev_ind; intros k vs.
  - by intros ?%elem_of_nil.
  - rewrite record_all_snoc. destruct e as [k0 v0]. simpl.
    intros [Hin|(-> & vs0 & -> & Hvs0)]%dd_append_values.
    + destruct (IH _ _ Hin) as [Hne Hall]. split; [done|].
      intros v Hv. apply elem_of_app. left. by apply Hall.
    + split; [by destruct vs0|]. intros v [Hv|Hv]%elem_of_app.
      * destruct Hvs0 as [->|Hin]; [by apply elem_of_nil in Hv|].
        apply elem_of_app. left. by apply (IH _ _ Hin).
      * apply list_elem_of_singleton in Hv as ->. apply elem_of_app. right. by left.
Qed.

End RecordValues.

Section ScanExtras.
Context `{!UnicodeData} (fs : FileSystem).

Lemma resolve_image_path_exists self ref d r :
  resolve_image_path fs self ref d = Some r → fs_exists fs r = true.
Proof.
  unfold resolve_image_path.
  match goal with |- context [if fs_exists fs ?x then Some ?x else None] =>
    destruct (fs_exists fs x) eqn:E end; [|done].
  by intros [= <-].
Qed.

Lemma document_references_exists self d e :
  e ∈ document_references fs self d → fs_exists fs e.1 = true ∧ ref_document e = d.
Proof.
  unfold document_references. rewrite !elem_of_app. intros [He|[He|He]].
  - apply featured_reference_elem in He as (raw & Hr & He).
    split; [by eapply resolve_image_path_exists|]. unfold ref_document. by rewrite He.
  - apply resolved_references_elem in He as (ref & _ & Hr & He).
    split; [by eapply resolve_image_path_exists|]. unfold ref_document. by rewrite He.
  - apply resolved_references_elem in He as (ref & _ & Hr & He).
    split; [by eapply resolve_image_path_exists|]. unfold ref_document. by rewrite He.
Qed.

(** The scan of one document fails exactly with the exception of its
    featured value. *)
Lemma analyze_markdown_file_outcome self d :
  match featured_failure fs d with
  | Some e => outcome (analyze_markdown_file fs self d) = Raise e
  | None => ∃ self', outcome (analyze_markdown_file fs self d) = Ok self'
                     ∧ input_dir self' = input_dir self
  end.
Proof.
  unfold featured_failure, analyze_markdown_file.
  rewrite extract_frontmatter_and_content_run, outcome_bind_Ok.
  destruct (frontmatter_of fs d) as [fm content]. cbn [fst snd].
  rewrite outcome_bind.
  set (refs := find_images_in_content content d).
  destruct (first_featured fm featured_keys) as [[featured_img|b t|b t]|].
  - destruct (resolve_image_path fs self featured_img d) as [r|].
    + destruct (content_loop_recorded fs (record_featured self d r featured_img) d refs)
        as (s2 & Hout & Hrec & _).
      exists s2. cbn [outcome mret M_ret snd]. by rewrite Hout.
    + destruct (content_loop_recorded fs self d refs) as (s2 & Hout & Hrec & _).
      exists s2. cbn [outcome mret M_ret snd]. by rewrite Hout.
  - done.
  - done.
  - destruct (content_loop_recorded fs self d refs) as (s2 & Hout & Hrec & _).
    exists s2. cbn [outcome mret M_ret snd]. by rewrite Hout.
Qed.

Lemma analyze_files_outcome docs self :
  match first_failure fs docs with
  | Some e => outcome (for_each docs (analyze_markdown_file fs) self) = Raise e
  | None => ∃ self', outcome (for_each docs (analyze_markdown_file fs) self) = Ok self'
  end.
Proof.
  revert self. induction docs as [|d docs IH]; intros self.
  - by eexists.
  - cbn [for_each first_failure]. rewrite outcome_bind.
    pose proof (analyze_markdown_file_outcome self d) as Hd.
    destruct (featured_failure fs d) as [e|].
    + by rewrite Hd.
    + destruct Hd as (s1 & -> & _). apply IH.
Qed.

Lemma analyze_image_usage_outcome self :
  match first_failure fs (find_markdown_files fs self) with
  | Some e => outcome (analyze_image_usage fs self) = Raise e
  | None => ∃ self', outcome (analyze_image_usage fs self) = Ok self'
  end.
Proof.
  unfold analyze_image_usage, print. rewrite outcome_bind_Ok. cbv zeta.
  rewrite outcome_bind.
  pose proof (analyze_files_outcome (find_markdown_files fs self) self) as Hf.
  destruct (first_failure fs (find_markdown_files fs self)) as [e|].
  - by rewrite Hf.
  - destruct Hf as [s1 ->]. rewrite outcome_bind_Ok. by eexists.
Qed.

(** The scan raises nothing but the two exceptions of [startswith]. *)
Lemma first_failure_kind docs e :
  first_failure fs docs = Some e → e = AttributeError ∨ e = TypeError.
Proof.
  induction docs as [|d docs IH]; [done|]. simpl. unfold featured_failure.
  destruct (first_featured _ _) as [[s|b t|b t]|]; try done.
  - intros [= <-]. by left.
  - intros [= <-]. by right.
Qed.

Lemma first_failure_None docs :
  first_failure fs docs = None ↔ Forall (λ d, featured_failure fs d = None) docs.
Proof.
  induction docs as [|d docs IH]; simpl.
  - split; [constructor|done].
  - rewrite Forall_cons. destruct (featured_failure fs d) as [e|].
    + split; [done|]. by intros [? _].
    + rewrite IH. split; [done|]. by intros [_ ?].
Qed.

(** What the usage index holds after the scan of a new processor. *)
Lemma usage_index_after_scan_facts input output self' :
  outcome (analyze_image_usage fs (new_processor input output)) = Ok self' →
  Forall (λ entry : Path * list Path,
            fs_exists fs entry.1 = true ∧ (0 < length entry.2)%nat
            ∧ Forall (λ d, d ∈ find_markdown_files fs (new_processor input output))
                     entry.2)
         (image_usage self').
Proof.
  intros (_ & _ & Hu)%analyze_image_usage_recorded. rewrite Hu. simpl.
  apply Forall_forall. intros [img docs] Hin.
  apply record_all_values in Hin as [Hne Hall].
  assert (∀ d, d ∈ docs →
            fs_exists fs img = true
            ∧ d ∈ find_markdown_files fs (new_processor input output)) as Hdocs.
  { intros d Hd. specialize (Hall d Hd).
    apply list_elem_of_fmap in Hall as (e & [= -> ->] & He).
    apply list_elem_of_In, in_flat_map in He as (d' & Hd' & He).
    apply list_elem_of_In in Hd'. apply list_elem_of_In in He.
    apply document_references_exists in He as [Hex <-]. done. }
  simpl. split; [|split].
  - destruct docs as [|d docs]; [done|]. apply (Hdocs d). by left.
  - destruct docs; [done|simpl; lia].
  - apply Forall_forall. intros d Hd. by apply Hdocs.
Qed.

End ScanExtras.

(** X7. A reference that starts with a slash and resolves names an
    existing path below the input directory, whatever the input directory
    and the document: its relative path is the reference without its
    leading slashes, so it has a key in the rename map. *)
Theorem rooted_reference_stays_below_input_dir `{!UnicodeData} (fs : FileSystem)
    (self : ImageProcessor) (reference : str) (markdown_file r : Path) :
  startswith reference (lit "/") = true →
  resolve_image_path fs self reference markdown_file = Some r →
  fs_exists fs r = true
  ∧ relative_to r (input_dir self)
    = Some (mkPath [] (path_components (lstrip_where (in_chars (lit "/")) reference))).
Proof.
  intros Hstart Hr. split; [by eapply resolve_image_path_exists|].
  unfold resolve_image_path in Hr. rewrite Hstart in Hr.
  destruct (fs_exists fs _); [|done]. injection Hr as <-.
  rewrite joinpath_relative.
  - unfold relative_to. simpl. rewrite decide_True by done.
    assert (strip_prefix (parts (input_dir self))
              (parts (input_dir self)
               ++ path_components (lstrip_where (in_chars (lit "/")) reference))
            = Some (path_components (lstrip_where (in_chars (lit "/")) reference))) as ->
      by by apply strip_prefix_Some.
    done.
  - unfold lstrip_where.
    destruct (drop_while (in_chars (lit "/")) reference) as [|c s] eqn:E; [done|].
    assert (in_chars (lit "/") c = false) as Hc.
    { apply (drop_while_head _ reference). by rewrite E. }
    change (lit "/") with [47] in *. cbn [startswith].
    destruct (N.eqb_spec 47 c) as [<-|]; [|done]. exfalso.
    unfold in_chars in Hc. rewrite bool_decide_eq_true_2 in Hc; [done|by left].
Qed.

Lemma rooted_reference_stays_below_input_dir_witness :
  relative_to (PurePath "/site/used.png") (PurePath "/site")
  = Some (mkPath [] [lit "used.png"]).
Proof.
  apply (rooted_reference_stays_below_input_dir (ref_fs stray_site) stray_state
           (lit "/used.png") (PurePath "/site/post.md") (PurePath "/site/used.png")).
  - reflexivity.
  - vm_compute. reflexivity.
Defined.

(** X8. The scan fails exactly when some markdown file has, as its featured
    image, a true value that is no text, and it fails with the exception of
    the first such file: [TypeError] for a binary value, [AttributeError]
    for any other; otherwise it returns. Unreadable or unparseable files
    never make it fail. *)
Theorem scan_fails_on_non_text_featured_value `{!UnicodeData} (fs : FileSystem)
    (self : ImageProcessor) :
  (∀ e, outcome (analyze_image_usage fs self) = Raise e
        ↔ first_failure fs (find_markdown_files fs self) = Some e)
  ∧ ((∃ self', outcome (analyze_image_usage fs self) = Ok self')
     ↔ Forall (λ d, featured_failure fs d = None) (find_markdown_files fs self))
  ∧ (∀ e, first_failure fs (find_markdown_files fs self) = Some e
          ↔ ∃ before d after,
              find_markdown_files fs self = before ++ d :: after
              ∧ Forall (λ d', featured_failure fs d' = None) before
              ∧ featured_failure fs d = Some e).
Proof.
  split; [|split].
  - intros e. pose proof (analyze_image_usage_outcome fs self) as Hf.
    destruct (first_failure fs (find_markdown_files fs self)) as [e'|].
    + rewrite Hf. split; congruence.
    + destruct Hf as [s1 ->]. split; congruence.
  - rewrite <- first_failure_None.
    pose proof (analyze_image_usage_outcome fs self) as Hf.
    destruct (first_failure fs (find_markdown_files fs self)) as [e'|].
    + rewrite Hf. split; [by intros [? ?]|done].
    + split; [done|]. intros _. exact Hf.
  - intros e. generalize (find_markdown_files fs self). intros docs.
    induction docs as [|d docs IH]; simpl.
    + split; [done|]. intros (before & d & after & Heq & _). by destruct before.
    + destruct (featured_failure fs d) as [e'|] eqn:E.
      * split.
        -- intros [= <-]. exists [], d, docs. by repeat split.
        -- intros ([|d' before] & d0 & after & Heq & Hbefore & Hd0).
           ++ injection Heq as <- <-. congruence.
           ++ injection Heq as <- _. apply Forall_cons in Hbefore as [? _]. congruence.
      * rewrite IH. split.
        -- intros (before & d0 & after & -> & Hbefore & Hd0).
           exists (d :: before), d0, after. repeat split; [|done]. by constructor.
        -- intros ([|d' before] & d0 & after & Heq & Hbefore & Hd0).
           ++ injection Heq as <- <-. congruence.
           ++ injection Heq as <- ->. apply Forall_cons in Hbefore as [_ ?].
              by exists before, d0, after.
Qed.

(** X9. After the scan of a new processor every image of the usage index
    exists, its list of users is not empty, and every user is one of the
    markdown files found below the input directory. *)
Theorem usage_index_after_scan `{!UnicodeData} (fs : FileSystem)
    (input output : Path) (self' : ImageProcessor) :
  outcome (analyze_image_usage fs (new_processor input output)) = Ok self' →
  Forall (λ entry : Path * list Path,
            fs_exists fs entry.1 = true ∧ (0 < length entry.2)%nat
            ∧ Forall (λ d, d ∈ find_markdown_files fs (new_processor input output))
                     entry.2)
         (image_usage self').
Proof. apply usage_index_after_scan_facts. Qed.

Lemma usage_index_after_scan_witness :
  Forall (λ entry : Path * list Path,
            fs_exists (ref_fs stray_site) entry.1 = true ∧ (0 < length entry.2)%nat
            ∧ Forall (λ d, d ∈ find_markdown_files (ref_fs stray_site)
                                 (new_processor (PurePath "/site") (PurePath "/out")))
                     entry.2)
         (image_usage stray_state).
Proof.
  apply (usage_index_after_scan (ref_fs stray_site) (PurePath "/site") (PurePath "/out")
           stray_state).
  exact stray_state_is_analysis.
Defined.

(** X10. After the scan of a new processor the usage index and the
    reference index go in lockstep: the same images in the same order, and
    the users of an image are the documents of its recorded references, one
    per reference. *)
Theorem usage_index_mirrors_references `{!UnicodeData} (fs : FileSystem)
    (input output : Path) (self' : ImageProcessor) :
  outcome (analyze_image_usage fs (new_processor input output)) = Ok self' →
  image_usage self'
  = map (λ e : Path * list (Path * str * str), (e.1, map (λ v, v.1.1) e.2))
        (image_references self').
Proof. apply analyze_image_usage_lockstep. Qed.

Lemma usage_index_mirrors_references_witness :
  image_usage gallery_state
  = map (λ e : Path * list (Path * str * str), (e.1, map (λ v, v.1.1) e.2))
        (image_references gallery_state).
Proof.
  apply (usage_index_mirrors_references (ref_fs gallery_site) (PurePath "/site")
           (PurePath "/out") gallery_state).
  exact gallery_state_is_analysis.
Defined.

(** ** The rename map: when it exists, its keys and its names *)

Example cover_state_is_analysis :
  outcome (analyze_image_usage (ref_fs cover_site)
             (new_processor (PurePath "/site") (PurePath "/out")))
  = Ok cover_state.
Proof. vm_compute. reflexivity. Qed.

Example shared_state_is_analysis :
  outcome (analyze_image_usage (ref_fs shared_site)
             (new_processor (PurePath "/") (PurePath "/out")))
  = Ok shared_state.
Proof. vm_compute. reflexivity. Qed.

Section RenameExtras.
Context `{!UnicodeData} (fs : FileSystem).

Lemma rename_key_is_Some self img :
  is_Some (rename_key self img) ↔ is_Some (relative_to img (input_dir self)).
Proof. unfold rename_key. apply fmap_is_Some. Qed.

Lemma create_rename_dictionary_cases self :
  (outcome (create_rename_dictionary fs self) = Raise ValueError
   ∧ Exists (λ img, relative_to img (input_dir self) = None) (usage_keys self))
  ∨ ((∃ dict, outcome (create_rename_dictionary fs self) = Ok dict)
     ∧ Forall (λ img, is_Some (relative_to img (input_dir self))) (usage_keys self)).
Proof.
  rewrite create_rename_dictionary_outcome.
  destruct (rename_plan fs self (image_usage self) (∅, ∅)) as [[rd ctr]|] eqn:E.
  - right. split; [by eexists|].
    assert (is_Some (rename_plan fs self (image_usage self) (∅, ∅))) as Hs by by eexists.
    apply rename_plan_is_Some in Hs. unfold usage_keys. apply Forall_fmap.
    eapply Forall_impl; [exact Hs|]. intros [img usage] Hk. by apply rename_key_is_Some.
  - left. split; [done|].
    destruct (decide (Exists (λ img, relative_to img (input_dir self) = None)
                        (usage_keys self))) as [Hex|Hn]; [done|].
    exfalso. apply not_Exists_Forall in Hn; [|apply _].
    assert (is_Some (rename_plan fs self (image_usage self) (∅, ∅))) as [r Hr].
    { apply rename_plan_is_Some. unfold usage_keys in Hn. rewrite Forall_fmap in Hn.
      eapply Forall_impl; [exact Hn|]. intros [img usage] Hk. simpl in *.
      apply rename_key_is_Some. by destruct (relative_to img (input_dir self)). }
    congruence.
Qed.

Lemma slug_of_shaped d : slug_shaped (slug_of fs d).
Proof.
  unfold slug_of, _extract_slug_from_file.
  rewrite extract_frontmatter_and_content_run, outcome_bind_Ok.
  destruct (frontmatter_of fs d) as [fm c].
  destruct (fm !! lit "slug"); [apply slugify_shaped|].
  destruct (fm !! lit "title"); apply slugify_shaped.
Qed.

Lemma digits_slug_chars s : digits_only s → Forall (λ c, slug_char c = true) s.
Proof.
  intros Hs. eapply Forall_impl; [exact Hs|]. intros c Hc. simpl in *.
  unfold slug_char, ascii_alnum. by rewrite Hc, !orb_true_r.
Qed.

(** Every generated name is a base of slug characters followed by the
    lower-cased extension of the original. *)
Lemma seo_filename_form img usage featured sequence :
  ∃ base, seo_filename fs img usage featured sequence = base ++ lower (suffix img)
          ∧ (0 < length base)%nat ∧ Forall (λ c, slug_char c = true) base.
Proof.
  destruct (decide (length usage = 1%nat)) as [Hlen|Hlen].
  - destruct usage as [|d [|]]; try done. rewrite seo_filename_single.
    exists (slug_of fs d ++ name_infix featured sequence).
    destruct (slug_of_shaped d) as (Hne & Hch & _).
    split; [by rewrite <- app_assoc|]. split.
    + rewrite length_app. destruct (slug_of fs d); [done|simpl; lia].
    + apply Forall_app. split; [done|]. unfold name_infix.
      destruct featured; [by repeat constructor|].
      destruct (0 <? sequence)%nat; [|constructor].
      apply Forall_app. split; [by repeat constructor|].
      apply digits_slug_chars, format_02d_digits.
  - rewrite seo_filename_multi by done. exists (_slugify (stem img)).
    destruct (slugify_shaped (stem img)) as (Hne & Hch & _).
    split; [done|]. split; [|done]. destruct (_slugify (stem img)); [done|simpl; lia].
Qed.

Lemma filter_all {A} (Q : A → Prop) `{∀ x, Decision (Q x)} (l : list A) :
  Forall Q l → filter Q l = l.
Proof.
  induction 1 as [|a l Ha _ IH]; [done|]. by rewrite filter_cons, decide_True, IH.
Qed.

(** Joining the key of an image to the input directory gives the image. *)
Lemma rename_key_joined self img k :
  wf_path img → rename_key self img = Some k → input_dir self // k = img.
Proof.
  intros Hwf (r & Hr & ->)%rename_key_Some.
  apply relative_to_Some in Hr as (Ha & Hp & Hn).
  destruct r as [ra rest], img as [a ps]. simpl in *. subst ra ps.
  unfold wf_path in Hwf. simpl in Hwf. apply Forall_app in Hwf as [_ Hrest].
  destruct rest as [|x rest].
  - change (path_str (mkPath [] [])) with (lit ".").
    unfold joinpath. simpl. by rewrite Ha.
  - change (path_str (mkPath [] (x :: rest))) with (join_with (lit "/") (x :: rest)).
    assert (Forall (λ c, chr "/" ∉ c) (x :: rest)) as Hsl.
    { eapply Forall_impl; [exact Hrest|]. by intros c (_ & _ & ?). }
    rewrite joinpath_relative.
    + unfold path_components. rewrite split_on_join by done.
      rewrite filter_all; [by rewrite Ha|].
      eapply Forall_impl; [exact Hrest|]. by intros c (? & ? & _).
    + apply Forall_cons in Hrest as [(Hne & _ & Hx) _].
      destruct x as [|c x]; [done|].
      assert (c ≠ 47) as Hc by (intros ->; apply Hx; by left).
      change (lit "/") with [47].
      destruct rest; cbn [join_with app startswith];
        by destruct (N.eqb_spec 47 c) as [Heq|].
Qed.

End RenameExtras.

(** X11. Building the rename map ends with [ValueError] exactly when some
    image of the usage index does not lie below the input directory;
    otherwise it returns a map. *)
Theorem rename_map_fails_outside_input_dir `{!UnicodeData} (fs : FileSystem)
    (self : ImageProcessor) :
  (outcome (create_rename_dictionary fs self) = Raise ValueError
   ↔ Exists (λ img, relative_to img (input_dir self) = None) (usage_keys self))
  ∧ ((∃ dict, outcome (create_rename_dictionary fs self) = Ok dict)
     ↔ Forall (λ img, is_Some (relative_to img (input_dir self))) (usage_keys self)).
Proof.
  destruct (create_rename_dictionary_cases fs self) as [[Hr Hex]|[[dict Hok] Hall]].
  - split; split; try done.
    + intros [dict Hd]. congruence.
    + intros Hall. exfalso. apply Exists_exists in Hex as (img & Hin & Hn).
      rewrite Forall_forall in Hall. destruct (Hall img Hin) as [r Hr']. congruence.
  - split; split; try done.
    + congruence.
    + intros Hex. exfalso. apply Exists_exists in Hex as (img & Hin & Hn).
      rewrite Forall_forall in Hall. destruct (Hall img Hin) as [r Hr']. congruence.
    + by eexists.
Qed.

(** X12. When the rename map is built from a well-formed usage index, its
    keys are exactly the paths of the used images relative to the input
    directory, and it has as many entries as the usage index has images. *)
Theorem rename_map_has_one_entry_per_image `{!UnicodeData} (fs : FileSystem)
    (self : ImageProcessor) (dict : gmap str str) :
  processor_wf self →
  outcome (create_rename_dictionary fs self) = Ok dict →
  (∀ k, is_Some (dict !! k)
        ↔ ∃ img, img ∈ usage_keys self ∧ rename_key self img = Some k)
  ∧ size dict = length (image_usage self).
Proof. apply rename_map_keys. Qed.

Lemma rename_map_has_one_entry_per_image_witness :
  size ({[ lit "one.png" := lit "gallery.png"; lit "three.gif" := lit "gallery-02.gif";
           lit "two.jpg" := lit "gallery-03.jpg" ]} : gmap str str)
  = length (image_usage gallery_state).
Proof.
  apply (rename_map_has_one_entry_per_image (ref_fs gallery_site) gallery_state).
  - apply (bool_decide_unpack _). vm_compute. exact I.
  - vm_compute. reflexivity.
Defined.

(** X13. A featured image with one entry in its usage list is named after
    its document: the slug of the document, [-feature] and the lower-cased
    extension. *)
Theorem featured_image_name `{!UnicodeData} (fs : FileSystem)
    (self : ImageProcessor) (before after : list (Path * list Path))
    (img d : Path) :
  processor_wf self →
  image_usage self = before ++ (img, [d]) :: after →
  is_featured self img = true →
  Forall (λ k, is_Some (rename_key self k)) (usage_keys self) →
  ∃ dict k,
    outcome (create_rename_dictionary fs self) = Ok dict
    ∧ rename_key self img = Some k
    ∧ dict !! k = Some (slug_of fs d ++ lit "-feature" ++ lower (suffix img)).
Proof.
  intros Hwf Husage Hf Hall.
  destruct (create_rename_dictionary_Ok fs self Hall) as (r & Hr & Hout).
  destruct (rename_plan_lookup fs self before img [d] after r Hwf Husage Hr)
    as (k & Hk & Hlook).
  exists r.1, k. split; [done|]. split; [done|].
  by rewrite Hlook, seo_filename_single, Hf.
Qed.

Lemma featured_image_name_witness :
  ∃ dict k,
    outcome (create_rename_dictionary (ref_fs cover_site) cover_state) = Ok dict
    ∧ rename_key cover_state (PurePath "/site/cover.JPG") = Some k
    ∧ dict !! k = Some (slug_of (ref_fs cover_site) cover_md ++ lit "-feature"
                        ++ lower (suffix (PurePath "/site/cover.JPG"))).
Proof.
  apply (featured_image_name (ref_fs cover_site) cover_state [] []
           (PurePath "/site/cover.JPG") cover_md).
  - apply (bool_decide_unpack _). vm_compute. exact I.
  - reflexivity.
  - vm_compute. reflexivity.
  - apply (bool_decide_unpack _). vm_compute. exact I.
Defined.

Example cover_name :
  outcome (create_rename_dictionary (ref_fs cover_site) cover_state)
  = Ok {[ lit "cover.JPG" := lit "hello-world-feature.jpg" ]}.
Proof. vm_compute. reflexivity. Qed.

(** X14. An image whose usage list has more than one entry keeps its own
    name: the slug of its stem and the lower-cased extension. *)
Theorem shared_image_name `{!UnicodeData} (fs : FileSystem)
    (self : ImageProcessor) (before after : list (Path * list Path))
    (img : Path) (usage : list Path) :
  processor_wf self →
  image_usage self = before ++ (img, usage) :: after →
  (1 < length usage)%nat →
  Forall (λ k, is_Some (rename_key self k)) (usage_keys self) →
  ∃ dict k,
    outcome (create_rename_dictionary fs self) = Ok dict
    ∧ rename_key self img = Some k
    ∧ dict !! k = Some (_slugify (stem img) ++ lower (suffix img)).
Proof.
  intros Hwf Husage Hlen Hall.
  destruct (create_rename_dictionary_Ok fs self Hall) as (r & Hr & Hout).
  destruct (rename_plan_lookup fs self before img usage after r Hwf Husage Hr)
    as (k & Hk & Hlook).
  exists r.1, k. split; [done|]. split; [done|].
  rewrite Hlook, seo_filename_multi; [done|lia].
Qed.

Lemma shared_image_name_witness :
  ∃ dict k,
    outcome (create_rename_dictionary (ref_fs shared_site) shared_state) = Ok dict
    ∧ rename_key shared_state (PurePath "/img/Our_Logo.PNG") = Some k
    ∧ dict !! k = Some (_slugify (stem (PurePath "/img/Our_Logo.PNG"))
                        ++ lower (suffix (PurePath "/img/Our_Logo.PNG"))).
Proof.
  apply (shared_image_name (ref_fs shared_site) shared_state [] []
           (PurePath "/img/Our_Logo.PNG") [PurePath "/a.md"; PurePath "/b.md"]).
  - apply (bool_decide_unpack _). vm_compute. exact I.
  - reflexivity.
  - simpl. lia.
  - apply (bool_decide_unpack _). vm_compute. exact I.
Defined.

Example shared_name :
  outcome (create_rename_dictionary (ref_fs shared_site) shared_state)
  = Ok {[ lit "img/Our_Logo.PNG" := lit "our-logo.png" ]}.
Proof. vm_compute. reflexivity. Qed.

(** X15. Every name in the rename map is a file name of its own image: a
    non-empty base of Basic Latin letters, digits and hyphens (so without
    a path separator or a dot), followed by the lower-cased extension of
    the image it renames. *)
Theorem new_names_are_slug_and_extension `{!UnicodeData} (fs : FileSystem)
    (self : ImageProcessor) (dict : gmap str str) (k v : str) :
  processor_wf self →
  outcome (create_rename_dictionary fs self) = Ok dict →
  dict !! k = Some v →
  ∃ img base,
    img ∈ usage_keys self ∧ rename_key self img = Some k
    ∧ v = base ++ lower (suffix img)
    ∧ (0 < length base)%nat ∧ Forall (λ c, slug_char c = true) base.
Proof.
  intros Hwf Hout Hv.
  apply create_rename_dictionary_inv in Hout as (r & Hr & ->).
  destruct (rename_plan_dom fs self _ _ r k v Hr Hv) as [Hemp|([img usage] & Hin & Hk)].
  { simpl in Hemp. by rewrite lookup_empty in Hemp. }
  simpl in Hk. apply list_elem_of_lookup in Hin as [i Hi].
  destruct (rename_lookup_at fs self r i img usage Hwf Hr Hi) as (k' & Hk' & Hlook).
  assert (k' = k) as -> by congruence. rewrite Hlook in Hv. injection Hv as <-.
  destruct (seo_filename_form fs img usage (is_featured self img)
              (sequence_of self (take i (image_usage self)) img usage))
    as (base & Hbase & Hlen & Hch).
  exists img, base. split; [|done].
  unfold usage_keys. apply list_elem_of_fmap. exists (img, usage). split; [done|].
  apply list_elem_of_lookup. by exists i.
Qed.

Lemma new_names_are_slug_and_extension_witness :
  ∃ img base,
    img ∈ usage_keys gallery_state
    ∧ rename_key gallery_state img = Some (lit "two.jpg")
    ∧ lit "gallery-03.jpg" = base ++ lower (suffix img)
    ∧ (0 < length base)%nat ∧ Forall (λ c, slug_char c = true) base.
Proof.
  apply (new_names_are_slug_and_extension (ref_fs gallery_site) gallery_state
           {[ lit "one.png" := lit "gallery.png"; lit "three.gif" := lit "gallery-02.gif";
              lit "two.jpg" := lit "gallery-03.jpg" ]}).
  - apply (bool_decide_unpack _). vm_compute. exact I.
  - vm_compute. reflexivity.
  - vm_compute. reflexivity.
Defined.

(** X24. Every key of the rename map leads back to its image: joined to
    the input directory it is the path of an image of the usage index. *)
Theorem rename_map_keys_lead_back `{!UnicodeData} (fs : FileSystem)
    (self : ImageProcessor) (dict : gmap str str) (k : str) :
  processor_wf self →
  outcome (create_rename_dictionary fs self) = Ok dict →
  is_Some (dict !! k) →
  input_dir self // k ∈ usage_keys self
  ∧ rename_key self (input_dir self // k) = Some k.
Proof.
  intros Hwf Hout Hk.
  destruct (rename_map_keys fs self dict Hwf Hout) as [Hkeys _].
  apply Hkeys in Hk as (img & Himg & Hkey).
  destruct Hwf as (_ & _ & Hall). rewrite Forall_forall in Hall.
  rewrite (rename_key_joined self img k); [done|by apply Hall|done].
Qed.

Lemma rename_map_keys_lead_back_witness :
  PurePath "/site" // lit "two.jpg" ∈ usage_keys gallery_state
  ∧ rename_key gallery_state (PurePath "/site" // lit "two.jpg") = Some (lit "two.jpg").
Proof.
  apply (rename_map_keys_lead_back (ref_fs gallery_site) gallery_state
           {[ lit "one.png" := lit "gallery.png"; lit "three.gif" := lit "gallery-02.gif";
              lit "two.jpg" := lit "gallery-03.jpg" ]} (lit "two.jpg")).
  - apply (bool_decide_unpack _). vm_compute. exact I.
  - vm_compute. reflexivity.
  - vm_compute. by eexists.
Defined.

(** ** The slug of a document named by its date *)

Section DatePrefix.
Context `{!UnicodeData}.

Lemma first_down_exact {A} (f : nat → option A) n : first_down f n n = f n.
Proof.
  destruct n as [|n]; simpl.
  - by destruct (f 0%nat).
  - rewrite Nat.ltb_irrefl. destruct (f (S n)); [done|].
    apply first_down_below. lia.
Qed.

Lemma span_app_ge p run s :
  Forall (λ c, p c = true) run → (length run ≤ span p (run ++ s))%nat.
Proof.
  induction 1 as [|a run Ha _ IH]; simpl; [lia|]. rewrite Ha. lia.
Qed.

(** An item with an exact count takes that many characters of its class. *)
Lemma match_here_times p re run s :
  Forall (λ c, p c = true) run →
  match_here (re_times (length run) p :: re) (run ++ s)
  = match match_here re s with
    | Some (ms, rest) => Some (run :: ms, rest)
    | None => None
    end.
Proof.
  intros Hrun. cbn [match_here re_times re_class re_max re_min].
  pose proof (span_app_ge p run s Hrun).
  rewrite Nat.min_l by done. rewrite first_down_exact.
  by rewrite drop_app_length, take_app_length.
Qed.

Lemma digits_decimal s : digits_only s → Forall (λ c, re_d c = true) s.
Proof.
  intros Hs. eapply Forall_impl; [exact Hs|]. intros c Hc. simpl in Hc.
  unfold re_d. rewrite ucd_decimal_ascii; [done|].
  revert Hc. unfold ascii_digit. cp_cases.
Qed.

Lemma date_prefix_removed y m d rest :
  length y = 4%nat → length m = 2%nat → length d = 2%nat →
  digits_only y → digits_only m → digits_only d →
  re_sub_at_start date_prefix []
    (y ++ lit "-" ++ m ++ lit "-" ++ d ++ lit "-" ++ rest) = rest.
Proof.
  intros Hy Hm Hd Dy Dm Dd. unfold re_sub_at_start.
  assert (date_prefix
          = [re_times (length y) re_d; re_char (chr "-");
             re_times (length m) re_d; re_char (chr "-");
             re_times (length d) re_d; re_char (chr "-")]) as ->
    by by rewrite Hy, Hm, Hd.
  repeat (progress change (lit "-" ++ ?x) with (chr "-" :: x)).
  rewrite (match_here_times _ _ y) by by apply digits_decimal.
  rewrite match_here_char.
  rewrite (match_here_times _ _ m) by by apply digits_decimal.
  rewrite match_here_char.
  rewrite (match_here_times _ _ d) by by apply digits_decimal.
  rewrite match_here_char. done.
Qed.

End DatePrefix.

(** X16. A document without a [slug] and without a [title] in its front
    matter (or whose front matter cannot be read) is named after its file:
    a leading date, four digits, two digits and two digits each followed
    by a hyphen, is dropped and the rest of the stem is slugified. *)
Theorem dated_file_slug `{!UnicodeData} (fs : FileSystem) (md_file : Path)
    (y m d rest : str) :
  (frontmatter_of fs md_file).1 !! lit "slug" = None →
  (frontmatter_of fs md_file).1 !! lit "title" = None →
  stem md_file = y ++ lit "-" ++ m ++ lit "-" ++ d ++ lit "-" ++ rest →
  length y = 4%nat → length m = 2%nat → length d = 2%nat →
  digits_only y → digits_only m → digits_only d →
  outcome (_extract_slug_from_file fs md_file) = Ok (_slugify rest).
Proof.
  intros Hslug Htitle Hstem Hy Hm Hd Dy Dm Dd.
  unfold _extract_slug_from_file.
  rewrite extract_frontmatter_and_content_run, outcome_bind_Ok.
  destruct (frontmatter_of fs md_file) as [fm c]. simpl in Hslug, Htitle.
  rewrite Hslug, Htitle, Hstem.
  change (lit "") with (@nil N). by rewrite date_prefix_removed.
Qed.

Lemma dated_file_slug_witness :
  stem dated_md = lit "2023" ++ lit "-" ++ lit "01" ++ lit "-" ++ lit "15" ++ lit "-"
                  ++ lit "My_Trip"
  ∧ outcome (_extract_slug_from_file (ref_fs dated_site) dated_md)
    = Ok (_slugify (lit "My_Trip")).
Proof.
  split; [vm_compute; reflexivity|].
  apply (dated_file_slug (ref_fs dated_site) dated_md
           (lit "2023") (lit "01") (lit "15") (lit "My_Trip")).
  - vm_compute. reflexivity.
  - vm_compute. reflexivity.
  - vm_compute. reflexivity.
  - reflexivity.
  - reflexivity.
  - reflexivity.
  - by repeat constructor.
  - by repeat constructor.
  - by repeat constructor.
Defined.

Example dated_slug :
  outcome (_extract_slug_from_file (ref_fs dated_site) dated_md) = Ok (lit "my-trip").
Proof. vm_compute. reflexivity. Qed.

(** ** The files that the walk finds *)

Section FileExtras.
Context `{!UnicodeData} (fs : FileSystem).

Lemma last_app_nonempty (a b : list str) : b ≠ [] → List.last (a ++ b) [] = List.last b [].
Proof.
  intros Hb. induction a as [|x a IH]; [done|].
  simpl. destruct (a ++ b) eqn:E; [|done].
  apply app_eq_nil in E as [_ ->]. done.
Qed.

(** The name of a joined path is the name of what was joined. *)
Lemma joinpath_name root file :
  startswith file (lit "/") = false → path_components file ≠ [] →
  name (root // file) = name (PurePath file).
Proof.
  intros Hf Hne. rewrite joinpath_relative by done.
  unfold name. simpl. by apply last_app_nonempty.
Qed.

Lemma found_image self img :
  walk_ok fs (input_dir self) → img ∈ find_image_files fs self →
  lower (suffix img) ∈ image_extensions
  ∧ is_Some (relative_to img (input_dir self)).
Proof.
  intros Hwalk Himg. unfold find_image_files in Himg.
  apply list_elem_of_In, in_flat_map in Himg as ([root files] & Hin & Himg).
  apply list_elem_of_In in Hin. apply list_elem_of_In in Himg.
  apply list_elem_of_fmap in Himg as (file & -> & Hfile).
  apply list_elem_of_filter in Hfile as [Hext Hfile].
  unfold os_walk in Hin.
  apply list_elem_of_fmap in Hin as ([rel names] & [= -> ->] & Hin).
  unfold walk_ok in Hwalk. rewrite Forall_forall in Hwalk.
  destruct (Hwalk _ Hin) as [_ Hnames]. simpl in Hnames.
  rewrite Forall_forall in Hnames. specialize (Hnames file Hfile).
  split.
  - destruct (decide (path_components file = [])) as [Hnil|Hne].
    + exfalso. unfold suffix, name, PurePath in Hext. simpl in Hext.
      rewrite Hnil in Hext. simpl in Hext. revert Hext.
      change (lower []) with (@nil N).
      by apply (bool_decide_unpack _).
    + unfold suffix in *. by rewrite joinpath_name.
  - rewrite joinpath_relative by done. simpl.
    unfold relative_to. simpl. rewrite decide_True by done.
    rewrite <- app_assoc.
    assert (strip_prefix (parts (input_dir self))
              (parts (input_dir self) ++ rel ++ path_components file)
            = Some (rel ++ path_components file)) as -> by by apply strip_prefix_Some.
    by eexists.
Qed.

Lemma NoDup_omap_inj {A B} (f : A → option B) (l : list A) :
  NoDup l →
  (∀ x y z, x ∈ l → y ∈ l → f x = Some z → f y = Some z → x = y) →
  NoDup (omap f l).
Proof.
  induction 1 as [|a l Ha Hl IH]; intros Hinj; [constructor|].
  simpl. destruct (f a) as [b|] eqn:E.
  - constructor.
    + intros (y & Hy & Hfy)%list_elem_of_omap.
      apply Ha. rewrite (Hinj a y b); [done|by left|by right|done|done].
    + apply IH. intros x y z Hx Hy. apply Hinj; by right.
  - apply IH. intros x y z Hx Hy. apply Hinj; by right.
Qed.

End FileExtras.

(** X17. Every file that [find_image_files] returns has one of the seven
    image extensions, compared without regard to case, and lies below the
    input directory. *)
Theorem found_images_have_image_extension `{!UnicodeData} (fs : FileSystem)
    (self : ImageProcessor) (img : Path) :
  walk_ok fs (input_dir self) → img ∈ find_image_files fs self →
  lower (suffix img) ∈ image_extensions
  ∧ is_Some (relative_to img (input_dir self)).
Proof. apply found_image. Qed.

Lemma found_images_have_image_extension_witness :
  lower (suffix (PurePath "/site/IMG_001.PNG")) ∈ image_extensions
  ∧ is_Some (relative_to (PurePath "/site/IMG_001.PNG") (PurePath "/site")).
Proof.
  apply (found_images_have_image_extension (ref_fs twice_site) twice_processor
           (PurePath "/site/IMG_001.PNG")).
  - apply (bool_decide_unpack _). vm_compute. exact I.
  - apply (bool_decide_unpack _). vm_compute. exact I.
Defined.

(** X18. On a walk below a well-formed input directory
    [find_orphaned_images] does not fail, and it lists no orphan twice. *)
Theorem orphans_are_listed_once `{!UnicodeData} (fs : FileSystem)
    (self : ImageProcessor) :
  wf_path (input_dir self) → walk_ok fs (input_dir self) →
  ∃ orphans,
    outcome (find_orphaned_images fs self) = Ok orphans ∧ NoDup orphans.
Proof.
  intros Hroot Hwalk. eexists. split; [by apply find_orphaned_images_outcome|].
  apply NoDup_omap_inj; [apply NoDup_remove_dups|].
  intros x y z Hx Hy Hfx Hfy.
  rewrite elem_of_remove_dups in Hx, Hy.
  unfold orphan_key in Hfx, Hfy.
  destruct (bool_decide (x ∈ usage_keys self)); [done|].
  destruct (bool_decide (y ∈ usage_keys self)); [done|].
  apply (rename_key_inj self x y z); try done.
  - by eapply find_image_files_ok.
  - by eapply find_image_files_ok.
Qed.

Lemma orphans_are_listed_once_witness :
  ∃ orphans,
    outcome (find_orphaned_images (ref_fs stray_site) stray_state) = Ok orphans
    ∧ NoDup orphans.
Proof.
  apply (orphans_are_listed_once (ref_fs stray_site) stray_state).
  - apply (bool_decide_unpack _). vm_compute. exact I.
  - apply (bool_decide_unpack _). vm_compute. exact I.
Defined.

(** ** The usage report *)

Section ReportExtras.

Lemma relative_strs_cases root files :
  (Forall (λ f, is_Some (relative_to f root)) files
   ∧ ∃ rs, outcome (relative_strs root files) = Ok rs ∧ length rs = length files)
  ∨ (¬ Forall (λ f, is_Some (relative_to f root)) files
     ∧ outcome (relative_strs root files) = Raise ValueError).
Proof.
  induction files as [|f files IH]; simpl.
  - left. split; [constructor|]. by exists [].
  - destruct (relative_to f root) as [r|] eqn:E.
    + rewrite outcome_bind.
      destruct IH as [[Hall (rs & -> & Hlen)]|[Hn ->]].
      * left. split; [constructor; [by eexists|done]|].
        exists (path_str r :: rs). split; [done|]. simpl. by rewrite Hlen.
      * right. split; [|done]. intros [_ ?]%Forall_cons. done.
    + right. split; [|done]. intros [[? ?] _]%Forall_cons. congruence.
Qed.

(** One turn of the loop of [create_usage_report]. *)
Lemma report_step_cases self report item :
  (entry_below self item
   ∧ ∃ k report',
       rename_key self item.1 = Some k
       ∧ outcome (report_step self report item) = Ok report'
       ∧ total_images report' = total_images report
       ∧ total_markdown_files report' = total_markdown_files report
       ∧ featured_images_count report' = featured_images_count report
       ∧ multi_use_images report'
         = multi_use_images report ++ (if (1 <? length item.2)%nat then [k] else [])
       ∧ single_use_images report'
         = single_use_images report ++ (if (1 <? length item.2)%nat then [] else [k]))
  ∨ (¬ entry_below self item
     ∧ outcome (report_step self report item) = Raise ValueError).
Proof.
  destruct item as [img usage]. unfold entry_below, report_step, rename_key. simpl.
  destruct (relative_to img (input_dir self)) as [r|] eqn:E.
  - rewrite outcome_bind.
    destruct (relative_strs_cases (input_dir self) usage) as [[Hall (rs & -> & _)]|[Hn ->]].
    + left. split; [split; [by eexists|done]|].
      exists (path_str r). destruct (1 <? length usage)%nat; eexists; by rewrite ?app_nil_r.
    + right. split; [|done]. by intros [_ ?].
  - right. split; [|done]. intros [[? ?] _]. congruence.
Qed.

Lemma report_loop self items report :
  (Forall (entry_below self) items
   ∧ ∃ report',
       outcome (for_each items (report_step self) report) = Ok report'
       ∧ total_images report' = total_images report
       ∧ total_markdown_files report' = total_markdown_files report
       ∧ featured_images_count report' = featured_images_count report
       ∧ multi_use_images report' = multi_use_images report ++ multi_use_keys self items
       ∧ single_use_images report'
         = single_use_images report ++ single_use_keys self items)
  ∨ (¬ Forall (entry_below self) items
     ∧ outcome (for_each items (report_step self) report) = Raise ValueError).
Proof.
  revert report. induction items as [|item items IH]; intros report.
  - left. split; [constructor|]. exists report. simpl. by rewrite !app_nil_r.
  - cbn [for_each]. rewrite outcome_bind.
    destruct (report_step_cases self report item)
      as [[Hb (k & r1 & Hk & -> & Ht & Hm & Hf & Hmu & Hsi)]|[Hn ->]].
    + destruct (IH r1) as [[Hall (r2 & -> & Ht2 & Hm2 & Hf2 & Hmu2 & Hsi2)]|[Hn ->]].
      * left. split; [by constructor|]. exists r2. split; [done|].
        rewrite Ht2, Hm2, Hf2, Hmu2, Hsi2, Hmu, Hsi. repeat split; try done.
        -- unfold multi_use_keys. simpl. rewrite <- app_assoc.
           destruct (1 <? length item.2)%nat; [by rewrite Hk|done].
        -- unfold single_use_keys. simpl. rewrite <- app_assoc.
           destruct (1 <? length item.2)%nat; [done|by rewrite Hk].
      * right. split; [|done]. by intros [_ ?]%Forall_cons.
    + right. split; [|done]. by intros [? _]%Forall_cons.
Qed.

Lemma use_keys_length self items :
  Forall (entry_below self) items →
  (length (multi_use_keys self items) + length (single_use_keys self items))%nat
  = length items.
Proof.
  induction 1 as [|[img usage] items [[r Hr] _] _ IH]; [done|].
  simpl in Hr.
  assert (rename_key self img = Some (path_str r)) as Hk
    by (unfold rename_key; by rewrite Hr).
  unfold multi_use_keys, single_use_keys in *. cbn [omap list_omap fst snd].
  rewrite Hk. destruct (1 <? length usage)%nat; simpl; lia.
Qed.

Lemma create_usage_report_cases self :
  (Forall (entry_below self) (image_usage self)
   ∧ ∃ report, outcome (create_usage_report self) = Ok report)
  ∨ (¬ Forall (entry_below self) (image_usage self)
     ∧ outcome (create_usage_report self) = Raise ValueError).
Proof.
  unfold create_usage_report.
  destruct (report_loop self (image_usage self)
              (mkUsageReport (length (image_usage self))
                 (length (remove_dups (concat (image_usage self).*2)))
                 (size (featured_images self)) ∅ [] []))
    as [[Hall (r & Hr & _)]|[Hn Hr]].
  - left. split; [done|]. by exists r.
  - by right.
Qed.

End ReportExtras.

(** X19. When the usage report is produced, its totals are those of the
    state, and every image of the usage index is listed exactly once, by
    its key and in the order of the index: under the multi-use images when
    its usage list has more than one entry, under the single-use images
    otherwise. *)
Theorem usage_report_partitions_the_images (self : ImageProcessor)
    (report : UsageReport) :
  outcome (create_usage_report self) = Ok report →
  total_images report = length (image_usage self)
  ∧ featured_images_count report = size (featured_images self)
  ∧ multi_use_images report = multi_use_keys self (image_usage self)
  ∧ single_use_images report = single_use_keys self (image_usage self)
  ∧ (length (multi_use_images report) + length (single_use_images report))%nat
    = total_images report.
Proof.
  unfold create_usage_report. intros Hout.
  destruct (report_loop self (image_usage self)
              (mkUsageReport (length (image_usage self))
                 (length (remove_dups (concat (image_usage self).*2)))
                 (size (featured_images self)) ∅ [] []))
    as [[Hall (r & Hr & Ht & Hm & Hf & Hmu & Hsi)]|[_ Hr]]; [|congruence].
  assert (r = report) as -> by congruence. simpl in *.
  rewrite Ht, Hf, Hmu, Hsi. repeat split; try done.
  by apply use_keys_length.
Qed.

Lemma usage_report_partitions_the_images_witness :
  ∃ report,
    outcome (create_usage_report shared_state) = Ok report
    ∧ total_images report = 1%nat
    ∧ multi_use_images report = [lit "img/Our_Logo.PNG"]
    ∧ single_use_images report = [].
Proof.
  destruct (outcome (create_usage_report shared_state)) as [report|e] eqn:E.
  - exists report. split; [done|].
    destruct (usage_report_partitions_the_images shared_state report E)
      as (Ht & _ & Hmu & Hsi & _).
    rewrite Ht, Hmu, Hsi. repeat split.
  - exfalso. vm_compute in E. discriminate E.
Defined.

(** X20. The usage report is produced exactly when every image of the
    usage index and every document that uses it lie below the input
    directory; otherwise building it ends with [ValueError]. *)
Theorem usage_report_fails_outside_input_dir (self : ImageProcessor) :
  ((∃ report, outcome (create_usage_report self) = Ok report)
   ↔ Forall (entry_below self) (image_usage self))
  ∧ (outcome (create_usage_report self) = Raise ValueError
     ↔ Exists (λ item, ¬ entry_below self item) (image_usage self)).
Proof.
  destruct (create_usage_report_cases self) as [[Hall [r Hr]]|[Hn Hr]].
  - split; split; try done.
    + by eexists.
    + congruence.
    + intros Hex. exfalso. apply Exists_exists in Hex as (it & Hin & Hb).
      rewrite Forall_forall in Hall. by apply Hb, Hall.
  - split; split; try done.
    + intros [report Hrep]. congruence.
    + intros _. apply not_Forall_Exists; [apply _|done].
Qed.

(** ** The whole run *)

Section ProcessExtras.
Context `{!UnicodeData} (fs : FileSystem).

Lemma found_markdown_file self d :
  walk_ok fs (input_dir self) → d ∈ find_markdown_files fs self →
  is_Some (relative_to d (input_dir self)).
Proof.
  intros Hwalk Hd. unfold find_markdown_files in Hd.
  apply list_elem_of_In, in_flat_map in Hd as ([root files] & Hin & Hd).
  apply list_elem_of_In in Hin. apply list_elem_of_In in Hd.
  apply list_elem_of_fmap in Hd as (file & -> & Hfile).
  apply list_elem_of_filter in Hfile as [_ Hfile].
  unfold os_walk in Hin.
  apply list_elem_of_fmap in Hin as ([rel names] & [= -> ->] & Hin).
  unfold walk_ok in Hwalk. rewrite Forall_forall in Hwalk.
  destruct (Hwalk _ Hin) as [_ Hnames]. simpl in Hnames.
  rewrite Forall_forall in Hnames. specialize (Hnames file Hfile).
  rewrite joinpath_relative by done. simpl.
  unfold relative_to. simpl. rewrite decide_True by done.
  rewrite <- app_assoc.
  assert (strip_prefix (parts (input_dir self))
            (parts (input_dir self) ++ rel ++ path_components file)
          = Some (rel ++ path_components file)) as -> by by apply strip_prefix_Some.
  by eexists.
Qed.

(** After a scan the users of every image lie below the input directory. *)
Lemma scanned_entries_below input output self' :
  walk_ok fs input →
  outcome (analyze_image_usage fs (new_processor input output)) = Ok self' →
  input_dir self' = input
  ∧ (Forall (entry_below self') (image_usage self')
     ↔ Forall (λ img, is_Some (relative_to img (input_dir self'))) (usage_keys self')).
Proof.
  intros Hwalk Hout.
  pose proof (usage_index_after_scan_facts fs input output self' Hout) as Hfacts.
  apply analyze_image_usage_recorded in Hout as (Hin & _ & _). simpl in Hin.
  split; [done|]. unfold usage_keys. rewrite Forall_fmap.
  split; intros Hall; apply Forall_forall; intros [img usage] Hit;
    rewrite Forall_forall in Hall; specialize (Hall _ Hit).
  - destruct Hall as [Himg _]. exact Himg.
  - split; [exact Hall|]. simpl. rewrite Forall_forall in Hfacts.
    destruct (Hfacts _ Hit) as (_ & _ & Hdocs). simpl in Hdocs.
    eapply Forall_impl; [exact Hdocs|]. intros d Hd. simpl. rewrite Hin.
    by apply (found_markdown_file (new_processor input output)).
Qed.

Lemma outcome_print line : outcome (print line) = Ok tt.
Proof. done. Qed.

Lemma for_each_print {A} (xs : list A) (line : A → str) :
  outcome (for_each xs (λ _ x, print (line x)) tt) = Ok tt.
Proof.
  induction xs as [|x xs IH]; [done|]. cbn [for_each]. rewrite outcome_bind.
  exact IH.
Qed.

(** The outcome of [process], method by method. *)
Lemma process_outcome self :
  outcome (process fs self)
  = match outcome (analyze_image_usage fs self) with
    | Raise e => Raise e
    | Ok self' =>
        match outcome (create_rename_dictionary fs self') with
        | Raise e => Raise e
        | Ok rename_dict =>
            match outcome (find_orphaned_images fs self') with
            | Raise e => Raise e
            | Ok orphaned_images =>
                match outcome (create_usage_report self') with
                | Raise e => Raise e
                | Ok usage_report =>
                    Ok (self', (rename_dict, usage_report, orphaned_images))
                end
            end
        end
    end.
Proof.
  unfold process. rewrite outcome_bind, outcome_print, outcome_bind.
  destruct (outcome (analyze_image_usage fs self)) as [s1|]; [|done].
  rewrite outcome_bind.
  destruct (outcome (create_rename_dictionary fs s1)) as [rd|]; [|done].
  rewrite outcome_bind.
  destruct (outcome (find_orphaned_images fs s1)) as [orph|]; [|done].
  rewrite outcome_bind.
  destruct (outcome (create_usage_report s1)) as [rep|]; [|done].
  rewrite outcome_bind, for_each_print.
  by rewrite !(outcome_bind (print _)), !outcome_print.
Qed.

End ProcessExtras.

(** X21. After the scan of a new processor on a walk below its input
    directory, the usage report is produced exactly when the rename map
    is: both fail on the same inputs. *)
Theorem report_and_rename_map_succeed_together `{!UnicodeData} (fs : FileSystem)
    (input output : Path) (self' : ImageProcessor) :
  walk_ok fs input →
  outcome (analyze_image_usage fs (new_processor input output)) = Ok self' →
  ((∃ report, outcome (create_usage_report self') = Ok report)
   ↔ (∃ dict, outcome (create_rename_dictionary fs self') = Ok dict)).
Proof.
  intros Hwalk Hout.
  destruct (scanned_entries_below fs input output self' Hwalk Hout) as [_ Hiff].
  destruct (create_usage_report_cases self') as [[Hall Hrep]|[Hn Hrep]];
    destruct (create_rename_dictionary_cases fs self') as [[Hr Hex]|[Hok Hkeys]].
  - exfalso. apply Hiff in Hall. apply Exists_exists in Hex as (img & Hin & Hnone).
    rewrite Forall_forall in Hall. destruct (Hall img Hin). congruence.
  - done.
  - split; [intros [? ?]; congruence|intros [? ?]; congruence].
  - exfalso. by apply Hn, Hiff.
Qed.

Lemma report_and_rename_map_succeed_together_witness :
  (∃ report, outcome (create_usage_report stray_state) = Ok report)
  ↔ (∃ dict, outcome (create_rename_dictionary (ref_fs stray_site) stray_state) = Ok dict).
Proof.
  apply (report_and_rename_map_succeed_together (ref_fs stray_site)
           (PurePath "/site") (PurePath "/out") stray_state).
  - apply (bool_decide_unpack _). vm_compute. exact I.
  - exact stray_state_is_analysis.
Defined.

(** X22. A run on a walk below a well-formed input directory returns
    exactly when the scan returns and every image it recorded lies below
    the input directory. It ends with [AttributeError] exactly when the
    scan does, and with [ValueError] exactly when the scan returns and some
    recorded image lies outside the input directory. *)
Theorem process_succeeds_iff `{!UnicodeData} (fs : FileSystem) (input output : Path) :
  wf_path input → walk_ok fs input →
  ((∃ result, outcome (process fs (new_processor input output)) = Ok result)
   ↔ ∃ self',
       outcome (analyze_image_usage fs (new_processor input output)) = Ok self'
       ∧ Forall (λ img, is_Some (relative_to img input)) (usage_keys self'))
  ∧ (outcome (process fs (new_processor input output)) = Raise AttributeError
     ↔ outcome (analyze_image_usage fs (new_processor input output))
       = Raise AttributeError)
  ∧ (outcome (process fs (new_processor input output)) = Raise ValueError
     ↔ ∃ self',
         outcome (analyze_image_usage fs (new_processor input output)) = Ok self'
         ∧ Exists (λ img, relative_to img input = None) (usage_keys self')).
Proof.
  intros Hroot Hwalk. rewrite process_outcome.
  pose proof (analyze_image_usage_outcome fs (new_processor input output)) as Hscan.
  destruct (first_failure fs (find_markdown_files fs (new_processor input output)))
    as [e|] eqn:Hfail.
  { rewrite Hscan. apply first_failure_kind in Hfail.
    split; [|split]; split;
      first [ done
            | by intros [? ?]
            | by intros (? & ? & _)
            | intros [= ->]; by destruct Hfail ]. }
  destruct Hscan as [s1 Hok]. rewrite Hok.
  destruct (scanned_entries_below fs input output s1 Hwalk Hok) as [Hin Hiff].
  destruct (create_rename_dictionary_cases fs s1) as [[Hren Hex]|[[dict Hren] Hkeys]];
    rewrite Hren.
  - rewrite Hin in Hex. split; [|split]; split; try done.
    + by intros [? ?].
    + intros (s & [= <-] & Hall). exfalso.
      apply Exists_exists in Hex as (img & Himg & Hnone).
      rewrite Forall_forall in Hall. destruct (Hall img Himg). congruence.
    + intros _. by exists s1.
  - rewrite (find_orphaned_images_outcome fs s1) by by rewrite Hin.
    destruct (create_usage_report_cases s1) as [[_ [rep Hrep]]|[Hn _]];
      [|exfalso; by apply Hn, Hiff].
    rewrite Hrep. rewrite Hin in Hkeys. split; [|split]; split; try done.
    + intros _. by exists s1.
    + by eexists.
    + intros (s & [= <-] & Hex). exfalso.
      apply Exists_exists in Hex as (img & Himg & Hnone).
      rewrite Forall_forall in Hkeys. destruct (Hkeys img Himg). congruence.
Qed.

Lemma process_succeeds_iff_witness :
  (∃ result,
     outcome (process (ref_fs stray_site)
                (new_processor (PurePath "/site") (PurePath "/out"))) = Ok result)
  ↔ ∃ self',
      outcome (analyze_image_usage (ref_fs stray_site)
                 (new_processor (PurePath "/site") (PurePath "/out"))) = Ok self'
      ∧ Forall (λ img, is_Some (relative_to img (PurePath "/site"))) (usage_keys self').
Proof.
  apply (process_succeeds_iff (ref_fs stray_site) (PurePath "/site") (PurePath "/out")).
  - apply (bool_decide_unpack _). vm_compute. exact I.
  - apply (bool_decide_unpack _). vm_compute. exact I.
Defined.

(** ** Invariants of the scan, in general *)

Section ScanInduction.
Context `{!UnicodeData} (fs : FileSystem) (P : ImageProcessor → Prop).
Hypothesis P_content : ∀ self d r ref_type raw, P self → P (record_content self d r ref_type raw).
Hypothesis P_featured : ∀ self d r raw, P self → P (record_featured self d r raw).

Lemma content_loop_invariant self self' d refs :
  P self →
  outcome (for_each refs
             (λ self '(img_path, ref_type),
                match resolve_image_path fs self img_path d with
                | Some resolved_path =>
                    mret (record_content self d resolved_path ref_type img_path)
                | None => mret self
                end)
             self) = Ok self' →
  P self'.
Proof.
  revert self. induction refs as [|[img_path ref_type] refs IH]; intros self HP.
  - simpl. by intros [= <-].
  - cbn [for_each]. rewrite outcome_bind.
    destruct (resolve_image_path fs self img_path d) as [r|];
      cbn [outcome mret M_ret snd]; apply IH; [by apply P_content|done].
Qed.

Lemma analyze_markdown_file_invariant self self' d :
  P self → outcome (analyze_markdown_file fs self d) = Ok self' → P self'.
Proof.
  intros HP. unfold analyze_markdown_file.
  rewrite extract_frontmatter_and_content_run, outcome_bind_Ok.
  destruct (frontmatter_of fs d) as [fm content]. rewrite outcome_bind.
  destruct (first_featured fm featured_keys) as [[featured_img|b t|b t]|].
  - destruct (resolve_image_path fs self featured_img d) as [r|];
      cbn [outcome mret M_ret snd]; apply content_loop_invariant; [by apply P_featured|done].
  - done.
  - done.
  - cbn [outcome mret M_ret snd]. by apply content_loop_invariant.
Qed.

(** What the two recording steps keep, the whole scan keeps. *)
Lemma analyze_image_usage_invariant self self' :
  P self → outcome (analyze_image_usage fs self) = Ok self' → P self'.
Proof.
  intros HP. unfold analyze_image_usage. rewrite outcome_bind, outcome_print. cbv zeta.
  rewrite outcome_bind.
  destruct (outcome (for_each _ _ self)) as [s1|] eqn:E; [|done].
  rewrite outcome_bind, outcome_print. intros [= <-].
  revert E. generalize (find_markdown_files fs self).
  intros docs. revert self HP. induction docs as [|d docs IH]; intros self HP.
  - simpl. by intros [= <-].
  - cbn [for_each]. rewrite outcome_bind.
    destruct (outcome (analyze_markdown_file fs self d)) as [s2|] eqn:E2; [|done].
    apply IH. by eapply analyze_markdown_file_invariant.
Qed.

End ScanInduction.

Section FeaturedUsed.
Context {K V : Type} `{EqDecision K}.

Lemma dd_append_keeps (k0 : K) (v0 : V) d k vs v :
  (k, vs) ∈ d → v ∈ vs → ∃ vs', (k, vs') ∈ dd_append k0 v0 d ∧ v ∈ vs'.
Proof.
  induction d as [|[k1 vs1] d IH]; [by intros ?%elem_of_nil|].
  intros [[= <- <-]|Hin]%elem_of_cons Hv; simpl.
  - destruct (decide (k = k0)) as [->|Hne].
    + exists (vs ++ [v0]). split; [by left|]. apply elem_of_app. by left.
    + exists vs. split; [by left|done].
  - destruct (decide (k1 = k0)) as [->|Hne].
    + exists vs. split; [by right|done].
    + destruct (IH Hin Hv) as (vs' & Hin' & Hv'). exists vs'. split; [by right|done].
Qed.

Lemma dd_append_holds (k0 : K) (v0 : V) d :
  ∃ vs', (k0, vs') ∈ dd_append k0 v0 d ∧ v0 ∈ vs'.
Proof.
  induction d as [|[k1 vs1] d (vs' & Hin & Hv)]; simpl.
  - exists [v0]. split; by left.
  - destruct (decide (k1 = k0)) as [->|Hne].
    + exists (vs1 ++ [v0]). split; [by left|]. apply elem_of_app. right. by left.
    + exists vs'. split; [by right|done].
Qed.

End FeaturedUsed.

Lemma featured_used_scan `{!UnicodeData} (fs : FileSystem) self self' :
  featured_used self → outcome (analyze_image_usage fs self) = Ok self' →
  featured_used self'.
Proof.
  apply (analyze_image_usage_invariant fs featured_used).
  - intros s d r ref_type raw Hs d' img Hf. simpl in Hf.
    destruct (Hs d' img Hf) as (usage & Hin & Hd). simpl.
    by apply (dd_append_keeps r d (image_usage s) img usage d').
  - intros s d r raw Hs d' img Hf. simpl in Hf. simpl.
    destruct (decide (d = d')) as [->|Hne].
    + rewrite lookup_insert_eq in Hf. injection Hf as <-. apply dd_append_holds.
    + rewrite lookup_insert_ne in Hf by done.
      destruct (Hs d' img Hf) as (usage & Hin & Hd).
      by apply (dd_append_keeps r d (image_usage s) img usage d').
Qed.

(** X23. After the scan of a new processor every featured image is in the
    usage index, and the document that features it is among its users. *)
Theorem featured_images_are_used `{!UnicodeData} (fs : FileSystem)
    (input output : Path) (self' : ImageProcessor) :
  outcome (analyze_image_usage fs (new_processor input output)) = Ok self' →
  ∀ d img, featured_images self' !! d = Some img →
           ∃ usage, (img, usage) ∈ image_usage self' ∧ d ∈ usage.
Proof.
  intros Hout. apply (featured_used_scan fs (new_processor input output)); [|done].
  intros d img Hf. simpl in Hf. by rewrite lookup_empty in Hf.
Qed.

Lemma featured_images_are_used_witness :
  ∃ usage, (PurePath "/site/cover.JPG", usage) ∈ image_usage cover_state
           ∧ cover_md ∈ usage.
Proof.
  apply (featured_images_are_used (ref_fs cover_site) (PurePath "/site") (PurePath "/out")
           cover_state cover_state_is_analysis cover_md (PurePath "/site/cover.JPG")).
  vm_compute. reflexivity.
Defined.
